(** * streamit-hls: the C-syntax emitter (hlstarget/CBackend.cpp) and the
      expression lowerer (frontend/expression_builder.cpp)

    The development has these parts.
    - [IR]: the fragment of the IR library (types, opcodes, values,
      instructions, blocks, use lists) that the two components consume.
    - [CWriter]: the C emitter.  [Out << s] is modelled by returning [s];
      sequencing concatenates.  The emitter's counters and tables are
      threaded explicitly, and a failed [assert] or [llvm_unreachable] is
      [None].
    - [Frontend]: the expression lowerer, over an explicit builder state
      (basic blocks, insertion point), and a small-step execution of the
      IR it builds.
    - [AST]: the node lists, type names and declarations of the syntax
      tree (parser/ast.cpp).
    - [ConstantString]: the string constants of the C emitter, with the
      reading of a C string literal to compare them with. *)

From Stdlib Require Import ZArith String Ascii List Bool Lia.
From stdpp Require Import base option list strings gmap pretty.

Open Scope string_scope.
Set Warnings "-register-all".

(** ** A state monad with failure

    Both components thread a mutable object (the emitter, the function
    builder) through their calls and stop at a failed assertion. *)
Section StateOption.
Context {St : Type}.

Definition SO (A : Type) : Type := St -> option (A * St).

Definition ret {A} (a : A) : SO A := fun st => Some (a, st).
Definition fail {A} : SO A := fun _ => None.
Definition bind {A B} (m : SO A) (k : A -> SO B) : SO B :=
  fun st => match m st with
            | Some (a, st') => k a st'
            | None => None
            end.
Definition lift {A} (o : option A) : SO A :=
  fun st => match o with Some a => Some (a, st) | None => None end.
Definition get : SO St := fun st => Some (st, st).
Definition put (st' : St) : SO unit := fun _ => Some (tt, st').

End StateOption.
Arguments SO : clear implicits.

Notation "x <- m ;; k" := (bind m (fun x => k))
  (at level 100, m at next level, right associativity).

(** ** Part I: the IR library fragment *)
Module IR.

(** [llvm::Type], by [TypeID]. *)
Inductive Ty :=
| VoidTy
| LabelTy
| FloatTy
| DoubleTy
| IntegerTy (NumBits : N)
| FunctionTy (ret : Ty) (params : list Ty)
| StructTy (literal : bool) (name : string) (elts : list Ty)
| ArrayTy (NumElements : N) (elt : Ty)
| PointerTy (elt : Ty)
| VectorTy (NumElements : N) (elt : Ty).

Definition isVoidTy (T : Ty) : bool :=
  match T with VoidTy => true | _ => false end.
Definition isIntegerTy (T : Ty) : bool :=
  match T with IntegerTy _ => true | _ => false end.
Definition isPointerTy (T : Ty) : bool :=
  match T with PointerTy _ => true | _ => false end.
Definition isFloatTy (T : Ty) : bool :=
  match T with FloatTy => true | _ => false end.
Definition isDoubleTy (T : Ty) : bool :=
  match T with DoubleTy => true | _ => false end.
Definition isFloatingPointTy (T : Ty) : bool := isFloatTy T || isDoubleTy T.
Definition isVectorTy (T : Ty) : bool :=
  match T with VectorTy _ _ => true | _ => false end.
Definition isStructTy (T : Ty) : bool :=
  match T with StructTy _ _ _ => true | _ => false end.
Definition isArrayTy (T : Ty) : bool :=
  match T with ArrayTy _ _ => true | _ => false end.

(** [Type::isSingleValueType]. *)
Definition isSingleValueType (T : Ty) : bool :=
  isFloatingPointTy T || isIntegerTy T || isPointerTy T || isVectorTy T.

(** Structural equality of types (types are interned in the library, so
    pointer equality there is structural equality here). *)
Fixpoint Ty_beq (a b : Ty) {struct a} : bool :=
  let fix all2 (xs ys : list Ty) {struct xs} : bool :=
    match xs, ys with
    | [], [] => true
    | x :: xs', y :: ys' => Ty_beq x y && all2 xs' ys'
    | _, _ => false
    end in
  match a, b with
  | VoidTy, VoidTy | LabelTy, LabelTy | FloatTy, FloatTy
  | DoubleTy, DoubleTy => true
  | IntegerTy n, IntegerTy m => (n =? m)%N
  | FunctionTy r ps, FunctionTy r' ps' => Ty_beq r r' && all2 ps ps'
  | StructTy l n es, StructTy l' n' es' =>
      Bool.eqb l l' && String.eqb n n' && all2 es es'
  | ArrayTy n e, ArrayTy n' e' => (n =? n')%N && Ty_beq e e'
  | PointerTy e, PointerTy e' => Ty_beq e e'
  | VectorTy n e, VectorTy n' e' => (n =? n')%N && Ty_beq e e'
  | _, _ => false
  end.

(** [IntegerType::isPowerOf2ByteWidth]: the width is more than 7 bits and a
    power of two. *)
Definition isPowerOf2_32 (n : N) : bool :=
  negb (n =? 0)%N && (N.land n (n - 1) =? 0)%N.
Definition isPowerOf2ByteWidth (BitWidth : N) : bool :=
  (7 <? BitWidth)%N && isPowerOf2_32 BitWidth.

(** [IntegerType::getBitMask], a [uint64_t]:
    [~uint64_t(0UL) >> (64 - getBitWidth())].  The shift count is in range
    for the widths 1..64 only; outside them the result is undefined, here
    [None]. *)
Definition getBitMask (BitWidth : N) : option Z :=
  if ((1 <=? BitWidth) && (BitWidth <=? 64))%N
  then Some (Z.shiftr (2 ^ 64 - 1) (64 - Z.of_N BitWidth))%Z
  else None.

(** Conversion of a [uint64_t] to [unsigned] (32 bits on every target the
    library supports). *)
Definition to_unsigned (z : Z) : Z := (z mod 2 ^ 32)%Z.

(** [Instruction] opcodes, in the order of the library's table. *)
Inductive Opcode :=
| Ret | Br | Switch | IndirectBr | Invoke | Resume | Unreachable
| CleanupRet | CatchRet | CatchSwitch
| Add | FAdd | Sub | FSub | Mul | FMul | UDiv | SDiv | FDiv
| URem | SRem | FRem
| Shl | LShr | AShr | And | Or | Xor
| Alloca | Load | Store | GetElementPtr | Fence | AtomicCmpXchg | AtomicRMW
| Trunc | ZExt | SExt | FPToUI | FPToSI | UIToFP | SIToFP | FPTrunc | FPExt
| PtrToInt | IntToPtr | BitCast | AddrSpaceCast
| CleanupPad | CatchPad
| ICmp | FCmp | PHI | Call | Select | UserOp1 | UserOp2 | VAArg
| ExtractElement | InsertElement | ShuffleVector | ExtractValue | InsertValue
| LandingPad
(* the emitter's two extra tags, [enum UnaryOps] *)
| BinaryNeg | BinaryNot.

#[global] Instance Opcode_eq_dec : EqDecision Opcode.
Proof. solve_decision. Defined.

(** [Instruction::getOpcodeName], for the binary operators. *)
Definition getOpcodeName (op : Opcode) : string :=
  match op with
  | Add => "add" | FAdd => "fadd" | Sub => "sub" | FSub => "fsub"
  | Mul => "mul" | FMul => "fmul" | UDiv => "udiv" | SDiv => "sdiv"
  | FDiv => "fdiv" | URem => "urem" | SRem => "srem" | FRem => "frem"
  | Shl => "shl" | LShr => "lshr" | AShr => "ashr"
  | And => "and" | Or => "or" | Xor => "xor"
  | _ => "<Invalid operator>"
  end.

Definition isTerminator (op : Opcode) : bool :=
  match op with
  | Ret | Br | Switch | IndirectBr | Invoke | Resume | Unreachable
  | CleanupRet | CatchRet | CatchSwitch => true
  | _ => false
  end.

Definition isBinaryOp (op : Opcode) : bool :=
  match op with
  | Add | FAdd | Sub | FSub | Mul | FMul | UDiv | SDiv | FDiv
  | URem | SRem | FRem | Shl | LShr | AShr | And | Or | Xor => true
  | _ => false
  end.


(** [CmpInst::Predicate], the integer ones and the floating-point ones. *)
Inductive Predicate :=
| ICMP_EQ | ICMP_NE | ICMP_UGT | ICMP_UGE | ICMP_ULT | ICMP_ULE
| ICMP_SGT | ICMP_SGE | ICMP_SLT | ICMP_SLE
| FCMP_FALSE | FCMP_OEQ | FCMP_OGT | FCMP_OGE | FCMP_OLT | FCMP_OLE
| FCMP_ONE | FCMP_ORD | FCMP_UNO | FCMP_UEQ | FCMP_UGT | FCMP_UGE
| FCMP_ULT | FCMP_ULE | FCMP_UNE | FCMP_TRUE.

(** [ICmpInst::isRelational]: not an equality test. *)
Definition isRelational (P : Predicate) : bool :=
  match P with ICMP_EQ | ICMP_NE => false | _ => true end.

(** [CmpInst::isSigned]. *)
Definition isSignedPredicate (P : Predicate) : bool :=
  match P with
  | ICMP_SGT | ICMP_SGE | ICMP_SLT | ICMP_SLE => true
  | _ => false
  end.

(** [llvm::Value]: the identity of the object, its dynamic class, its name
    and its type.  An object's address is stood for by its class and
    [vid]: two values of one class are the same object when their [vid]s
    agree. *)
Inductive Value :=
| mkValue (vid : nat) (vkind : ValueKind) (vname : string) (vty : Ty)
with ValueKind :=
| KInstruction
| KArgument
| KBasicBlock
| KGlobalVariable
| KFunction
| KGlobalAlias (aliasee : Value)
| KConstantInt (val : Z)
| KConstantFP (isNegativeZero : bool)
| KUndefValue
| KConstant.

Definition vid (v : Value) : nat := let 'mkValue i _ _ _ := v in i.
Definition vkind (v : Value) : ValueKind := let 'mkValue _ k _ _ := v in k.
Definition vname (v : Value) : string := let 'mkValue _ _ n _ := v in n.
Definition vty (v : Value) : Ty := let 'mkValue _ _ _ t := v in t.

(** The address of a value, as a key. *)
Definition vaddr (v : Value) : nat * nat :=
  (match vkind v with
   | KInstruction => 0 | KArgument => 1 | KBasicBlock => 2
   | KGlobalVariable => 3 | KFunction => 4 | KGlobalAlias _ => 5
   | KConstantInt _ => 6 | KConstantFP _ => 7 | KUndefValue => 8
   | KConstant => 9
   end, vid v).

Definition isaInstruction (v : Value) : bool :=
  match vkind v with KInstruction => true | _ => false end.
Definition isaGlobalVariable (v : Value) : bool :=
  match vkind v with KGlobalVariable => true | _ => false end.
Definition isaGlobalValue (v : Value) : bool :=
  match vkind v with
  | KGlobalVariable | KFunction | KGlobalAlias _ => true
  | _ => false
  end.
Definition isaConstant (v : Value) : bool :=
  match vkind v with
  | KGlobalVariable | KFunction | KGlobalAlias _ | KConstantInt _
  | KConstantFP _ | KUndefValue | KConstant => true
  | _ => false
  end.
Definition isaUndefValue (v : Value) : bool :=
  match vkind v with KUndefValue => true | _ => false end.
Definition isaArgument (v : Value) : bool :=
  match vkind v with KArgument => true | _ => false end.

(** [llvm::Instruction].  [ival] is the instruction as a value.  A PHI's
    [operands] are its incoming values and [incoming_blocks] their blocks;
    a branch's [operands] hold its condition, if any, and [successors] its
    targets. *)
Record Instruction := {
  ival : Value;
  iop : Opcode;
  ipred : Predicate;
  operands : list Value;
  incoming_blocks : list nat;
  successors : list Value;
  iparent : nat;
  isArrayAllocation : bool;
  allocatedType : Ty;
  isVolatile : bool
}.

Definition ity (I : Instruction) : Ty := vty (ival I).
Definition iid (I : Instruction) : nat := vid (ival I).

Definition isaCmpInst (I : Instruction) : bool :=
  match iop I with ICmp | FCmp => true | _ => false end.
Definition isaTerminatorInst (I : Instruction) : bool := isTerminator (iop I).
Definition isaCallInst (I : Instruction) : bool :=
  match iop I with Call => true | _ => false end.
Definition isaPHINode (I : Instruction) : bool :=
  match iop I with PHI => true | _ => false end.
Definition isaLoadInst (I : Instruction) : bool :=
  match iop I with Load => true | _ => false end.
Definition isaVAArgInst (I : Instruction) : bool :=
  match iop I with VAArg => true | _ => false end.
Definition isaInsertElementInst (I : Instruction) : bool :=
  match iop I with InsertElement => true | _ => false end.
Definition isaInsertValueInst (I : Instruction) : bool :=
  match iop I with InsertValue => true | _ => false end.
Definition isaAllocaInst (I : Instruction) : bool :=
  match iop I with Alloca => true | _ => false end.
Definition isaBitCastInst (I : Instruction) : bool :=
  match iop I with BitCast => true | _ => false end.

Record BasicBlock := {
  bval : Value;
  binsts : list Instruction
}.
Definition bid (B : BasicBlock) : nat := vid (bval B).

Record Function := {
  fval : Value;
  fblocks : list BasicBlock;
  hasStructRetAttr : bool
}.

(** [inst_begin(F) .. inst_end(F)]: every instruction, block by block. *)
Definition instructions (F : Function) : list Instruction :=
  flat_map binsts (fblocks F).

Definition getInst (F : Function) (v : Value) : option Instruction :=
  if isaInstruction v
  then List.find (fun I => Nat.eqb (iid I) (vid v)) (instructions F)
  else None.

Definition getBlock (F : Function) (b : nat) : option BasicBlock :=
  List.find (fun B => Nat.eqb (bid B) b) (fblocks F).

(** [F.getEntryBlock()], by identity. *)
Definition getEntryBlock (F : Function) : option nat :=
  bid <$> head (fblocks F).

(** The use list of a value: one entry per operand slot that holds it. *)
Definition users (F : Function) (v : Value) : list Instruction :=
  flat_map
    (fun U => map (fun _ => U)
                (List.filter
                   (fun o => isaInstruction o && Nat.eqb (vid o) (vid v))
                   (operands U)))
    (instructions F).

Definition hasOneUse (F : Function) (I : Instruction) : bool :=
  Nat.eqb (length (users F (ival I))) 1.

(** [I.user_back()]: the last entry of the use list. *)
Definition user_back (F : Function) (I : Instruction) : option Instruction :=
  last (users F (ival I)).

(** [BB->getTerminator()] and the instructions before it. *)
Definition getTerminator (B : BasicBlock) : option Instruction :=
  last (binsts B).
Definition nonTerminators (B : BasicBlock) : list Instruction :=
  removelast (binsts B).

(** [pred_begin(BB) .. pred_end(BB)]: the blocks whose terminator has [BB]
    among its successors. *)
Definition predecessors (F : Function) (BB : nat) : list BasicBlock :=
  List.filter
    (fun P => match getTerminator P with
              | Some T => existsb (fun s => Nat.eqb (vid s) BB) (successors T)
              | None => false
              end)
    (fblocks F).

(** [PN->getIncomingValueForBlock(BB)]; the library asserts that [BB] is an
    incoming block. *)
Fixpoint incomingValueFor (blocks : list nat) (vals : list Value) (BB : nat)
  : option Value :=
  match blocks, vals with
  | b :: blocks', v :: vals' =>
      if Nat.eqb b BB then Some v else incomingValueFor blocks' vals' BB
  | _, _ => None
  end.
Definition getIncomingValueForBlock (PN : Instruction) (BB : nat)
  : option Value :=
  incomingValueFor (incoming_blocks PN) (operands PN) BB.

(** [APInt] readings of a constant of width [w] kept as an integer. *)
Definition getZExtValue (w : N) (val : Z) : Z := (val mod 2 ^ Z.of_N w)%Z.
Definition getSExtValue (w : N) (val : Z) : Z :=
  let u := (val mod 2 ^ Z.of_N w)%Z in
  if (2 ^ (Z.of_N w - 1) <=? u)%Z then (u - 2 ^ Z.of_N w)%Z else u.
Definition bitlen (z : Z) : Z := if (z =? 0)%Z then 0%Z else (Z.log2 z + 1)%Z.
Definition getMinSignedBits (w : N) (val : Z) : Z :=
  let s := getSExtValue w val in
  ((if (0 <=? s)%Z then bitlen s else bitlen (- s - 1)) + 1)%Z.
Definition isMinSignedValue (w : N) (val : Z) : bool :=
  (getZExtValue w val =? 2 ^ (Z.of_N w - 1))%Z.
Definition isAllOnesValue (w : N) (val : Z) : bool :=
  (getZExtValue w val =? 2 ^ Z.of_N w - 1)%Z.

(** [Constant::isNegativeZeroValue]: minus zero for a floating-point
    constant, zero for an integer one. *)
Definition isNegativeZeroValue (v : Value) : bool :=
  match vkind v, vty v with
  | KConstantFP nz, _ => nz
  | KConstantInt val, IntegerTy w => (getZExtValue w val =? 0)%Z
  | _, _ => false
  end.
Definition isConstantAllOnes (v : Value) : bool :=
  match vkind v, vty v with
  | KConstantInt val, IntegerTy w => isAllOnesValue w val
  | _, _ => false
  end.

(** [BinaryOperator::isNeg], [isFNeg], [isNot] and the argument getters. *)
Definition isNeg (I : Instruction) : bool :=
  match iop I, operands I with
  | Sub, op0 :: _ => isaConstant op0 && isNegativeZeroValue op0
  | _, _ => false
  end.
Definition isFNeg (I : Instruction) : bool :=
  match iop I, operands I with
  | FSub, op0 :: _ => isaConstant op0 && isNegativeZeroValue op0
  | _, _ => false
  end.
Definition isNot (I : Instruction) : bool :=
  match iop I, operands I with
  | Xor, op0 :: op1 :: _ => isConstantAllOnes op1 || isConstantAllOnes op0
  | _, _ => false
  end.
Definition getNegArgument (I : Instruction) : option Value :=
  operands I !! 1%nat.
Definition getNotArgument (I : Instruction) : option Value :=
  match operands I with
  | op0 :: op1 :: _ => if isConstantAllOnes op0 then Some op1 else Some op0
  | _ => None
  end.

End IR.
Export IR.

(** ** Part II: the C emitter *)
Module CWriter.

(** *** Emitter state and the emission monad *)

(** The members of [CWriter] that the modelled functions read or write.
    [DenseMap]s with default value 0 are maps where an absent key reads
    0.  [TypedefDeclTypes] only feeds the type declarations of the header,
    which are not modelled, and is left out. *)
Record EState := {
  AnonValueNumbers : gmap (nat * nat) nat;
  NextAnonValueNumber : nat;
  UnnamedStructIDs : list (Ty * nat);
  NextAnonStructNumber : nat;
  UnnamedFunctionIDs : list (Ty * nat);
  NextFunctionNumber : nat;
  InlineOpDeclTypes : list (Opcode * Ty);
  SelectDeclTypes : list Ty;
  ByValParams : list nat
}.

Definition initial_state : EState :=
  {| AnonValueNumbers := ∅; NextAnonValueNumber := 0;
     UnnamedStructIDs := []; NextAnonStructNumber := 0;
     UnnamedFunctionIDs := []; NextFunctionNumber := 0;
     InlineOpDeclTypes := []; SelectDeclTypes := []; ByValParams := [] |}.

(** A computation that emits: it returns what it wrote (or computed) and the
    new state, or [None] when an assertion fails. *)
Definition Emit (A : Type) : Type := SO EState A.

(** Emit the pieces of a list in order. *)
Fixpoint emit_all {A} (f : A -> Emit string) (l : list A) : Emit string :=
  match l with
  | [] => ret ""
  | x :: l' => s <- f x ;; r <- emit_all f l' ;; ret (s +:+ r)
  end.

(** [utostr]. *)
Definition utostr (n : nat) : string := pretty n.

(** *** Types *)

(** [isEmptyType] (static, CBackend.cpp:55). *)
Fixpoint isEmptyType (T : Ty) : bool :=
  match T with
  | StructTy _ _ elts =>
      (N.of_nat (length elts) =? 0)%N || forallb isEmptyType elts
  | ArrayTy n elt => (n =? 0)%N || isEmptyType elt
  | _ => isVoidTy T
  end.

(** *** Names *)

(** [isalnum] in the C locale. *)
Definition isalnum (c : ascii) : bool :=
  let n := N_of_ascii c in
  ((48 <=? n) && (n <=? 57) || (65 <=? n) && (n <=? 90)
   || (97 <=? n) && (n <=? 122))%N.

Definition is_underscore (c : ascii) : bool := (N_of_ascii c =? 95)%N.

(** [CBEMangle] (static, CBackend.cpp:141): a character that is neither
    alphanumeric nor an underscore becomes ['_'], ['A' + (c & 15)],
    ['A' + ((c >> 4) & 15)], ['_']. *)
Definition CBEMangle_char (c : ascii) : string :=
  if isalnum c || is_underscore c then String c ""
  else
    String "_"
      (String (ascii_of_N (65 + N.land (N_of_ascii c) 15))
         (String (ascii_of_N (65 + N.land (N.shiftr (N_of_ascii c) 4) 15))
            (String "_" ""))).

Fixpoint CBEMangle (S : string) : string :=
  match S with
  | EmptyString => ""
  | String c S' => CBEMangle_char c +:+ CBEMangle S'
  end.

(** [sprintf(buffer, "%x", ch)] for an [unsigned char]: lower-case
    hexadecimal, no padding. *)
Definition hexdigit (n : N) : ascii :=
  if (n <? 10)%N then ascii_of_N (48 + n) else ascii_of_N (87 + n).
Definition sprintf_x (ch : N) : string :=
  if (ch <? 16)%N then String (hexdigit ch) ""
  else String (hexdigit (ch / 16)) (String (hexdigit (ch mod 16)) "").

(** The loop of [CWriter::GetValueName] (CBackend.cpp:1279) over the
    characters of a local name. *)
Definition VarName_char (ch : ascii) : string :=
  let n := N_of_ascii ch in
  if negb ((97 <=? n) && (n <=? 122) || (65 <=? n) && (n <=? 90)
           || (48 <=? n) && (n <=? 57) || (n =? 95))%N
  then "_" +:+ sprintf_x n +:+ "_"
  else String ch "".

Fixpoint VarName (Name : string) : string :=
  match Name with
  | EmptyString => ""
  | String ch Name' => VarName_char ch +:+ VarName Name'
  end.

Definition is_empty_string (s : string) : bool :=
  match s with EmptyString => true | _ => false end.

(** [unsigned& No = AnonValueNumbers[Operand]; if (No == 0) No =
    ++NextAnonValueNumber;] *)
Definition anonValueNumber (Operand : Value) : Emit nat := fun st =>
  match AnonValueNumbers st !! vaddr Operand with
  | Some (S n) => Some (S n, st)
  | _ =>
      let No := S (NextAnonValueNumber st) in
      Some (No,
            {| AnonValueNumbers :=
                 <[vaddr Operand := No]> (AnonValueNumbers st);
               NextAnonValueNumber := No;
               UnnamedStructIDs := UnnamedStructIDs st;
               NextAnonStructNumber := NextAnonStructNumber st;
               UnnamedFunctionIDs := UnnamedFunctionIDs st;
               NextFunctionNumber := NextFunctionNumber st;
               InlineOpDeclTypes := InlineOpDeclTypes st;
               SelectDeclTypes := SelectDeclTypes st;
               ByValParams := ByValParams st |})
  end.

(** [CWriter::GetValueName] (CBackend.cpp:1252). *)
Definition GetValueName (Operand : Value) : Emit string :=
  let Operand :=
    match vkind Operand with KGlobalAlias GA => GA | _ => Operand end in
  Name <- (if is_empty_string (vname Operand)
           then No <- anonValueNumber Operand ;; ret ("tmp__" +:+ utostr No)
           else ret (vname Operand)) ;;
  if isaGlobalValue Operand then ret (CBEMangle Name)
  else ret ("llvm_cbe_" +:+ VarName Name).

(** Lookup in a table keyed by types. *)
Fixpoint lookupTy (T : Ty) (m : list (Ty * nat)) : nat :=
  match m with
  | [] => 0
  | (T', n) :: m' => if Ty_beq T T' then n else lookupTy T m'
  end.

(** [unsigned& id = UnnamedStructIDs[ST]; if (id == 0) id =
    ++NextAnonStructNumber;] *)
Definition unnamedStructID (ST : Ty) : Emit nat := fun st =>
  match lookupTy ST (UnnamedStructIDs st) with
  | S n => Some (S n, st)
  | O =>
      let id := S (NextAnonStructNumber st) in
      Some (id,
            {| AnonValueNumbers := AnonValueNumbers st;
               NextAnonValueNumber := NextAnonValueNumber st;
               UnnamedStructIDs := (ST, id) :: UnnamedStructIDs st;
               NextAnonStructNumber := id;
               UnnamedFunctionIDs := UnnamedFunctionIDs st;
               NextFunctionNumber := NextFunctionNumber st;
               InlineOpDeclTypes := InlineOpDeclTypes st;
               SelectDeclTypes := SelectDeclTypes st;
               ByValParams := ByValParams st |})
  end.

(** [unsigned& id = UnnamedFunctionIDs[...]; if (id == 0) id =
    ++NextFunctionNumber;] (the attribute set of the key is not
    modelled). *)
Definition unnamedFunctionID (FT : Ty) : Emit nat := fun st =>
  match lookupTy FT (UnnamedFunctionIDs st) with
  | S n => Some (S n, st)
  | O =>
      let id := S (NextFunctionNumber st) in
      Some (id,
            {| AnonValueNumbers := AnonValueNumbers st;
               NextAnonValueNumber := NextAnonValueNumber st;
               UnnamedStructIDs := UnnamedStructIDs st;
               NextAnonStructNumber := NextAnonStructNumber st;
               UnnamedFunctionIDs := (FT, id) :: UnnamedFunctionIDs st;
               NextFunctionNumber := id;
               InlineOpDeclTypes := InlineOpDeclTypes st;
               SelectDeclTypes := SelectDeclTypes st;
               ByValParams := ByValParams st |})
  end.

(** [CWriter::printTypeString] (CBackend.cpp:160). *)
Fixpoint printTypeString (T : Ty) (isSigned : bool) : Emit string :=
  match T with
  | StructTy literal name _ =>
      if isEmptyType T then fail
      else if negb literal && negb (is_empty_string name)
      then ret ("struct_" +:+ CBEMangle name)
      else id <- unnamedStructID T ;; ret ("unnamed_" +:+ utostr id)
  | PointerTy elt =>
      s <- printTypeString elt isSigned ;; ret ("p" +:+ s)
  | VoidTy => ret "void"
  | IntegerTy NumBits =>
      if (NumBits =? 1)%N then ret "bool"
      else if (NumBits <=? 128)%N
      then ret ((if isSigned then "i" else "u") +:+ pretty NumBits)
      else fail
  | FloatTy => ret "f32"
  | DoubleTy => ret "f64"
  | ArrayTy n elt =>
      if (n =? 0)%N then fail
      else s <- printTypeString elt isSigned ;;
           ret (s +:+ "a" +:+ pretty n)
  | _ => fail
  end.

(** [CWriter::getStructName] (CBackend.cpp:219). *)
Definition getStructName (ST : Ty) : Emit string :=
  match ST with
  | StructTy literal name elts =>
      if (N.of_nat (length elts) =? 0)%N then fail
      else if negb literal && negb (is_empty_string name)
      then ret ("struct l_struct_" +:+ CBEMangle name)
      else id <- unnamedStructID ST ;;
           ret ("struct l_unnamed_" +:+ utostr id)
  | _ => fail
  end.

(** [CWriter::getFunctionName] (CBackend.cpp:231). *)
Definition getFunctionName (FT : Ty) : Emit string :=
  id <- unnamedFunctionID FT ;; ret ("l_fptr_" +:+ utostr id).

(** [CWriter::printSimpleType] (CBackend.cpp:314).  The result is [None]
    when the entry assertion, the assertion on the width or
    [llvm_unreachable] is hit. *)
Definition printSimpleType (T : Ty) (isSigned : bool) : option string :=
  if negb (isSingleValueType T || isVoidTy T) then None
  else match T with
  | VoidTy => Some "void"
  | IntegerTy NumBits =>
      if (NumBits =? 1)%N then Some "bool"
      else if (NumBits <=? 8)%N
        then Some (if isSigned then "int8_t" else "uint8_t")
      else if (NumBits <=? 16)%N
        then Some (if isSigned then "int16_t" else "uint16_t")
      else if (NumBits <=? 32)%N
        then Some (if isSigned then "int32_t" else "uint32_t")
      else if (NumBits <=? 64)%N
        then Some (if isSigned then "int64_t" else "uint64_t")
      else None
  | FloatTy => Some "float"
  | DoubleTy => Some "double"
  | _ => None
  end.

(** [CWriter::printTypeName] (CBackend.cpp:354) with [getArrayName]
    (CBackend.cpp:239) folded in, since the two call each other. *)
Fixpoint printTypeName (T : Ty) (isSigned : bool) : Emit string :=
  if (isSingleValueType T || isVoidTy T) && negb (isPointerTy T)
  then lift (printSimpleType T isSigned)
  else if isEmptyType T then ret "void"
  else match T with
  | FunctionTy _ _ => getFunctionName T
  | StructTy _ _ _ => getStructName T
  | PointerTy ElTy => s <- printTypeName ElTy false ;; ret (s +:+ "*")
  | ArrayTy n elt =>
      ArrayInnards <- printTypeName elt false ;;
      ret ("struct l_array_" +:+ pretty n +:+ "_" +:+ CBEMangle ArrayInnards)
  | _ => fail
  end.

(** [CWriter::printTypeNameUnaligned] (CBackend.cpp:399). *)
Definition printTypeNameUnaligned (T : Ty) (isSigned : bool) : Emit string :=
  printTypeName T isSigned.

(** *** Operands and instructions *)

Inductive OperandContext := ContextNormal | ContextCasted | ContextStatic.

#[global] Instance OperandContext_eq_dec : EqDecision OperandContext.
Proof. solve_decision. Defined.

Definition spaces (n : nat) : string := String.concat "" (repeat " " n).

(** The characters a string literal of the source writes with an escape. *)
Definition nl : string := String "010"%char EmptyString.
Definition dquote : string := String "034"%char EmptyString.

(** The mask of the two "C can't handle non-power-of-two integer types"
    sites: [unsigned mask = 0; if (Ty is an integer type that is not a
    power-of-two byte width) mask = ITy->getBitMask();].  The [uint64_t]
    returned by [getBitMask] is stored in an [unsigned]. *)
Definition oddWidthMask (T : Ty) : option Z :=
  match T with
  | IntegerTy w =>
      if negb (isPowerOf2ByteWidth w) then to_unsigned <$> getBitMask w
      else Some 0%Z
  | _ => Some 0%Z
  end.

(** [CWriter::opcodeNeedsCast] (CBackend.cpp:1410): [(shouldCast,
    castIsSigned)]. *)
Definition opcodeNeedsCast (Opcode : Opcode) : bool * bool :=
  match Opcode with
  | Add | Sub | Mul | LShr | UDiv | URem => (true, false)
  | GetElementPtr | AShr | SDiv | SRem => (true, true)
  | _ => (false, false)
  end.

(** The C operator of a binary opcode (the two identical [switch]es of
    [generateHeader] and [visitBinaryOperator]); [None] is
    [llvm_unreachable]. *)
Definition binaryOperatorText (op : Opcode) : option string :=
  match op with
  | Add | FAdd => Some " + "
  | Sub | FSub => Some " - "
  | Mul | FMul => Some " * "
  | URem | SRem | FRem => Some " % "
  | UDiv | SDiv | FDiv => Some " / "
  | And => Some " & "
  | Or => Some " | "
  | Xor => Some " ^ "
  | Shl => Some " << "
  | LShr | AShr => Some " >> "
  | _ => None
  end.

Definition insertInlineOpDeclType (op : Opcode) (T : Ty) : Emit unit :=
  fun st =>
    let present :=
      existsb (fun e => bool_decide (fst e = op) && Ty_beq (snd e) T)
              (InlineOpDeclTypes st) in
    Some (tt,
          {| AnonValueNumbers := AnonValueNumbers st;
             NextAnonValueNumber := NextAnonValueNumber st;
             UnnamedStructIDs := UnnamedStructIDs st;
             NextAnonStructNumber := NextAnonStructNumber st;
             UnnamedFunctionIDs := UnnamedFunctionIDs st;
             NextFunctionNumber := NextFunctionNumber st;
             InlineOpDeclTypes :=
               if present then InlineOpDeclTypes st
               else InlineOpDeclTypes st ++ [(op, T)];
             SelectDeclTypes := SelectDeclTypes st;
             ByValParams := ByValParams st |}).

(** [CWriter::isGotoCodeNecessary] (CBackend.cpp:2614): its first statement
    is [return true]. *)
Definition isGotoCodeNecessary (From To : nat) : bool := true.

Section Emitter.

(** The function being printed, the visitor dispatch [visit(&I)] (the knot
    is tied in [visit_fuel] below), the printer of the constants that are
    not integers, and the width of [TD->getIntPtrType]. *)
Variable F : Function.
Variable visit : Instruction -> Emit string.
Variable printConstantOther : Value -> OperandContext -> Emit string.
Variable IntPtrBits : N.

(** [CWriter::isDirectAlloca] (CBackend.cpp:107). *)
Definition isDirectAlloca (V : Value) : option Instruction :=
  match getInst F V with
  | Some AI =>
      if negb (isaAllocaInst AI) then None
      else if isArrayAllocation AI then None
      else if negb (bool_decide (Some (iparent AI) = getEntryBlock F))
      then None
      else Some AI
  | None => None
  end.

(** [CWriter::isAddressExposed] (CBackend.cpp:73). *)
Definition isAddressExposed (V : Value) : Emit bool := fun st =>
  if isaArgument V
  then Some (existsb (Nat.eqb (vid V)) (ByValParams st), st)
  else Some (isaGlobalVariable V || bool_decide (is_Some (isDirectAlloca V)),
             st).

(** [CWriter::isInlinableInst] (CBackend.cpp:85). *)
Definition isInlinableInst (I : Instruction) : bool :=
  if isaCmpInst I then true
  else if isEmptyType (ity I) || negb (hasOneUse F I) || isaTerminatorInst I
          || isaCallInst I || isaPHINode I || isaLoadInst I || isaVAArgInst I
          || isaInsertElementInst I || isaInsertValueInst I
  then false
  else match user_back F I with
       | Some U => Nat.eqb (iparent I) (iparent U)
       | None => false
       end.

(** [CWriter::printConstant] (CBackend.cpp:744) on a [ConstantInt] and on
    an undefined value of integer type; the other constants go to
    [printConstantOther]. *)
Definition printConstantInt (w : N) (val : Z) (Context : OperandContext)
  : option string :=
  let ActiveBits := getMinSignedBits w val in
  let size := Z.of_N w in
  if (w =? 1)%N
  then Some (if (getZExtValue w val =? 0)%Z then "0" else "1")
  else if negb (bool_decide (Context = ContextNormal))
          && (ActiveBits <? 64)%Z && (size <? 64)%Z && (ActiveBits <? size)%Z
  then Some ((if (32 <=? ActiveBits)%Z then "INT64_C(" else "")
             +:+ pretty (getSExtValue w val)
             +:+ (if (32 <=? ActiveBits)%Z then ")" else ""))
  else if (size <? 32)%Z && bool_decide (Context = ContextNormal)
  then T ← printSimpleType (IntegerTy w) false;
       Some ("((" +:+ T +:+ ")"
             +:+ (if isMinSignedValue w val
                  then pretty (getZExtValue w val) +:+ "u"
                  else pretty (getSExtValue w val))
             +:+ ")")
  else if (size <=? 32)%Z then Some (pretty (getZExtValue w val) +:+ "u")
  else if (size <=? 64)%Z
  then Some ("UINT64_C(" +:+ pretty (getZExtValue w val) +:+ ")")
  else Some "".

Definition printConstant (CPV : Value) (Context : OperandContext)
  : Emit string :=
  match vkind CPV, vty CPV with
  | KUndefValue, IntegerTy w =>
      s <- lift (printConstantInt w 0 Context) ;; ret ("/*UNDEF*/" +:+ s)
  | KConstantInt val, IntegerTy w => lift (printConstantInt w val Context)
  | _, _ => printConstantOther CPV Context
  end.

(** [CWriter::writeInstComputationInline] (CBackend.cpp:1298). *)
Definition writeInstComputationInline (I : Instruction) : Emit string :=
  mask <- lift (oddWidthMask (ity I)) ;;
  s <- visit I ;;
  ret ((if (mask =? 0)%Z then "" else "((") +:+ s
       +:+ (if (mask =? 0)%Z then "" else ")&" +:+ pretty mask +:+ ")")).

(** [CWriter::writeOperandInternal] (CBackend.cpp:1323). *)
Definition writeOperandInternal (Operand : Value) (Context : OperandContext)
  : Emit string :=
  let other :=
    if isaConstant Operand && negb (isaGlobalValue Operand)
    then printConstant Operand Context
    else GetValueName Operand in
  match getInst F Operand with
  | Some Inst =>
      if isInlinableInst Inst
         && negb (bool_decide (is_Some (isDirectAlloca (ival Inst))))
      then s <- writeInstComputationInline Inst ;; ret ("(" +:+ s +:+ ")")
      else other
  | None => other
  end.

(** [CWriter::writeOperand] (CBackend.cpp:1343). *)
Definition writeOperand (Operand : Value) (Context : OperandContext)
  : Emit string :=
  isAddressImplicit <- isAddressExposed Operand ;;
  s <- writeOperandInternal Operand Context ;;
  ret ((if isAddressImplicit : bool then "(&" else "") +:+ s
       +:+ (if isAddressImplicit then ")" else "")).

(** [CWriter::writeInstructionCast] (CBackend.cpp:1377): the text written
    and the result. *)
Definition writeInstructionCast (I : Instruction) : Emit (string * bool) :=
  match operands I with
  | op0 :: _ =>
      match iop I with
      | Add | Sub | Mul | LShr | URem | UDiv =>
          T <- lift (printSimpleType (vty op0) false) ;;
          ret ("((" +:+ T +:+ ")(", true)
      | AShr | SRem | SDiv =>
          T <- lift (printSimpleType (vty op0) true) ;;
          ret ("((" +:+ T +:+ ")(", true)
      | _ => ret ("", false)
      end
  | [] => fail
  end.

(** [CWriter::writeOperandWithCast(Value*, unsigned Opcode)]
    (CBackend.cpp:1448). *)
Definition writeOperandWithCast (Operand : Value) (Opcode : Opcode)
  : Emit string :=
  let '(shouldCast, castIsSigned) := opcodeNeedsCast Opcode in
  if shouldCast
  then T <- lift (printSimpleType (vty Operand) castIsSigned) ;;
       s <- writeOperand Operand ContextCasted ;;
       ret ("((" +:+ T +:+ ")" +:+ s +:+ ")")
  else writeOperand Operand ContextCasted.

(** [CWriter::writeOperandWithCast(Value*, ICmpInst&)]
    (CBackend.cpp:1473). *)
Definition writeOperandWithCast_icmp (Operand : Value) (Cmp : Instruction)
  : Emit string :=
  let shouldCast := isRelational (ipred Cmp) in
  if negb shouldCast then writeOperand Operand ContextNormal
  else
    let castIsSigned := isSignedPredicate (ipred Cmp) in
    let OpTy := if isPointerTy (vty Operand) then IntegerTy IntPtrBits
                else vty Operand in
    T <- lift (printSimpleType OpTy castIsSigned) ;;
    s <- writeOperand Operand ContextNormal ;;
    ret ("((" +:+ T +:+ ")" +:+ s +:+ ")").

(** [CWriter::writeMemoryAccess] (CBackend.cpp:3650). *)
Definition writeMemoryAccess (Operand : Value) (OperandType : Ty)
  (IsVolatile : bool) : Emit string :=
  exposed <- isAddressExposed Operand ;;
  if exposed : bool then writeOperandInternal Operand ContextNormal
  else
    v <- (if IsVolatile
          then T <- printTypeName OperandType false ;;
               ret ("(volatile " +:+ T +:+ "*)")
          else ret "") ;;
    s <- writeOperand Operand ContextNormal ;;
    ret ("*" +:+ v +:+ s).

(** [CWriter::visitLoadInst] (CBackend.cpp:3669). *)
Definition visitLoadInst (I : Instruction) : Emit string :=
  match operands I with
  | op0 :: _ => writeMemoryAccess op0 (ity I) (isVolatile I)
  | [] => fail
  end.

(** [CWriter::visitStoreInst] (CBackend.cpp:3674).  Operand 0 is the value
    stored and operand 1 the pointer. *)
Definition visitStoreInst (I : Instruction) : Emit string :=
  match operands I with
  | Operand :: PointerOperand :: _ =>
      a <- writeMemoryAccess PointerOperand (vty Operand) (isVolatile I) ;;
      BitMask <- lift (oddWidthMask (vty Operand)) ;;
      s <- writeOperand Operand
             (if (BitMask =? 0)%Z then ContextCasted else ContextNormal) ;;
      ret (a +:+ " = "
           +:+ (if (BitMask =? 0)%Z then "" else "((") +:+ s
           +:+ (if (BitMask =? 0)%Z then ""
                else ") & " +:+ pretty BitMask +:+ ")"))
  | _ => fail
  end.

(** [CWriter::visitPHINode] (CBackend.cpp:2704). *)
Definition visitPHINode (I : Instruction) : Emit string :=
  s <- writeOperand (ival I) ContextNormal ;;
  ret (s +:+ "__PHI_TEMPORARY").

(** [CWriter::visitBinaryOperator] (CBackend.cpp:2710). *)
Definition visitBinaryOperator (I : Instruction) : Emit string :=
  if isPointerTy (ity I) then fail
  else
  let needsCast :=
    match ity I with
    | IntegerTy 8 | IntegerTy 16 | FloatTy => true
    | _ => false
    end in
  let '(shouldCast, castIsSigned) := opcodeNeedsCast (iop I) in
  match operands I with
  | op0 :: op1 :: _ =>
      if needsCast || shouldCast
      then
        let VTy := vty op0 in
        r <-
          (if isNeg I || isFNeg I
           then T <- printTypeString VTy false ;;
                a <- writeOperand op1 ContextCasted ;;
                ret ("llvm_neg_" +:+ T +:+ "(" +:+ a, BinaryNeg)
           else if isNot I
           then T <- printTypeString VTy false ;;
                arg <- lift (getNotArgument I) ;;
                a <- writeOperand arg ContextCasted ;;
                ret ("llvm_not_" +:+ T +:+ "(" +:+ a, BinaryNot)
           else T <- printTypeString VTy false ;;
                a <- writeOperand op0 ContextCasted ;;
                b <- writeOperand op1 ContextCasted ;;
                ret ("llvm_" +:+ getOpcodeName (iop I) +:+ "_" +:+ T +:+ "("
                     +:+ a +:+ ", " +:+ b, iop I)) ;;
        let '(txt, opcode) := r in
        _ <- insertInlineOpDeclType opcode VTy ;;
        ret (txt +:+ ")")
      else if isNeg I || isFNeg I
      then a <- writeOperand op1 ContextNormal ;; ret ("-(" +:+ a +:+ ")")
      else if isNot I
      then arg <- lift (getNotArgument I) ;;
           a <- writeOperand arg ContextNormal ;; ret ("~(" +:+ a +:+ ")")
      else if bool_decide (iop I = FRem)
      then a <- writeOperand op0 ContextCasted ;;
           b <- writeOperand op1 ContextCasted ;;
           ret ((match ity I with
                 | FloatTy => "fmodf("
                 | DoubleTy => "fmod("
                 | _ => "fmodl("
                 end) +:+ a +:+ ", " +:+ b +:+ ")")
      else
        c <- writeInstructionCast I ;;
        let '(pre, NeedsClosingParens) := c in
        a <- writeOperandWithCast op0 (iop I) ;;
        o <- lift (binaryOperatorText (iop I)) ;;
        b <- writeOperandWithCast op1 (iop I) ;;
        ret (pre +:+ a +:+ o +:+ b
             +:+ (if NeedsClosingParens : bool then "))" else ""))
  | _ => fail
  end.

(** The [switch] of [CWriter::visitICmpInst]. *)
Definition icmpOperatorText (P : Predicate) : option string :=
  match P with
  | ICMP_EQ => Some " == "
  | ICMP_NE => Some " != "
  | ICMP_ULE | ICMP_SLE => Some " <= "
  | ICMP_UGE | ICMP_SGE => Some " >= "
  | ICMP_ULT | ICMP_SLT => Some " < "
  | ICMP_UGT | ICMP_SGT => Some " > "
  | _ => None
  end.

(** [CWriter::visitICmpInst] (CBackend.cpp:2869). *)
Definition visitICmpInst (I : Instruction) : Emit string :=
  match operands I with
  | op0 :: op1 :: _ =>
      c <- writeInstructionCast I ;;
      let '(pre, NeedsClosingParens) := c in
      a <- writeOperandWithCast_icmp op0 I ;;
      o <- lift (icmpOperatorText (ipred I)) ;;
      b <- writeOperandWithCast_icmp op1 I ;;
      ret (pre +:+ a +:+ o +:+ b
           +:+ (if NeedsClosingParens : bool then "))" else ""))
  | _ => fail
  end.

(** [getCmpPredicateName] (static, CBackend.cpp:250). *)
Definition getCmpPredicateName (P : Predicate) : string :=
  match P with
  | FCMP_FALSE => "0" | FCMP_OEQ => "oeq" | FCMP_OGT => "ogt"
  | FCMP_OGE => "oge" | FCMP_OLT => "olt" | FCMP_OLE => "ole"
  | FCMP_ONE => "one" | FCMP_ORD => "ord" | FCMP_UNO => "uno"
  | FCMP_UEQ => "ueq" | FCMP_UGT => "ugt" | FCMP_UGE => "uge"
  | FCMP_ULT => "ult" | FCMP_ULE => "ule" | FCMP_UNE => "une"
  | FCMP_TRUE => "1"
  | ICMP_EQ => "eq" | ICMP_NE => "ne" | ICMP_ULE => "ule"
  | ICMP_SLE => "sle" | ICMP_UGE => "uge" | ICMP_SGE => "sge"
  | ICMP_ULT => "ult" | ICMP_SLT => "slt" | ICMP_UGT => "ugt"
  | ICMP_SGT => "sgt"
  end.

(** [CWriter::visitFCmpInst] (CBackend.cpp:2916). *)
Definition visitFCmpInst (I : Instruction) : Emit string :=
  match operands I with
  | op0 :: op1 :: _ =>
      a <- writeOperand op0 ContextCasted ;;
      b <- writeOperand op1 ContextCasted ;;
      ret ("llvm_fcmp_" +:+ getCmpPredicateName (ipred I) +:+ "("
           +:+ a +:+ ", " +:+ b +:+ ")")
  | _ => fail
  end.

(** [CWriter::printPHICopiesForSuccessor] (CBackend.cpp:2629). *)
Definition printPHICopy (CurBlock : nat) (Indent : nat) (PN : Instruction)
  : Emit string :=
  IV <- lift (getIncomingValueForBlock PN CurBlock) ;;
  if negb (isaUndefValue IV) && negb (isEmptyType (vty IV))
  then n <- GetValueName (ival PN) ;;
       v <- writeOperand IV ContextCasted ;;
       ret (spaces Indent +:+ "  " +:+ n +:+ "__PHI_TEMPORARY = " +:+ v
            +:+ ";   /* for PHI node */" +:+ nl)
  else ret "".

Fixpoint takeWhile {A} (p : A -> bool) (l : list A) : list A :=
  match l with
  | x :: l' => if p x then x :: takeWhile p l' else []
  | [] => []
  end.

(** [for (I = Successor->begin(); isa<PHINode>(I); ++I)]. *)
Definition leadingPHIs (B : BasicBlock) : list Instruction :=
  takeWhile isaPHINode (binsts B).

Definition printPHICopiesForSuccessor (CurBlock : nat) (Successor : Value)
  (Indent : nat) : Emit string :=
  B <- lift (getBlock F (vid Successor)) ;;
  emit_all (printPHICopy CurBlock Indent) (leadingPHIs B).

(** [CWriter::printBranchToBlock] (CBackend.cpp:2646). *)
Definition printBranchToBlock (CurBB : nat) (Succ : Value) (Indent : nat)
  : Emit string :=
  if isGotoCodeNecessary CurBB (vid Succ)
  then s <- writeOperand Succ ContextNormal ;;
       ret (spaces Indent +:+ "  goto " +:+ s +:+ ";" +:+ nl)
  else ret "".

(** [CWriter::visitBranchInst] (CBackend.cpp:2659). *)
Definition visitBranchInst (I : Instruction) : Emit string :=
  match operands I, successors I with
  | Cond :: _, S0 :: S1 :: _ =>
      body <-
        (if isGotoCodeNecessary (iparent I) (vid S0)
         then c <- writeOperand Cond ContextCasted ;;
              p0 <- printPHICopiesForSuccessor (iparent I) S0 2 ;;
              b0 <- printBranchToBlock (iparent I) S0 2 ;;
              e <- (if isGotoCodeNecessary (iparent I) (vid S1)
                    then p1 <- printPHICopiesForSuccessor (iparent I) S1 2 ;;
                         b1 <- printBranchToBlock (iparent I) S1 2 ;;
                         ret ("  } else {" +:+ nl +:+ p1 +:+ b1)
                    else ret "") ;;
              ret ("  if (" +:+ c +:+ ") {" +:+ nl +:+ p0 +:+ b0 +:+ e)
         else c <- writeOperand Cond ContextCasted ;;
              p1 <- printPHICopiesForSuccessor (iparent I) S1 2 ;;
              b1 <- printBranchToBlock (iparent I) S1 2 ;;
              ret ("  if (!" +:+ c +:+ ") {" +:+ nl +:+ p1 +:+ b1)) ;;
      ret (body +:+ "  }" +:+ nl +:+ nl)
  | [], S0 :: _ =>
      p0 <- printPHICopiesForSuccessor (iparent I) S0 0 ;;
      b0 <- printBranchToBlock (iparent I) S0 0 ;;
      ret (p0 +:+ b0 +:+ nl)
  | _, _ => fail
  end.

(** [CWriter::visitIndirectBrInst] (CBackend.cpp:2602). *)
Definition visitIndirectBrInst (I : Instruction) : Emit string :=
  match operands I with
  | op0 :: _ =>
      s <- writeOperand op0 ContextNormal ;;
      ret ("  goto *(void*)(" +:+ s +:+ ");" +:+ nl)
  | [] => fail
  end.

(** [CWriter::visitUnreachableInst] (CBackend.cpp:2609). *)
Definition visitUnreachableInst (I : Instruction) : Emit string :=
  ret ("  __builtin_unreachable();" +:+ nl +:+ nl).

(** [CWriter::visitReturnInst] (CBackend.cpp:2515). *)
Definition visitReturnInst (I : Instruction) : Emit string :=
  if hasStructRetAttr F then ret ("  return StructReturn;" +:+ nl)
  else
    let isLastBlock :=
      bool_decide (bid <$> last (fblocks F) = Some (iparent I)) in
    let isFirstInst :=
      match getBlock F (iparent I) with
      | Some B => bool_decide (iid <$> head (binsts B) = Some (iid I))
      | None => false
      end in
    if Nat.eqb (length (operands I)) 0 && isLastBlock && negb isFirstInst
    then ret ""
    else
      v <- match operands I with
           | op0 :: _ => s <- writeOperand op0 ContextCasted ;;
                         ret (" " +:+ s)
           | [] => ret ""
           end ;;
      ret ("  return" +:+ v +:+ ";" +:+ nl).

(** [CWriter::visitSwitchInst] (CBackend.cpp:2543).  [operands] holds the
    condition, then the case values; [successors] the default destination,
    then the case successors. *)
Definition visitSwitchInst (I : Instruction) : Emit string :=
  match operands I, successors I with
  | Cond :: CaseVals, DefaultDest :: CaseSuccs =>
      match vty Cond with
      | IntegerTy NumBits =>
          let cases := zip CaseVals CaseSuccs in
          body <-
            (if Nat.eqb (length cases) 0
             then p <- printPHICopiesForSuccessor (iparent I) DefaultDest 2 ;;
                  b <- printBranchToBlock (iparent I) DefaultDest 2 ;;
                  ret (p +:+ b +:+ nl)
             else if (NumBits <=? 64)%N
             then c <- writeOperand Cond ContextNormal ;;
                  p <- printPHICopiesForSuccessor (iparent I) DefaultDest 2 ;;
                  b <- printBranchToBlock (iparent I) DefaultDest 2 ;;
                  cs <- emit_all
                          (fun '(CaseVal, Succ) =>
                             v <- writeOperand CaseVal ContextNormal ;;
                             pc <- printPHICopiesForSuccessor (iparent I) Succ 2 ;;
                             bc <- (if isGotoCodeNecessary (iparent I) (vid Succ)
                                    then printBranchToBlock (iparent I) Succ 2
                                    else ret ("    break;" +:+ nl)) ;;
                             ret ("  case " +:+ v +:+ ":" +:+ nl +:+ pc +:+ bc))
                          cases ;;
                  ret ("  switch (" +:+ c +:+ ") {" +:+ nl +:+ "  default:"
                       +:+ nl +:+ p +:+ b +:+ cs +:+ "  }" +:+ nl)
             else
               cs <- emit_all
                       (fun '(CaseVal, Succ) =>
                          let icmp :=
                            {| ival := mkValue 0 KInstruction "" (IntegerTy 1);
                               iop := ICmp; ipred := ICMP_EQ;
                               operands := [Cond; CaseVal];
                               incoming_blocks := []; successors := [];
                               iparent := 0; isArrayAllocation := false;
                               allocatedType := VoidTy;
                               isVolatile := false |} in
                          t <- visitICmpInst icmp ;;
                          pc <- printPHICopiesForSuccessor (iparent I) Succ 2 ;;
                          bc <- printBranchToBlock (iparent I) Succ 2 ;;
                          ret ("if (" +:+ t +:+ ") {" +:+ nl +:+ pc +:+ bc
                               +:+ "  } else "))
                       cases ;;
               p <- printPHICopiesForSuccessor (iparent I) DefaultDest 2 ;;
               b <- printBranchToBlock (iparent I) DefaultDest 2 ;;
               ret ("  " +:+ cs +:+ "{" +:+ nl +:+ p +:+ b +:+ "  }" +:+ nl)) ;;
          ret (body +:+ nl)
      | _ => fail
      end
  | _, _ => fail
  end.

(** Modelled from the spec: [CWriter::outputLValue] is defined in
    CBackend.h, which is missing; it writes the assignment to the
    variable of an instruction's result, by which a PHI's block "copies
    the shadow into the real value". *)
Definition outputLValue (I : Instruction) : Emit string :=
  n <- GetValueName (ival I) ;; ret ("  " +:+ n +:+ " = ").

(** The body of the loop of [CWriter::printBasicBlock] over the
    instructions before the terminator (CBackend.cpp:2495). *)
Definition printInstruction (II : Instruction) : Emit string :=
  if negb (isInlinableInst II)
     && negb (bool_decide (is_Some (isDirectAlloca (ival II))))
  then
    l <- (if negb (isEmptyType (ity II)) then outputLValue II
          else ret "  ") ;;
    s <- writeInstComputationInline II ;;
    ret (l +:+ s +:+ ";" +:+ nl)
  else ret "".

(** [CWriter::printBasicBlock] (CBackend.cpp:2475). *)
Definition printBasicBlock (BB : BasicBlock) : Emit string :=
  let NeedsLabel :=
    existsb (fun P => isGotoCodeNecessary (bid P) (bid BB))
            (predecessors F (bid BB)) in
  label <- (if NeedsLabel
            then n <- GetValueName (bval BB) ;; ret (n +:+ ":" +:+ nl)
            else ret "") ;;
  body <- emit_all printInstruction (nonTerminators BB) ;;
  T <- lift (getTerminator BB) ;;
  t <- visit T ;;
  ret (label +:+ body +:+ t).

(** [isFPIntBitCast] (static, CBackend.cpp:2369). *)
Definition isFPIntBitCast (I : Instruction) : bool :=
  isaBitCastInst I
  && match operands I with
     | op0 :: _ =>
         isFloatingPointTy (vty op0) && isIntegerTy (ity I)
         || isFloatingPointTy (ity I) && isIntegerTy (vty op0)
     | [] => false
     end.

(** The body of the loop of [CWriter::printFunction] that prints the local
    variables (CBackend.cpp:2406). *)
Definition printLocal (I : Instruction) : Emit string :=
  d <- match isDirectAlloca (ival I) with
       | Some AI =>
           T <- printTypeName (allocatedType AI) false ;;
           n <- GetValueName (ival AI) ;;
           ret ("  " +:+ T +:+ " " +:+ n
                +:+ ";    /* Address-exposed local */" +:+ nl)
       | None =>
           if negb (isEmptyType (ity I)) && negb (isInlinableInst I)
           then
             T <- printTypeName (ity I) false ;;
             n <- GetValueName (ival I) ;;
             p <- (if isaPHINode I
                   then T' <- printTypeName (ity I) false ;;
                        n' <- GetValueName (ival I) ;;
                        ret ("  " +:+ T' +:+ " " +:+ n' +:+ "__PHI_TEMPORARY"
                             +:+ ";" +:+ nl)
                   else ret "") ;;
             ret ("  " +:+ T +:+ " " +:+ n +:+ ";" +:+ nl +:+ p)
           else ret ""
       end ;;
  b <- (if isFPIntBitCast I
        then n <- GetValueName (ival I) ;;
             ret ("  llvmBitCastUnion " +:+ n +:+ "__BITCAST_TEMPORARY;" +:+ nl)
        else ret "") ;;
  ret (d +:+ b).

End Emitter.

(** *** The visitor and whole functions *)

(** [LoopInfo]: a loop, its blocks (those of its sub-loops included) and
    its sub-loops. *)
Inductive Loop :=
| mkLoop (header : nat) (blocks : list nat) (subLoops : list Loop).

Definition getHeader (L : Loop) : nat := let 'mkLoop h _ _ := L in h.
Definition getBlocks (L : Loop) : list nat := let 'mkLoop _ b _ := L in b.
Definition getSubLoops (L : Loop) : list Loop := let 'mkLoop _ _ s := L in s.
Definition loopContains (L : Loop) (BB : nat) : bool :=
  existsb (Nat.eqb BB) (getBlocks L).

Section Printer.

Variable F : Function.
Variable visitOther : Instruction -> Emit string.
Variable printConstantOther : Value -> OperandContext -> Emit string.
Variable IntPtrBits : N.
(** [LI]: the top-level loops of [F]. *)
Variable LI : list Loop.
(** The text of [printFunction] before the local variables: linkage,
    prototype, struct-return temporary (CBackend.cpp:2383-2401). *)
Variable printFunctionHead : Emit string.

(** [InstVisitor::visit]: the dispatch on the class of the instruction.
    [visit] is the dispatch the operands are printed with. *)
Definition visitInst (visit : Instruction -> Emit string) (I : Instruction)
  : Emit string :=
  match iop I with
  | Ret => visitReturnInst F visit printConstantOther I
  | Br => visitBranchInst F visit printConstantOther I
  | Switch => visitSwitchInst F visit printConstantOther IntPtrBits I
  | IndirectBr => visitIndirectBrInst F visit printConstantOther I
  | Unreachable => visitUnreachableInst I
  | PHI => visitPHINode F visit printConstantOther I
  | Add | FAdd | Sub | FSub | Mul | FMul | UDiv | SDiv | FDiv
  | URem | SRem | FRem | Shl | LShr | AShr | And | Or | Xor =>
      visitBinaryOperator F visit printConstantOther I
  | ICmp => visitICmpInst F visit printConstantOther IntPtrBits I
  | FCmp => visitFCmpInst F visit printConstantOther I
  | Load => visitLoadInst F visit printConstantOther I
  | Store => visitStoreInst F visit printConstantOther I
  | _ => visitOther I
  end.

(** The dispatch, unfolded [n] times: [n] bounds the depth of the
    expression trees that inlining builds. *)
Fixpoint visit_fuel (n : nat) (I : Instruction) : Emit string :=
  match n with
  | O => fail
  | S n' => visitInst (visit_fuel n') I
  end.

Definition printBasicBlockById (n : nat) (BB : nat) : Emit string :=
  B <- lift (getBlock F BB) ;; printBasicBlock F (visit_fuel n) B.

Definition headerName (L : Loop) : string :=
  match getBlock F (getHeader L) with
  | Some B => vname (bval B)
  | None => ""
  end.

(** [CWriter::printLoop] (CBackend.cpp:2460).  A block whose innermost loop
    is [L] is printed; the header of a loop nested directly in [L] prints
    that loop; the other blocks are printed by the nested loops. *)
Fixpoint printLoop (n : nat) (L : Loop) : Emit string :=
  let 'mkLoop header blocks subLoops := L in
  body <-
    emit_all
      (fun BB =>
         (fix inSub (ss : list Loop) : Emit string :=
            match ss with
            | [] => printBasicBlockById n BB
            | S' :: ss' =>
                if loopContains S' BB
                then if Nat.eqb BB (getHeader S')
                        && negb (existsb (fun S'' => loopContains S'' BB)
                                         (getSubLoops S'))
                     then printLoop n S'
                     else ret ""
                else inSub ss'
            end) subLoops)
      blocks ;;
  ret ("  do {     /* Syntactic loop '" +:+ headerName L
       +:+ "' to make GCC happy */" +:+ nl +:+ body
       +:+ "  } while (1); /* end of syntactic loop '" +:+ headerName L
       +:+ "' */" +:+ nl).

(** [CWriter::printFunction] (CBackend.cpp:2378), after its head. *)
Definition printFunction (n : nat) : Emit string :=
  head <- printFunctionHead ;;
  locals <- emit_all (printLocal F) (instructions F) ;;
  let PrintedVar :=
    existsb
      (fun I =>
         bool_decide (is_Some (isDirectAlloca F (ival I)))
         || negb (isEmptyType (ity I)) && negb (isInlinableInst F I)
         || isFPIntBitCast I)
      (instructions F) in
  blocks <-
    emit_all
      (fun BB =>
         match List.find (fun L => loopContains L (bid BB)) LI with
         | Some L =>
             if Nat.eqb (getHeader L) (bid BB)
                && negb (existsb (fun S' => loopContains S' (bid BB))
                                 (getSubLoops L))
             then printLoop n L
             else ret ""
         | None => printBasicBlock F (visit_fuel n) BB
         end)
      (fblocks F) ;;
  ret (head +:+ " {" +:+ nl +:+ locals
       +:+ (if PrintedVar then nl else "") +:+ blocks +:+ "}" +:+ nl +:+ nl).

End Printer.

(** *** The header of the emitted file *)

(** The body of the loop of [CWriter::generateHeader] over
    [InlineOpDeclTypes] (CBackend.cpp:1941): the helper of one binary or
    unary operation at one type. *)
Definition printInlineOpDecl (e : Opcode * Ty) : Emit string :=
  let '(opcode, OpTy) := e in
  let '(shouldCast, isSigned) := opcodeNeedsCast opcode in
  R <- printTypeName OpTy false ;;
  TS <- printTypeString OpTy false ;;
  A <- printTypeNameUnaligned OpTy isSigned ;;
  sig <-
    (if bool_decide (opcode = BinaryNeg)
     then ret (" llvm_neg_" +:+ TS +:+ "(" +:+ A +:+ " a) {" +:+ nl)
     else if bool_decide (opcode = BinaryNot)
     then ret (" llvm_not_" +:+ TS +:+ "(" +:+ A +:+ " a) {" +:+ nl)
     else B <- printTypeNameUnaligned OpTy isSigned ;;
          ret (" llvm_" +:+ getOpcodeName opcode +:+ "_" +:+ TS +:+ "("
               +:+ A +:+ " a, " +:+ B +:+ " b) {" +:+ nl)) ;;
  mask <- lift (oddWidthMask OpTy) ;;
  body <-
    (if bool_decide (opcode = BinaryNeg) then ret "-a"
     else if bool_decide (opcode = BinaryNot) then ret "~a"
     else if bool_decide (opcode = FRem)
     then ret (if isFloatTy OpTy then "fmodf(a, b)"
               else if isDoubleTy OpTy then "fmod(a, b)"
               else "fmodl(a, b)")
     else o <- lift (binaryOperatorText opcode) ;;
          ret ("a" +:+ o +:+ "b"
               +:+ (if (mask =? 0)%Z then ""
                    else ") & " +:+ pretty mask))) ;;
  ret ("FORCEINLINE " +:+ R +:+ sig +:+ "  return "
       +:+ (if (mask =? 0)%Z then "" else "(") +:+ body
       +:+ ";" +:+ nl +:+ "}" +:+ nl).

(** [generateCompilerSpecificCode] (static, CBackend.cpp:1508). *)
Definition generateCompilerSpecificCode : string :=
  "/* get a declaration for alloca */" +:+ nl
  +:+ "#if defined(__CYGWIN__) || defined(__MINGW32__)" +:+ nl
  +:+ "#define  alloca(x) __builtin_alloca((x))" +:+ nl
  +:+ "#define _alloca(x) __builtin_alloca((x))" +:+ nl
  +:+ "#else" +:+ nl
  +:+ "#include <alloca.h>" +:+ nl
  +:+ "#endif" +:+ nl +:+ nl
  +:+ "#define NORETURN __attribute__((noreturn))" +:+ nl
  +:+ "#define FORCEINLINE __attribute__((always_inline))" +:+ nl
  +:+ "#ifdef __GNUC__" +:+ nl
  +:+ "#define LLVM_NAN(NanStr)   __builtin_nan(NanStr)   /* Double */" +:+ nl
  +:+ "#define LLVM_NANF(NanStr)  __builtin_nanf(NanStr)  /* Float */" +:+ nl
  +:+ "#define LLVM_INF           __builtin_inf()         /* Double */" +:+ nl
  +:+ "#define LLVM_INFF          __builtin_inff()        /* Float */" +:+ nl
  +:+ "#define __ATTRIBUTE_CTOR__ __attribute__((constructor))" +:+ nl
  +:+ "#define __ATTRIBUTE_DTOR__ __attribute__((destructor))" +:+ nl
  +:+ "#else" +:+ nl
  +:+ "#define LLVM_NAN(NanStr)   ((double)NAN)           /* Double */" +:+ nl
  +:+ "#define LLVM_NANF(NanStr)  ((float)NAN))           /* Float */" +:+ nl
  +:+ "#define LLVM_INF           ((double)INFINITY)      /* Double */" +:+ nl
  +:+ "#define LLVM_INFF          ((float)INFINITY)       /* Float */" +:+ nl
  +:+ "#define __ATTRIBUTE_CTOR__ " +:+ dquote
  +:+ "__attribute__((constructor)) not supported on this compiler"
  +:+ dquote +:+ nl
  +:+ "#define __ATTRIBUTE_DTOR__ " +:+ dquote
  +:+ "__attribute__((destructor)) not supported on this compiler"
  +:+ dquote +:+ nl
  +:+ "#endif" +:+ nl +:+ nl.

(** What [CWriter::generateHeader] writes before it collects the types of
    the module (CBackend.cpp:1737-1752). *)
Definition generateHeader_prologue : string :=
  "/* Provide Declarations */" +:+ nl
  +:+ "#include <stdarg.h>" +:+ nl
  +:+ "#include <limits.h>" +:+ nl
  +:+ "#include <stdint.h>" +:+ nl
  +:+ "#include <math.h>" +:+ nl
  +:+ "#ifndef __cplusplus" +:+ nl +:+ "typedef unsigned char bool;" +:+ nl
  +:+ "#endif" +:+ nl
  +:+ nl
  +:+ generateCompilerSpecificCode
  +:+ nl +:+ nl +:+ "/* Support for floating point constants */" +:+ nl
  +:+ "typedef uint64_t ConstantDoubleTy;" +:+ nl
  +:+ "typedef uint32_t ConstantFloatTy;" +:+ nl
  +:+ nl +:+ nl +:+ "/* Global Declarations */" +:+ nl.

(** What [CWriter::printModuleTypes] writes first (CBackend.cpp:2237-2243);
    [generateHeader] calls it next, having written nothing in between. *)
Definition printModuleTypes_prologue : string :=
  "/* Helper union for bitcasts */" +:+ nl
  +:+ "typedef union {" +:+ nl
  +:+ "  uint32_t Int32;" +:+ nl
  +:+ "  uint64_t Int64;" +:+ nl
  +:+ "  float Float;" +:+ nl
  +:+ "  double Double;" +:+ nl
  +:+ "} llvmBitCastUnion;" +:+ nl.

(** The text every emitted file begins with. *)
Definition header_prologue : string :=
  generateHeader_prologue +:+ printModuleTypes_prologue.

(** Reading the preprocessor lines of a text back. *)
Fixpoint lines_aux (cur : string) (s : string) : list string :=
  match s with
  | EmptyString => [cur]
  | String c s' =>
      if Ascii.eqb c "010"%char then cur :: lines_aux "" s'
      else lines_aux (cur +:+ String c "") s'
  end.
Definition lines (s : string) : list string := lines_aux "" s.

Fixpoint strip_prefix (p s : string) : option string :=
  match p, s with
  | EmptyString, _ => Some s
  | String a p', String b s' =>
      if Ascii.eqb a b then strip_prefix p' s' else None
  | _, _ => None
  end.

Fixpoint take_until (stop : ascii -> bool) (s : string) : string :=
  match s with
  | EmptyString => ""
  | String c s' => if stop c then "" else String c (take_until stop s')
  end.

Fixpoint drop_spaces (s : string) : string :=
  match s with
  | String c s' => if Ascii.eqb c " "%char then drop_spaces s' else s
  | EmptyString => ""
  end.

(** The header named by a line [#include <h>]. *)
Definition include_of_line (l : string) : option string :=
  take_until (fun c => Ascii.eqb c ">"%char) <$> strip_prefix "#include <" l.

(** The macro defined by a line [#define M...]. *)
Definition define_of_line (l : string) : option string :=
  (fun r => take_until (fun c => negb (isalnum c || is_underscore c))
                       (drop_spaces r))
    <$> strip_prefix "#define " l.

Definition included_headers (text : string) : list string :=
  omap include_of_line (lines text).
Definition defined_macros (text : string) : list string :=
  omap define_of_line (lines text).

Fixpoint is_substring_at (p s : string) : bool :=
  match strip_prefix p s with
  | Some _ => true
  | None => match s with
            | String _ s' => is_substring_at p s'
            | EmptyString => false
            end
  end.

(** The headers of the C standard library (ISO C99, 7.1.2). *)
Definition standard_headers : list string :=
  ["assert.h"; "complex.h"; "ctype.h"; "errno.h"; "fenv.h"; "float.h";
   "inttypes.h"; "iso646.h"; "limits.h"; "locale.h"; "math.h"; "setjmp.h";
   "signal.h"; "stdarg.h"; "stdbool.h"; "stddef.h"; "stdint.h"; "stdio.h";
   "stdlib.h"; "string.h"; "tgmath.h"; "time.h"; "wchar.h"; "wctype.h"].
Definition is_standard_header (h : string) : bool :=
  existsb (String.eqb h) standard_headers.

(** The C integer type of [bits] bits, as [printSimpleType] spells it. *)
Definition c_int_type (bits : N) (isSigned : bool) : string :=
  (if isSigned then "int" else "uint") +:+ pretty bits +:+ "_t".

End CWriter.

(** ** Part III: the expression lowerer *)
Module Frontend.

(** *** The analysed program tree *)

(** Modelled from the spec: the source types (parser/type.h is missing);
    section 3 of the specification lists them. *)
Inductive SrcType :=
| TVoid | TBoolean | TBit | TInt | TAPInt (width : N) | TFloat
| TArray (element : SrcType) (length : N).

Definition IsInt (t : SrcType) : bool :=
  match t with TInt => true | _ => false end.
Definition IsAPInt (t : SrcType) : bool :=
  match t with TAPInt _ => true | _ => false end.
Definition IsFloat (t : SrcType) : bool :=
  match t with TFloat => true | _ => false end.
Definition IsBoolean (t : SrcType) : bool :=
  match t with TBoolean => true | _ => false end.

(** Modelled from the spec: [WrappedLLVMContext::GetLLVMType]
    (frontend/wrapped_llvm_context.h is missing), by the bit widths of
    section 4.1. *)
Fixpoint GetLLVMType (t : SrcType) : Ty :=
  match t with
  | TVoid => VoidTy
  | TBoolean | TBit => IntegerTy 1
  | TInt => IntegerTy 32
  | TAPInt n => IntegerTy n
  | TFloat => FloatTy
  | TArray e n => ArrayTy n (GetLLVMType e)
  end.

(** [AST::Declaration]: its identity, name, type and [constant] flag. *)
Record Declaration := {
  decl_id : nat;
  decl_name : string;
  decl_type : SrcType;
  decl_constant : bool
}.

(** [AST::FunctionReference]. *)
Record FunctionReference := {
  GetExecutableSymbolName : string;
  GetReturnType : SrcType;
  GetParameterTypes : list SrcType
}.

(** [AST::LogicalExpression::Operator]. *)
Module Logical.
Inductive Operator := And | Or.
End Logical.

(** [AST::Expression], with its resolved type.  The expressions whose
    lowering creates only instructions the IR builder never folds are
    modelled; arithmetic, relational, unary, index and cast expressions,
    whose lowering goes through the builder's constant folder, are not. *)
Inductive Expression :=
| IntegerLiteralExpression (m_type : SrcType) (m_value : Z)
| BooleanLiteralExpression (m_type : SrcType) (m_value : bool)
| IdentifierExpression (m_type : SrcType) (m_declaration : Declaration)
| CommaExpression (m_type : SrcType) (m_lhs m_rhs : Expression)
| AssignmentExpression (m_type : SrcType) (m_lhs m_rhs : Expression)
| LogicalExpression (m_type : SrcType) (m_lhs : Expression)
    (m_op : Logical.Operator) (m_rhs : Expression)
| PeekExpression (m_type : SrcType) (m_expr : Expression)
| PopExpression (m_type : SrcType)
| CallExpression (m_type : SrcType) (m_function_ref : FunctionReference)
    (m_args : NodeList)
with NodeList :=
| NoArgs
| ArgCons (node : Expression) (rest : NodeList).

Definition GetType (e : Expression) : SrcType :=
  match e with
  | IntegerLiteralExpression t _ | BooleanLiteralExpression t _
  | IdentifierExpression t _ | CommaExpression t _ _
  | AssignmentExpression t _ _ | LogicalExpression t _ _ _
  | PeekExpression t _ | PopExpression t | CallExpression t _ _ => t
  end.

(** [Expression::IsConstant]: false, unless overridden; of the modelled
    expressions the two literals override it. *)
Definition IsConstant (e : Expression) : bool :=
  match e with
  | IntegerLiteralExpression _ _ | BooleanLiteralExpression _ _ => true
  | _ => false
  end.

(** [Expression::GetConstantInt], for the integer literal. *)
Definition GetConstantInt (e : Expression) : option Z :=
  match e with
  | IntegerLiteralExpression _ v => Some v
  | _ => None
  end.

(** *** The function builder *)

(** [FunctionBuilder] and the function it builds: the blocks in the order
    of their creation (a block is referred to by its position, which is
    also the [vid] of its value), the current block, whose end is the
    insertion point of the current IR builder, the identity the next
    instruction gets, and the variable table. *)
Record FunctionBuilder := {
  m_blocks : list BasicBlock;
  m_current_basic_block : nat;
  m_next_value : nat;
  m_vars : gmap nat Value
}.

Definition Build (A : Type) : Type := SO FunctionBuilder A.

Definition blockValue (b : nat) (name : string) : Value :=
  mkValue b KBasicBlock name LabelTy.

(** Modelled from the spec: [FunctionBuilder::NewBasicBlock]
    (frontend/function_builder.cpp is missing).  Its declaration says
    "Returns the old basic block pointer"; the new block is appended to the
    function and becomes the current block and the insertion point. *)
Definition NewBasicBlock (name : string) : Build nat := fun fb =>
  let b := length (m_blocks fb) in
  Some (m_current_basic_block fb,
        {| m_blocks := m_blocks fb ++ [{| bval := blockValue b name;
                                          binsts := [] |}];
           m_current_basic_block := b;
           m_next_value := m_next_value fb;
           m_vars := m_vars fb |}).

Definition GetCurrentBasicBlock : Build nat := fun fb =>
  Some (m_current_basic_block fb, fb).

(** Modelled from the spec: [FunctionBuilder::GetVariable]
    (frontend/function_builder.cpp is missing): the entry of the variable
    table, a null pointer when there is none. *)
Definition GetVariable (var : Declaration) : Build (option Value) := fun fb =>
  Some (m_vars fb !! decl_id var, fb).

(** Append an instruction to a block. *)
Definition appendTo (bb : nat) (I : Instruction) (blocks : list BasicBlock)
  : list BasicBlock :=
  alter (fun B => {| bval := bval B; binsts := binsts B ++ [I] |}) bb blocks.

(** [llvm::IRBuilder<>(bb).Insert]: a new instruction at the end of block
    [bb].  The builder fails on a block that does not exist. *)
Definition newInstruction (id : nat) (bb : nat) (op : Opcode) (T : Ty)
  (name : string) (ops : list Value) (succs : list Value) : Instruction :=
  {| ival := mkValue id KInstruction name T; iop := op; ipred := ICMP_EQ;
     operands := ops; incoming_blocks := []; successors := succs;
     iparent := bb; isArrayAllocation := false; allocatedType := VoidTy;
     isVolatile := false |}.

Definition Insert (bb : nat) (op : Opcode) (T : Ty) (name : string)
  (ops : list Value) (succs : list Value) : Build Value := fun fb =>
  if bool_decide (bb < length (m_blocks fb))
  then
    let Inst := newInstruction (m_next_value fb) bb op T name ops succs in
    Some (ival Inst,
          {| m_blocks := appendTo bb Inst (m_blocks fb);
             m_current_basic_block := m_current_basic_block fb;
             m_next_value := S (m_next_value fb);
             m_vars := m_vars fb |})
  else None.

(** The current IR builder inserts at the end of the current block. *)
Definition InsertCurrent (op : Opcode) (T : Ty) (name : string)
  (ops : list Value) : Build Value := fun fb =>
  Insert (m_current_basic_block fb) op T name ops [] fb.

Definition getInt1 (b : bool) : Value :=
  mkValue 0 (KConstantInt (if b then 1 else 0)) "" (IntegerTy 1).

Definition blockOf (fb : FunctionBuilder) (b : nat) : Value :=
  match m_blocks fb !! b with
  | Some B => bval B
  | None => blockValue b ""
  end.

(** [CreateLoad(ptr)]: the type loaded is the pointee type. *)
Definition CreateLoad (ptr : Value) : Build Value :=
  match vty ptr with
  | PointerTy T => InsertCurrent Load T "" [ptr]
  | _ => fail
  end.

Definition CreateStore (val ptr : Value) : Build Value :=
  InsertCurrent Store VoidTy "" [val; ptr].

(** [CreateCall(func, args)]: the callee is the last operand. *)
Definition CreateCall (func : Value) (RetTy : Ty) (args : list Value)
  : Build Value :=
  InsertCurrent Call RetTy "" (args ++ [func]).

Definition CreatePHI (T : Ty) (name : string) : Build Value :=
  InsertCurrent PHI T name [].

(** [IRBuilder<>(bb).CreateCondBr(Cond, True, False)] and
    [IRBuilder<>(bb).CreateBr(Dest)]. *)
Definition CreateCondBr (bb : nat) (Cond : Value) (IfTrue IfFalse : nat)
  : Build Value := fun fb =>
  Insert bb Br VoidTy "" [Cond] [blockOf fb IfTrue; blockOf fb IfFalse] fb.
Definition CreateBr (bb : nat) (Dest : nat) : Build Value := fun fb =>
  Insert bb Br VoidTy "" [] [blockOf fb Dest] fb.

(** [phi->addIncoming(V, BB)]: the PHI is updated in place. *)
Definition addIncomingTo (phi : Value) (V : Value) (BB : nat)
  (Inst : Instruction) : Instruction :=
  if Nat.eqb (iid Inst) (vid phi) && isaPHINode Inst
  then {| ival := ival Inst; iop := iop Inst; ipred := ipred Inst;
          operands := operands Inst ++ [V];
          incoming_blocks := incoming_blocks Inst ++ [BB];
          successors := successors Inst; iparent := iparent Inst;
          isArrayAllocation := isArrayAllocation Inst;
          allocatedType := allocatedType Inst;
          isVolatile := isVolatile Inst |}
  else Inst.

Definition addIncomingIn (phi : Value) (V : Value) (BB : nat)
  (B : BasicBlock) : BasicBlock :=
  {| bval := bval B; binsts := map (addIncomingTo phi V BB) (binsts B) |}.

Definition addIncoming (phi : Value) (V : Value) (BB : nat) : Build unit :=
  fun fb =>
    Some (tt, {| m_blocks := map (addIncomingIn phi V BB) (m_blocks fb);
                 m_current_basic_block := m_current_basic_block fb;
                 m_next_value := m_next_value fb;
                 m_vars := m_vars fb |}).

(** [Module::getOrInsertFunction(name, type)]. *)
Definition getOrInsertFunction (name : string) (RetTy : Ty)
  (params : list Ty) : Value :=
  mkValue 0 KFunction name (PointerTy (FunctionTy RetTy params)).

(** Modelled from the spec: the implementations of
    [FunctionBuilder::TargetFragmentBuilder] (hlstarget/filter_builder.cpp)
    are missing.  By section 4.3, [build_pop()] and
    [build_peek(index_value)] give a value of the filter's input type; a
    target is taken to insert one call at the insertion point of the
    builder it receives. *)
Record TargetFragmentBuilder := {
  target_input_type : Ty;
  target_pop : string;
  target_peek : string
}.

Definition BuildPop (T : TargetFragmentBuilder) : Build Value :=
  CreateCall (getOrInsertFunction (target_pop T) (target_input_type T) [])
             (target_input_type T) [].
Definition BuildPeek (T : TargetFragmentBuilder) (idx_value : Value)
  : Build Value :=
  CreateCall (getOrInsertFunction (target_peek T) (target_input_type T)
                                  [vty idx_value])
             (target_input_type T) [idx_value].

(** *** The expression builder *)

(** [ExpressionBuilder]: its two result members. *)
Record ExpressionBuilder := {
  m_result_ptr : option Value;
  m_result_value : option Value
}.

Definition new_builder : ExpressionBuilder :=
  {| m_result_ptr := None; m_result_value := None |}.

(** [ExpressionBuilder::IsValid] and [IsPointer]
    (expression_builder.cpp:31, 36). *)
Definition IsValid (eb : ExpressionBuilder) : bool :=
  bool_decide (is_Some (m_result_ptr eb))
  || bool_decide (is_Some (m_result_value eb)).
Definition IsPointer (eb : ExpressionBuilder) : bool :=
  bool_decide (is_Some (m_result_ptr eb)).

(** [ExpressionBuilder::GetResultValue] (expression_builder.cpp:46): the
    value, loaded at the current insertion point the first time it is asked
    of a pointer result.  The builder, with the value remembered, is
    returned with it. *)
Definition GetResultValue (eb : ExpressionBuilder)
  : Build (ExpressionBuilder * option Value) :=
  match m_result_value eb, m_result_ptr eb with
  | None, Some ptr =>
      v <- CreateLoad ptr ;;
      ret ({| m_result_ptr := m_result_ptr eb; m_result_value := Some v |},
           Some v)
  | rv, _ => ret (eb, rv)
  end.

(** The end of every [Visit]: [return IsValid();], a [false] being a
    failure of the lowering. *)
Definition finish (eb : ExpressionBuilder) : Build ExpressionBuilder :=
  if IsValid eb then ret eb else fail.

Section Visit.

Variable Target : TargetFragmentBuilder.

(** [ExpressionBuilder::Visit], one case per class of node
    (expression_builder.cpp:63-498).  The result is the builder that
    visited the node. *)
Fixpoint Visit (node : Expression) : Build ExpressionBuilder :=
  match node with
  | IntegerLiteralExpression t value =>
      finish {| m_result_ptr := None;
                m_result_value :=
                  Some (mkValue 0 (KConstantInt value) "" (GetLLVMType t)) |}
  | BooleanLiteralExpression t value =>
      finish {| m_result_ptr := None;
                m_result_value :=
                  Some (mkValue 0 (KConstantInt (if value then 1 else 0)) ""
                                (GetLLVMType t)) |}
  | IdentifierExpression t decl =>
      v <- GetVariable decl ;;
      if decl_constant decl
      then finish {| m_result_ptr := None; m_result_value := v |}
      else finish {| m_result_ptr := v; m_result_value := None |}
  | CommaExpression t lhs rhs =>
      eb_lhs <- Visit lhs ;;
      eb_rhs <- Visit lhs ;;
      if IsPointer eb_rhs
      then finish {| m_result_ptr := m_result_ptr eb_rhs;
                     m_result_value := None |}
      else r <- GetResultValue eb_rhs ;;
           finish {| m_result_ptr := None; m_result_value := snd r |}
  | AssignmentExpression t lvalue inner =>
      eb <- Visit inner ;;
      lb <- Visit lvalue ;;
      if negb (IsPointer lb) then fail
      else
        r <- GetResultValue eb ;;
        val <- lift (snd r) ;;
        ptr <- lift (m_result_ptr lb) ;;
        _ <- CreateStore val ptr ;;
        finish {| m_result_ptr := m_result_ptr lb; m_result_value := None |}
  | LogicalExpression t lhs op rhs =>
      eb_lhs <- Visit lhs ;;
      if negb (IsBoolean (GetType lhs) && IsBoolean (GetType rhs)) then fail
      else
        lhs_end_bb <- NewBasicBlock "" ;;
        eb_rhs <- Visit rhs ;;
        rhs_end_bb <- NewBasicBlock "" ;;
        merge_bb <- GetCurrentBasicBlock ;;
        l <- GetResultValue eb_lhs ;;
        cond <- lift (snd l) ;;
        _ <- (match op with
              | Logical.And =>
                  CreateCondBr lhs_end_bb cond rhs_end_bb merge_bb
              | Logical.Or =>
                  CreateCondBr lhs_end_bb cond merge_bb rhs_end_bb
              end) ;;
        _ <- CreateBr rhs_end_bb merge_bb ;;
        phi <- CreatePHI (GetLLVMType t) "" ;;
        _ <- addIncoming phi
               (getInt1 (match op with
                         | Logical.And => false
                         | Logical.Or => true
                         end))
               lhs_end_bb ;;
        r <- GetResultValue eb_rhs ;;
        rv <- lift (snd r) ;;
        _ <- addIncoming phi rv rhs_end_bb ;;
        finish {| m_result_ptr := None; m_result_value := Some phi |}
  | PeekExpression t index =>
      index_eb <- Visit index ;;
      if negb (IsInt (GetType index)) then fail
      else
        r <- GetResultValue index_eb ;;
        idx <- lift (snd r) ;;
        v <- BuildPeek Target idx ;;
        finish {| m_result_ptr := None; m_result_value := Some v |}
  | PopExpression t =>
      v <- BuildPop Target ;;
      finish {| m_result_ptr := None; m_result_value := Some v |}
  | CallExpression t fref args =>
      let return_type := GetLLVMType (GetReturnType fref) in
      let param_types := map GetLLVMType (GetParameterTypes fref) in
      let func := getOrInsertFunction (GetExecutableSymbolName fref)
                                      return_type param_types in
      func_params <- VisitArgs args ;;
      v <- CreateCall func return_type func_params ;;
      finish {| m_result_ptr := None; m_result_value := Some v |}
  end
with VisitArgs (args : NodeList) : Build (list Value) :=
  match args with
  | NoArgs => ret []
  | ArgCons node rest =>
      param_eb <- Visit node ;;
      r <- GetResultValue param_eb ;;
      v <- lift (snd r) ;;
      vs <- VisitArgs rest ;;
      ret (v :: vs)
  end.

End Visit.

(** *** Execution of the IR that the lowerer builds *)

(** A call that was made: the callee and its arguments. *)
Definition Event : Type := string * list Z.

(** The state of an execution: the values of the instructions executed so
    far, the contents of the variable slots (a slot is named by the pointer
    to it), the calls made, the blocks entered, the block control came
    from, and the position. *)
Record Machine := {
  env : gmap (nat * nat) Z;
  mem : gmap (nat * nat) Z;
  trace : list Event;
  visited : list nat;
  prev_bb : nat;
  cur_bb : nat;
  pc : nat
}.

Section Exec.

(** What a called function returns, given its name, its arguments and
    the calls made before. *)
Variable extern : string -> list Z -> list Event -> Z.

Definition eval (m : Machine) (v : Value) : option Z :=
  match vkind v with
  | KConstantInt z => Some z
  | KInstruction | KArgument => env m !! vaddr v
  | _ => None
  end.

Definition next (m : Machine) (e : gmap (nat * nat) Z)
  (h : gmap (nat * nat) Z) (t : list Event) : Machine :=
  {| env := e; mem := h; trace := t; visited := visited m;
     prev_bb := prev_bb m; cur_bb := cur_bb m; pc := S (pc m) |}.

Definition jump (m : Machine) (dest : Value) : Machine :=
  {| env := env m; mem := mem m; trace := trace m;
     visited := visited m ++ [vid dest];
     prev_bb := cur_bb m; cur_bb := vid dest; pc := 0 |}.

(** One instruction.  The instructions of the modelled lowering are
    given a meaning; any other is stuck. *)
Definition step (blocks : list BasicBlock) (m : Machine) : option Machine :=
  B ← blocks !! cur_bb m;
  Inst ← binsts B !! pc m;
  match iop Inst with
  | PHI =>
      v ← getIncomingValueForBlock Inst (prev_bb m);
      z ← eval m v;
      Some (next m (<[vaddr (ival Inst) := z]> (env m)) (mem m) (trace m))
  | Load =>
      ptr ← operands Inst !! 0%nat;
      Some (next m (<[vaddr (ival Inst) := default 0%Z (mem m !! vaddr ptr)]>
                      (env m))
                 (mem m) (trace m))
  | Store =>
      val ← operands Inst !! 0%nat;
      ptr ← operands Inst !! 1%nat;
      z ← eval m val;
      Some (next m (env m) (<[vaddr ptr := z]> (mem m)) (trace m))
  | Call =>
      callee ← last (operands Inst);
      args ← mapM (eval m) (removelast (operands Inst));
      Some (next m (<[vaddr (ival Inst) :=
                        extern (vname callee) args (trace m)]> (env m))
                 (mem m) (trace m ++ [(vname callee, args)]))
  | Br =>
      match operands Inst, successors Inst with
      | [], [dest] => Some (jump m dest)
      | [Cond], [IfTrue; IfFalse] =>
          z ← eval m Cond;
          Some (jump m (if (z =? 0)%Z then IfFalse else IfTrue))
      | _, _ => None
      end
  | _ => None
  end.

Fixpoint run (n : nat) (blocks : list BasicBlock) (m : Machine)
  : option Machine :=
  match n with
  | O => Some m
  | S n' => m' ← step blocks m; run n' blocks m'
  end.

End Exec.

End Frontend.

(** ** The specification's readings, to compare the code with, and the
    invariants of the proofs *)
Module Spec.
Import CWriter Frontend.

(** "integer widths round up to 8/16/32/64/128". *)
Definition spec_round_up (w : N) : N :=
  if (w <=? 8)%N then 8 else if (w <=? 16)%N then 16
  else if (w <=? 32)%N then 32 else if (w <=? 64)%N then 64 else 128.

(** "non-alphanumeric characters are escaped to [_<hex>_]". *)
Definition spec_escape_char (c : ascii) : string :=
  if isalnum c || is_underscore c then String c ""
  else "_" +:+ sprintf_x (N_of_ascii c) +:+ "_".
Fixpoint spec_escape (s : string) : string :=
  match s with
  | EmptyString => ""
  | String c s' => spec_escape_char c +:+ spec_escape s'
  end.


(** "(1<<width)-1". *)
Definition spec_mask (width : N) : Z := (Z.shiftl 1 (Z.of_N width) - 1)%Z.

(** "inlined into its single use iff: result has one use; use is in the
    same basic block; opcode is not a load, call, PHI, terminator, or
    insert-op". *)
Definition spec_inlined (F : Function) (I : Instruction) : bool :=
  hasOneUse F I
  && match user_back F I with
     | Some U => Nat.eqb (iparent I) (iparent U)
     | None => false
     end
  && negb (isaLoadInst I || isaCallInst I || isaPHINode I
           || isaTerminatorInst I || isaInsertElementInst I
           || isaInsertValueInst I).

(** The characters of a C identifier. *)
Definition is_c_identifier_char (c : ascii) : bool :=
  isalnum c || is_underscore c.
Fixpoint string_forall (p : ascii -> bool) (s : string) : bool :=
  match s with
  | EmptyString => true
  | String c s' => p c && string_forall p s'
  end.

(** The tables that naming a type reads and writes. *)
Definition type_tables (st : EState) :=
  (UnnamedStructIDs st, NextAnonStructNumber st,
   UnnamedFunctionIDs st, NextFunctionNumber st).

(** A well-formed builder: the current block exists, and every block
    stands at the position its value names. *)
Definition wf (fb : FunctionBuilder) : Prop :=
  (m_current_basic_block fb < length (m_blocks fb)) /\
  (forall i B, m_blocks fb !! i = Some B -> bid B = i).

(** What every step of the lowering does to a well-formed builder: it
    keeps it well-formed, removes no block, and moves the current block
    forward only. *)
Definition grows (fb fb' : FunctionBuilder) : Prop :=
  wf fb ->
  wf fb' /\ (length (m_blocks fb) <= length (m_blocks fb'))
  /\ (m_current_basic_block fb <= m_current_basic_block fb').

Definition Grows {A} (m : Build A) : Prop :=
  forall fb r fb', m fb = Some (r, fb') -> grows fb fb'.

(** Several instructions appended to a block. *)
Definition appendList (bb : nat) (l : list Instruction)
  (blocks : list BasicBlock) : list BasicBlock :=
  alter (fun B => {| bval := bval B; binsts := binsts B ++ l |}) bb blocks.

(** A load of one pointer. *)
Definition is_load (I : Instruction) : Prop :=
  iop I = Load /\ exists ptr, operands I = [ptr].

(** The computations that end in a valid builder. *)
Definition Valid (m : Build ExpressionBuilder) : Prop :=
  forall fb eb fb', m fb = Some (eb, fb') -> IsValid eb = true.

(** "for AND, ... the PHI yields false; for OR, ... the PHI yields
    true": the value of the left operand at which the right operand is
    skipped, which is also the value the PHI then yields. *)
Definition short_circuit_value (op : Logical.Operator) : Z :=
  match op with Logical.And => 0%Z | Logical.Or => 1%Z end.

(** "requires the index to be a compile-time constant non-negative integer
    strictly less than the work block's peek_rate". *)
Definition spec_peek_index_ok (peek_rate : Z) (index : Expression) : Prop :=
  IsConstant index = true /\
  exists i, GetConstantInt index = Some i /\ (0 <= i < peek_rate)%Z.

End Spec.

(** ** Example programs *)
Module Examples.
Import CWriter Frontend.

Definition inst (id : nat) (name : string) (T : Ty) (op : Opcode)
  (P : Predicate) (ops : list Value) (bb : nat) : Instruction :=
  {| ival := mkValue id KInstruction name T; iop := op; ipred := P;
     operands := ops; incoming_blocks := []; successors := []; iparent := bb;
     isArrayAllocation := false; allocatedType := VoidTy;
     isVolatile := false |}.

Definition block (id : nat) (name : string) (insts : list Instruction)
  : BasicBlock :=
  {| bval := mkValue id KBasicBlock name LabelTy; binsts := insts |}.

Definition func (name : string) (blocks : list BasicBlock) : Function :=
  {| fval := mkValue 0 KFunction name (PointerTy (FunctionTy VoidTy []));
     fblocks := blocks; hasStructRetAttr := false |}.

(** The visitor with which the examples are printed: no instruction
    outside the modelled ones occurs in them. *)
Definition visit_in (F : Function) : Instruction -> Emit string :=
  visit_fuel F (fun _ => fail) (fun _ _ => fail) 64 8.
Definition no_constant : Value -> OperandContext -> Emit string :=
  fun _ _ => fail.

Definition arg_a : Value := mkValue 1 KArgument "a" (IntegerTy 32).
Definition arg_b : Value := mkValue 2 KArgument "b" (IntegerTy 32).

(** A function with a comparison that has two uses:
    [%c = icmp eq i32 %a, %b; %x = zext i1 %c; %y = zext i1 %c; ret]. *)
Definition cmp_c : Instruction :=
  inst 1 "c" (IntegerTy 1) ICmp ICMP_EQ [arg_a; arg_b] 0.
Definition zext_x : Instruction :=
  inst 2 "x" (IntegerTy 32) ZExt ICMP_EQ [ival cmp_c] 0.
Definition shared_cmp : Function :=
  func "shared"
    [block 0 "entry"
       [cmp_c; zext_x;
        inst 3 "y" (IntegerTy 32) ZExt ICMP_EQ [ival cmp_c] 0;
        inst 4 "" VoidTy Ret ICMP_EQ [] 0]].

(** A store of a 48-bit integer and a 48-bit addition:
    [store i48 %v, i48* %p; %s = add i48 %v, %v; ret]. *)
Definition arg_v : Value := mkValue 1 KArgument "v" (IntegerTy 48).
Definition arg_p : Value :=
  mkValue 2 KArgument "p" (PointerTy (IntegerTy 48)).
Definition store48 : Instruction :=
  inst 1 "" VoidTy Store ICMP_EQ [arg_v; arg_p] 0.
Definition add48 : Instruction :=
  inst 2 "s" (IntegerTy 48) Add ICMP_EQ [arg_v; arg_v] 0.
Definition store48_fn : Function :=
  func "st"
    [block 0 "entry" [store48; add48; inst 3 "" VoidTy Ret ICMP_EQ [] 0]].

(** Integer operations on 32-bit operands:
    [%r = and i32 %a, %b; %q = sdiv i32 %a, %b; %m = add i32 %a, %b;
     %lt = icmp slt i32 %a, %b; %ult = icmp ult i32 %a, %b; ret]. *)
Definition and_r : Instruction :=
  inst 1 "r" (IntegerTy 32) IR.And ICMP_EQ [arg_a; arg_b] 0.
Definition sdiv_q : Instruction :=
  inst 2 "q" (IntegerTy 32) SDiv ICMP_EQ [arg_a; arg_b] 0.
Definition add_m : Instruction :=
  inst 3 "m" (IntegerTy 32) Add ICMP_EQ [arg_a; arg_b] 0.
Definition icmp_slt : Instruction :=
  inst 4 "lt" (IntegerTy 1) ICmp ICMP_SLT [arg_a; arg_b] 0.
Definition icmp_ult : Instruction :=
  inst 5 "ult" (IntegerTy 1) ICmp ICMP_ULT [arg_a; arg_b] 0.
Definition int_ops : Function :=
  func "ops"
    [block 0 "entry"
       [and_r; sdiv_q; add_m; icmp_slt; icmp_ult;
        inst 6 "" VoidTy Ret ICMP_EQ [] 0]].

(** A PHI with an undefined incoming value:
    [entry: br i1 %c, label %P, label %Q;  P: br label %merge;
     Q: br label %merge;
     merge: %x = phi i32 [undef, %P], [7, %Q]; ret i32 %x]. *)
Definition bb (id : nat) (name : string) : Value :=
  mkValue id KBasicBlock name LabelTy.
Definition br (id : nat) (parent : nat) (Cond : list Value)
  (dests : list Value) : Instruction :=
  {| ival := mkValue id KInstruction "" VoidTy; iop := Br; ipred := ICMP_EQ;
     operands := Cond; incoming_blocks := []; successors := dests;
     iparent := parent; isArrayAllocation := false; allocatedType := VoidTy;
     isVolatile := false |}.
Definition arg_c : Value := mkValue 3 KArgument "c" (IntegerTy 1).
Definition phi_x : Instruction :=
  {| ival := mkValue 4 KInstruction "x" (IntegerTy 32); iop := PHI;
     ipred := ICMP_EQ;
     operands := [mkValue 0 KUndefValue "" (IntegerTy 32);
                  mkValue 0 (KConstantInt 7) "" (IntegerTy 32)];
     incoming_blocks := [1; 2]; successors := []; iparent := 3;
     isArrayAllocation := false; allocatedType := VoidTy;
     isVolatile := false |}.
Definition br_P : Instruction := br 2 1 [] [bb 3 "merge"].
Definition br_Q : Instruction := br 3 2 [] [bb 3 "merge"].
Definition phi_undef : Function :=
  func "g"
    [block 0 "entry" [br 1 0 [arg_c] [bb 1 "P"; bb 2 "Q"]];
     block 1 "P" [br_P];
     block 2 "Q" [br_Q];
     block 3 "merge" [phi_x; inst 5 "" VoidTy Ret ICMP_EQ [ival phi_x] 3]].

(** The work function of the anonymous filter of [Cor1]
    (tests: [work peek N pop N push 1] with [N] = 32), at the point where
    its loop variable [i] has its slot, and the expression [peek(i)] of
    its first loop. *)
Definition ExampleTarget : TargetFragmentBuilder :=
  {| target_input_type := FloatTy; target_pop := "pop";
     target_peek := "peek" |}.
Definition decl_i : Declaration :=
  {| decl_id := 1; decl_name := "i"; decl_type := TInt;
     decl_constant := false |}.
Definition slot_i : Instruction :=
  {| ival := mkValue 1 KInstruction "i" (PointerTy (IntegerTy 32));
     iop := Alloca; ipred := ICMP_EQ; operands := []; incoming_blocks := [];
     successors := []; iparent := 0; isArrayAllocation := false;
     allocatedType := IntegerTy 32; isVolatile := false |}.
Definition fb_work : FunctionBuilder :=
  {| m_blocks := [block 0 "entry" [slot_i]];
     m_current_basic_block := 0; m_next_value := 2;
     m_vars := {[ 1 := ival slot_i ]} |}.
Definition peek_i : Expression :=
  PeekExpression TFloat (IdentifierExpression TInt decl_i).

(** The expressions [f() && g()], [f() || g()] and [(f(), g())] of two
    functions without parameters that return a boolean, and a builder with
    an empty entry block. *)
Definition call_f : Expression :=
  CallExpression TBoolean
    {| GetExecutableSymbolName := "f"; GetReturnType := TBoolean;
       GetParameterTypes := [] |} NoArgs.
Definition call_g : Expression :=
  CallExpression TBoolean
    {| GetExecutableSymbolName := "g"; GetReturnType := TBoolean;
       GetParameterTypes := [] |} NoArgs.
Definition f_and_g : Expression :=
  LogicalExpression TBoolean call_f Logical.And call_g.
Definition f_or_g : Expression :=
  LogicalExpression TBoolean call_f Logical.Or call_g.
Definition f_comma_g : Expression := CommaExpression TBoolean call_f call_g.
Definition fb_entry : FunctionBuilder :=
  {| m_blocks := [block 0 "entry" []]; m_current_basic_block := 0;
     m_next_value := 1; m_vars := ∅ |}.

(** An execution that starts at the entry block, and two worlds: one
    where [f] answers false and [g] true, and one where both answer
    true. *)
Definition start : Machine :=
  {| env := ∅; mem := ∅; trace := []; visited := [0]; prev_bb := 0;
     cur_bb := 0; pc := 0 |}.
Definition f_false (name : string) (args : list Z) (before : list Event) : Z :=
  if String.eqb name "f" then 0%Z else 1%Z.
Definition all_true (name : string) (args : list Z) (before : list Event) : Z :=
  1%Z.

(** The lowered blocks of an expression, and what an execution of [n]
    instructions of them shows. *)
Definition lowered (e : Expression) : list BasicBlock :=
  match Visit ExampleTarget e fb_entry with
  | Some (_, fb) => m_blocks fb
  | None => []
  end.
Definition observe (extern : string -> list Z -> list Event -> Z)
  (n : nat) (e : Expression) : option (list Event * list nat) :=
  (fun m => (trace m, visited m)) <$> run extern n (lowered e) start.

(** The expression [a && b] of two boolean variables that are not
    constants, a builder whose entry block holds their slots, and an
    execution that has reached the end of that block with [a] false. *)
Definition decl_a : Declaration :=
  {| decl_id := 1; decl_name := "a"; decl_type := TBoolean;
     decl_constant := false |}.
Definition decl_b : Declaration :=
  {| decl_id := 2; decl_name := "b"; decl_type := TBoolean;
     decl_constant := false |}.
Definition slot (id : nat) (name : string) : Instruction :=
  {| ival := mkValue id KInstruction name (PointerTy (IntegerTy 1));
     iop := Alloca; ipred := ICMP_EQ; operands := []; incoming_blocks := [];
     successors := []; iparent := 0; isArrayAllocation := false;
     allocatedType := IntegerTy 1; isVolatile := false |}.
Definition slot_a : Instruction := slot 1 "a".
Definition slot_b : Instruction := slot 2 "b".
Definition fb_ab : FunctionBuilder :=
  {| m_blocks := [block 0 "entry" [slot_a; slot_b]];
     m_current_basic_block := 0; m_next_value := 3;
     m_vars := {[ 1 := ival slot_a; 2 := ival slot_b ]} |}.
Definition a_and_b : Expression :=
  LogicalExpression TBoolean (IdentifierExpression TBoolean decl_a)
    Logical.And (IdentifierExpression TBoolean decl_b).
Definition at_branch : Machine :=
  {| env := ∅; mem := {[ vaddr (ival slot_a) := 0%Z ]}; trace := [];
     visited := [0]; prev_bb := 0; cur_bb := 0; pc := 2 |}.

End Examples.

(** ** Part IV: the lists of the syntax tree, type names and declarations *)
Module AST.

(** [AST::Node] (parser/ast.cpp): a [NodeList], or a node of any other
    class, which carries what the class holds.  A pointer to a node is
    an [option]: [None] is the null pointer. *)
Inductive Node (A : Type) :=
| Other (a : A)
| NodeList (m_nodes : list (Node A)).
Arguments Other {A} a.
Arguments NodeList {A} m_nodes.

Section Nodes.
Context {A : Type}.

(** [NodeList::AddNode] (ast.cpp:41) after its null check: the children
    of a [NodeList] are added one by one, by the same function. *)
Fixpoint AddNode_nonnull (m_nodes : list (Node A)) (li : Node A)
  : list (Node A) :=
  match li with
  | Other _ => m_nodes ++ [li]
  | NodeList nodes => fold_left AddNode_nonnull nodes m_nodes
  end.

Definition AddNode (m_nodes : list (Node A)) (li : option (Node A))
  : list (Node A) :=
  match li with
  | None => m_nodes
  | Some li => AddNode_nonnull m_nodes li
  end.

(** [NodeList::PrependNode] (ast.cpp:59). *)
Definition PrependNode (m_nodes : list (Node A)) (node : option (Node A))
  : list (Node A) :=
  match node with
  | None => m_nodes
  | Some (NodeList nodes) =>
      match nodes with
      | [] => m_nodes
      | _ => nodes ++ m_nodes
      end
  | Some (Other a) => Other a :: m_nodes
  end.

(** The nodes of a tree that are no lists, from left to right, and
    those of a pointer. *)
Fixpoint leaves (n : Node A) : list (Node A) :=
  match n with
  | Other _ => [n]
  | NodeList nodes => flat_map leaves nodes
  end.

Definition leaves_of (li : option (Node A)) : list (Node A) :=
  match li with
  | Some n => leaves n
  | None => []
  end.

Definition is_list (n : Node A) : bool :=
  match n with NodeList _ => true | Other _ => false end.

Definition no_list (l : list (Node A)) : Prop :=
  Forall (fun x => is_list x = false) l.

End Nodes.

(** [AST::TypeName]: the name of the base type and the array sizes. *)
Record TypeName := {
  m_base_type_name : string;
  m_array_sizes : list Z
}.

Definition empty_TypeName : TypeName :=
  {| m_base_type_name := ""; m_array_sizes := [] |}.

(** [TypeName::AddArraySize] and [TypeName::Merge] (ast.cpp:141, 146). *)
Definition AddArraySize (t : TypeName) (size : Z) : TypeName :=
  {| m_base_type_name := m_base_type_name t;
     m_array_sizes := m_array_sizes t ++ [size] |}.

Definition Merge (t rhs : TypeName) : TypeName :=
  {| m_base_type_name :=
       if String.eqb (m_base_type_name t) ""
          && negb (String.eqb (m_base_type_name rhs) "")
       then m_base_type_name rhs else m_base_type_name t;
     m_array_sizes :=
       match m_array_sizes rhs with
       | [] => m_array_sizes t
       | _ => m_array_sizes t ++ m_array_sizes rhs
       end |}.

(** [InitDeclarator] and [AST::VariableDeclaration], over the types of
    source locations and of expressions. *)
Record InitDeclarator (L E : Type) := {
  sloc : L;
  name : string;
  initializer : option E
}.
Arguments sloc {L E} _.
Arguments name {L E} _.
Arguments initializer {L E} _.

Record VariableDeclaration (L E : Type) := {
  m_sloc : L;
  m_type_specifier : TypeName;
  m_name : string;
  m_initializer : option E
}.
Arguments m_sloc {L E} _.
Arguments m_type_specifier {L E} _.
Arguments m_name {L E} _.
Arguments m_initializer {L E} _.

(** The constructor of [VariableDeclaration] on a declarator. *)
Definition declare {L E} (type_specifier : TypeName)
  (decl : InitDeclarator L E) : Node (VariableDeclaration L E) :=
  Other {| m_sloc := sloc decl; m_type_specifier := type_specifier;
           m_name := name decl; m_initializer := initializer decl |}.

(** [VariableDeclaration::CreateDeclarations] (ast.cpp:375).  The type
    specifier is a value here: that the declarations of a list get a
    copy of it each, and a single declaration the specifier itself, is
    not seen. *)
Definition CreateDeclarations {L E} (type_specifier : TypeName)
  (declarator_list : list (InitDeclarator L E))
  : Node (VariableDeclaration L E) :=
  match declarator_list with
  | [front] => declare type_specifier front
  | _ =>
      NodeList (fold_left (fun decl_list decl =>
                             AddNode decl_list
                                     (Some (declare type_specifier decl)))
                          declarator_list [])
  end.

End AST.

(** ** Constant strings of the C emitter *)
Module ConstantString.
Import CWriter.

(** [isprint] and [isxdigit] in the C locale. *)
Definition isprint (c : ascii) : bool :=
  let n := N_of_ascii c in ((32 <=? n) && (n <=? 126))%N.
Definition isxdigit (c : ascii) : bool :=
  let n := N_of_ascii c in
  ((48 <=? n) && (n <=? 57) || (65 <=? n) && (n <=? 70)
   || (97 <=? n) && (n <=? 102))%N.

(** The two digits of the hexadecimal escape:
    [(C / 16 < 10) ? (C / 16 + '0') : (C / 16 - 10 + 'A')]. *)
Definition hex_char (d : N) : ascii :=
  if (d <? 10)%N then ascii_of_N (d + 48) else ascii_of_N (d - 10 + 65).

(** The body of the loop of [CWriter::printConstantString]
    (CBackend.cpp:562) for one byte: what it writes, and the new value of
    the flag [LastWasHex]. *)
Definition printConstantString_byte (LastWasHex : bool) (C : ascii)
  : string * bool :=
  if isprint C && (negb LastWasHex || negb (isxdigit C))
  then (if Ascii.eqb C "034" || Ascii.eqb C "\"
        then String "\" (String C "")
        else String C "", false)
  else
    match N_of_ascii C with
    | 10%N => ("\n", false)
    | 9%N => ("\t", false)
    | 13%N => ("\r", false)
    | 11%N => ("\v", false)
    | 7%N => ("\a", false)
    | 34%N => (String "\" (String "034" ""), false)
    | 39%N => ("\'", false)
    | n => (String "\" (String "x"
              (String (hex_char (n / 16))
                 (String (hex_char (N.land n 15)) ""))), true)
    end.

Fixpoint printConstantString_loop (LastWasHex : bool) (Bytes : string)
  : string :=
  match Bytes with
  | EmptyString => ""
  | String C Bytes' =>
      let '(text, LastWasHex') := printConstantString_byte LastWasHex C in
      text +:+ printConstantString_loop LastWasHex' Bytes'
  end.

(** [CWriter::printConstantString] (CBackend.cpp:544) on a constant that
    is a sequence of data; [isCString] and [getAsString] are the
    library's.  The result is the text written, or [None] for [return
    false], when nothing is written. *)
Definition printConstantString (isCString : bool) (getAsString : string)
  (Context : OperandContext) : option string :=
  if negb isCString then None
  else if negb (bool_decide (Context = ContextStatic)) then None
  else
    let Bytes := getAsString in
    Some ("{ " +:+ dquote
          +:+ printConstantString_loop false
                (substring 0 (String.length Bytes - 1) Bytes)
          +:+ dquote +:+ " }").

(** The bytes a C compiler reads from the inside of a string literal: a
    character that is printed stands for itself, a backslash starts an
    escape, and a hexadecimal escape takes every hexadecimal digit that
    follows.  [None] is a text that is no string literal: a quote or a
    character that is not printed outside an escape, an unknown escape,
    or a value above 255. *)
Inductive Lexer := Plain | Escape | HexStart | Hex (v : N).

#[global] Instance Lexer_eq_dec : EqDecision Lexer.
Proof. solve_decision. Defined.

Definition hex_value (c : ascii) : N :=
  let n := N_of_ascii c in
  if (n <=? 57)%N then n - 48 else if (n <=? 70)%N then n - 55 else n - 87.

(** One character: the bytes that are complete with it, and the new
    state. *)
Definition lex_plain (c : ascii) : option (string * Lexer) :=
  if Ascii.eqb c "\" then Some ("", Escape)
  else if Ascii.eqb c "034" then None
  else if isprint c then Some (String c "", Plain)
  else None.

Definition lex (st : Lexer) (c : ascii) : option (string * Lexer) :=
  match st with
  | Plain => lex_plain c
  | Escape =>
      match N_of_ascii c with
      | 110%N => Some (String "010" "", Plain)
      | 116%N => Some (String "009" "", Plain)
      | 114%N => Some (String "013" "", Plain)
      | 118%N => Some (String "011" "", Plain)
      | 97%N => Some (String "007" "", Plain)
      | 34%N | 39%N | 92%N => Some (String c "", Plain)
      | 120%N => Some ("", HexStart)
      | _ => None
      end
  | HexStart => if isxdigit c then Some ("", Hex (hex_value c)) else None
  | Hex v =>
      if isxdigit c then Some ("", Hex (16 * v + hex_value c))
      else if (v <? 256)%N
      then r ← lex_plain c; Some (String (ascii_of_N v) (fst r), snd r)
      else None
  end.

(** The end of the literal. *)
Definition lex_end (st : Lexer) : option string :=
  match st with
  | Plain => Some ""
  | Hex v => if (v <? 256)%N then Some (String (ascii_of_N v) "") else None
  | _ => None
  end.

Fixpoint literal_bytes (st : Lexer) (s : string) : option string :=
  match s with
  | EmptyString => lex_end st
  | String c s' =>
      r ← lex st c; bytes ← literal_bytes (snd r) s'; Some (fst r +:+ bytes)
  end.

(** The same on the beginning of a literal: the bytes read, and the state
    in which the rest is read. *)
Fixpoint literal_prefix (st : Lexer) (s : string) : option (string * Lexer) :=
  match s with
  | EmptyString => Some ("", st)
  | String c s' =>
      r ← lex st c; p ← literal_prefix (snd r) s'; Some (fst r +:+ fst p, snd p)
  end.

(** The characters, and what the loop does right on each of them: what it
    writes for a byte is read back as this byte (at once, or when the
    hexadecimal escape ends), and after a hexadecimal escape it writes
    no hexadecimal digit first. *)
Definition byte_read_back (LastWasHex : bool) (n : N) : bool :=
  let C := ascii_of_N n in
  let text := fst (printConstantString_byte LastWasHex C) in
  bool_decide
    (literal_prefix Plain text
     = Some (if snd (printConstantString_byte LastWasHex C)
             then ("", Hex n) else (String C "", Plain)))
  && (negb LastWasHex
      || match text with
         | String c0 _ => negb (isxdigit c0)
         | EmptyString => false
         end).

End ConstantString.

(** ** Invariants of the emitter's tables and of the builder *)
Module Invariants.
Import CWriter Frontend Spec.

(** The table of the values without a name holds no number above the
    counter and no number twice. *)
Definition anon_ok (st : EState) : Prop :=
  (forall a n, AnonValueNumbers st !! a = Some n -> n <= NextAnonValueNumber st)
  /\ (forall a b n, AnonValueNumbers st !! a = Some (S n) ->
                    AnonValueNumbers st !! b = Some (S n) -> a = b).

(** The instructions of the blocks are older than [n]. *)
Definition ids_below (n : nat) (blocks : list BasicBlock) : Prop :=
  forall i B k I, blocks !! i = Some B -> binsts B !! k = Some I -> iid I < n.

(** A builder in which the identity of the next instruction is fresh. *)
Definition fresh (fb : FunctionBuilder) : Prop :=
  wf fb /\ ids_below (m_next_value fb) (m_blocks fb).

(** Every block stays where it is with its value, every instruction stays
    at its place in its block with its identity, and the instructions
    older than [n] stay as they are. *)
Definition keeps (n : nat) (blocks blocks' : list BasicBlock) : Prop :=
  forall i B, blocks !! i = Some B ->
    exists B', blocks' !! i = Some B' /\ bval B' = bval B /\
      forall k I, binsts B !! k = Some I ->
        exists I', binsts B' !! k = Some I' /\ iid I' = iid I
                   /\ (iid I < n -> I' = I).

Definition KeepsFrom {A} (n : nat) (m : Build A) : Prop :=
  forall fb r fb', fresh fb -> n <= m_next_value fb -> m fb = Some (r, fb') ->
    fresh fb' /\ keeps n (m_blocks fb) (m_blocks fb')
    /\ m_vars fb' = m_vars fb /\ m_next_value fb <= m_next_value fb'.

(** The expressions, among those of the modelled classes, whose lowering
    gives the address of a variable: the identifiers that are not
    declared constant, the assignments, and the comma expressions whose
    left operand is such an expression.  (The literals, logical, peek,
    pop and call expressions are the others.) *)
Fixpoint is_lvalue (node : Expression) : bool :=
  match node with
  | IdentifierExpression _ decl => negb (decl_constant decl)
  | CommaExpression _ lhs _ => is_lvalue lhs
  | AssignmentExpression _ _ _ => true
  | _ => false
  end.
End Invariants.

(** ** More example programs *)
Module LocalExamples.
Import CWriter Frontend Examples.

(** A function with a local variable and a store of three bits:
    [%x = alloca i32; store i32 %a, i32* %x; %l = load i32, i32* %x;
     store i3 %t, i3* %q; ret i32 %l]. *)
Definition alloca_x : Instruction :=
  {| ival := mkValue 1 KInstruction "x" (PointerTy (IntegerTy 32));
     iop := Alloca; ipred := ICMP_EQ; operands := []; incoming_blocks := [];
     successors := []; iparent := 0; isArrayAllocation := false;
     allocatedType := IntegerTy 32; isVolatile := false |}.
Definition store_x : Instruction :=
  inst 2 "" VoidTy Store ICMP_EQ [arg_a; ival alloca_x] 0.
Definition load_x : Instruction :=
  inst 3 "l" (IntegerTy 32) Load ICMP_EQ [ival alloca_x] 0.
Definition arg_t : Value := mkValue 4 KArgument "t" (IntegerTy 3).
Definition arg_q : Value := mkValue 5 KArgument "q" (PointerTy (IntegerTy 3)).
Definition store3 : Instruction :=
  inst 4 "" VoidTy Store ICMP_EQ [arg_t; arg_q] 0.
Definition ret_l : Instruction :=
  inst 5 "" VoidTy Ret ICMP_EQ [ival load_x] 0.
Definition locals_fn : Function :=
  func "locals"
    [block 0 "entry" [alloca_x; store_x; load_x; store3; ret_l]].


(** The expression [f() || (g() && h())]. *)
Definition call_h : Expression :=
  CallExpression TBoolean
    {| GetExecutableSymbolName := "h"; GetReturnType := TBoolean;
       GetParameterTypes := [] |} NoArgs.
Definition f_or_g_and_h : Expression :=
  LogicalExpression TBoolean call_f Logical.Or
    (LogicalExpression TBoolean call_g Logical.And call_h).

End LocalExamples.

(** ** The work-block validation of the semantic analyser *)
Module SemanticAnalyser.
Import CWriter Frontend.



End SemanticAnalyser.

(** ** Theorems *)
Import CWriter Frontend Spec Examples SemanticAnalyser.

(** *** Lemmas on the monad *)

Lemma bind_Some {St A B} (m : SO St A) (k : A -> SO St B) st r :
  bind m k st = Some r <->
  exists a st', m st = Some (a, st') /\ k a st' = Some r.
Proof.
  unfold bind. destruct (m st) as [[a st']|]; split.
  - intros H. eauto.
  - intros (a' & st'' & [= <- <-] & H). exact H.
  - discriminate.
  - intros (a' & st'' & H & _). discriminate.
Qed.

Lemma bind_eq {St A B} (m : SO St A) (k : A -> SO St B) st a st' :
  m st = Some (a, st') -> bind m k st = k a st'.
Proof. intros H. unfold bind. rewrite H. reflexivity. Qed.

Lemma lift_Some {St A} (o : option A) (st : St) r :
  lift o st = Some r <-> exists a, o = Some a /\ r = (a, st).
Proof.
  unfold lift. destruct o; split.
  - intros [= <-]. eauto.
  - intros (a' & [= <-] & ->). reflexivity.
  - discriminate.
  - intros (a' & H & _). discriminate.
Qed.

(** *** Integer types (C6) *)

(** C6, refuted as stated: an integer of 100 bits, which the claim has
    printed as a 128-bit C integer, is not printed at all:
    [printSimpleType] stops at its assertion that the width is at most
    64. *)
Lemma printSimpleType_100_bits_not_128 :
  (64 < 100 <= 128)%N /\
  spec_round_up 100 = 128%N /\
  printSimpleType (IntegerTy 100) false = None /\
  printSimpleType (IntegerTy 100) false
    <> Some (c_int_type (spec_round_up 100) false).
Proof.
  split; [lia|]. split; [reflexivity|]. split; [reflexivity|].
  discriminate.
Qed.

(** C6, amended: an integer type of width 1 is printed as [bool]; a width
    [w] with [1 < w <= 64] is printed as the C integer type of the next of
    8, 16, 32 and 64 bits, signed or unsigned as asked; a width above 64 is
    refused by the assertion. *)
Theorem printSimpleType_rounds_width_up (w : N) (isSigned : bool) :
  (w = 1%N -> printSimpleType (IntegerTy w) isSigned = Some "bool") /\
  ((1 < w <= 64)%N ->
     printSimpleType (IntegerTy w) isSigned
     = Some (c_int_type (spec_round_up w) isSigned)) /\
  ((64 < w)%N -> printSimpleType (IntegerTy w) isSigned = None).
Proof.
  unfold printSimpleType, spec_round_up; cbn [isSingleValueType isIntegerTy
    isFloatingPointTy isFloatTy isDoubleTy isPointerTy isVectorTy isVoidTy
    orb negb].
  repeat split; intros Hw.
  - subst w. reflexivity.
  - destruct (N.eqb_spec w 1); [lia|].
    destruct (N.leb_spec w 8); [destruct isSigned; reflexivity|].
    destruct (N.leb_spec w 16); [destruct isSigned; reflexivity|].
    destruct (N.leb_spec w 32); [destruct isSigned; reflexivity|].
    destruct (N.leb_spec w 64); [destruct isSigned; reflexivity|lia].
  - destruct (N.eqb_spec w 1); [lia|].
    destruct (N.leb_spec w 8); [lia|]. destruct (N.leb_spec w 16); [lia|].
    destruct (N.leb_spec w 32); [lia|]. destruct (N.leb_spec w 64); [lia|].
    reflexivity.
Qed.

Lemma printSimpleType_rounds_width_up_witness :
  (1 < 3 <= 64)%N /\ printSimpleType (IntegerTy 3) false = Some "uint8_t".
Proof.
  split; [lia|].
  apply (proj1 (proj2 (printSimpleType_rounds_width_up 3 false))). lia.
Defined.

(** *** Names (C8) *)

Lemma append_String (x : ascii) (a b : string) :
  String x a +:+ b = String x (a +:+ b).
Proof. reflexivity. Qed.

Lemma append_assoc' (a b c : string) : (a +:+ b) +:+ c = a +:+ (b +:+ c).
Proof.
  induction a as [|x a IH]; [reflexivity|].
  now rewrite !append_String, IH.
Qed.

Lemma append_empty_r (a : string) : a +:+ "" = a.
Proof.
  induction a as [|x a IH]; [reflexivity|].
  now rewrite append_String, IH.
Qed.

(** The loop of [GetValueName] is the escape of the specification. *)
Lemma VarName_char_spec (c : ascii) : VarName_char c = spec_escape_char c.
Proof. destruct c as [[] [] [] [] [] [] [] []]; reflexivity. Qed.

Lemma VarName_spec (s : string) : VarName s = spec_escape s.
Proof.
  induction s as [|c s IH]; cbn [VarName spec_escape]; [reflexivity|].
  now rewrite VarName_char_spec, IH.
Qed.

Lemma VarName_app (s t : string) : VarName (s +:+ t) = VarName s +:+ VarName t.
Proof.
  induction s as [|c s IH]; [reflexivity|].
  rewrite append_String. cbn [VarName].
  now rewrite IH, append_assoc'.
Qed.

Lemma VarName_digit (x : N) :
  VarName_char (pretty_N_char x) = String (pretty_N_char x) "".
Proof.
  unfold pretty_N_char.
  repeat (match goal with |- context [match ?p with _ => _ end] =>
            destruct p end); reflexivity.
Qed.

Lemma VarName_pretty_N_go (x : N) (s : string) :
  VarName s = s -> VarName (pretty_N_go x s) = pretty_N_go x s.
Proof.
  revert s. induction (N.lt_wf_0 x) as [x _ IH]; intros s Hs.
  destruct (N.eq_dec x 0%N) as [->|Hx].
  - now rewrite pretty_N_go_0.
  - rewrite pretty_N_go_step by lia. apply IH.
    + apply N.div_lt; lia.
    + cbn [VarName]. rewrite VarName_digit, Hs. reflexivity.
Qed.

(** A counter's numeral needs no escape. *)
Lemma VarName_utostr (n : nat) : VarName (utostr n) = utostr n.
Proof.
  unfold utostr, pretty, pretty_nat, pretty, pretty_N.
  destruct (decide (N.of_nat n = 0%N)); [reflexivity|].
  now apply VarName_pretty_N_go.
Qed.

(** The escape leaves only letters, digits and underscores. *)

Lemma string_forall_app p (s t : string) :
  string_forall p (s +:+ t) = string_forall p s && string_forall p t.
Proof.
  induction s as [|c s IH]; [reflexivity|].
  rewrite append_String. cbn [string_forall].
  now rewrite IH, andb_assoc.
Qed.

Lemma VarName_identifier (s : string) :
  string_forall is_c_identifier_char (VarName s) = true.
Proof.
  induction s as [|c s IH]; cbn [VarName]; [reflexivity|].
  rewrite string_forall_app, IH, andb_true_r.
  destruct c as [[] [] [] [] [] [] [] []]; reflexivity.
Qed.

Lemma CBEMangle_identifier (s : string) :
  string_forall is_c_identifier_char (CBEMangle s) = true.
Proof.
  induction s as [|c s IH]; cbn [CBEMangle]; [reflexivity|].
  rewrite string_forall_app, IH, andb_true_r.
  destruct c as [[] [] [] [] [] [] [] []]; reflexivity.
Qed.

(** C8, refuted as stated: the name of a global is not escaped to
    [_<hex>_].  The dot of the global [a.b], 2e in hexadecimal, becomes
    [_OC_]: the letter of the low half-byte, then that of the high one. *)
Lemma GetValueName_global_not_hex :
  GetValueName (mkValue 1 KGlobalVariable "a.b" (PointerTy (IntegerTy 32)))
               initial_state
    = Some ("a_OC_b", initial_state) /\
  spec_escape "a.b" = "a_2e_b".
Proof. split; reflexivity. Qed.

(** C8, amended: a named value that is not a global value is named
    [llvm_cbe_] followed by its name with every character other than a
    letter, a digit or an underscore escaped to [_<hex>_] (lower-case
    hexadecimal of the character); a named global value is named by
    [CBEMangle], which replaces such a character [c] by an underscore, the
    letter ['A' + c mod 16], the letter ['A' + c / 16] and an underscore;
    a value with no name is named [tmp__N], [N] being the next value of
    the emitter's counter of anonymous values the first time and the number
    it was given afterwards; an unnamed structure type is named from the
    counter of anonymous structures in the same way. *)
Theorem GetValueName_names (Operand : Value) (st : EState) :
  let V := match vkind Operand with KGlobalAlias GA => GA | _ => Operand end in
  (vname V <> "" -> isaGlobalValue V = false ->
   GetValueName Operand st
   = Some ("llvm_cbe_" +:+ spec_escape (vname V), st)) /\
  (vname V <> "" -> isaGlobalValue V = true ->
   GetValueName Operand st = Some (CBEMangle (vname V), st)) /\
  (forall c, isalnum c || is_underscore c = false ->
   CBEMangle_char c
   = String "_" (String (ascii_of_N (65 + N_of_ascii c mod 16))
                   (String (ascii_of_N (65 + N_of_ascii c / 16)) "_"))) /\
  (vname V = "" -> isaGlobalValue V = false ->
   AnonValueNumbers st !! vaddr V = None ->
   exists st',
     GetValueName Operand st
     = Some ("llvm_cbe_tmp__" +:+ utostr (S (NextAnonValueNumber st)), st')
     /\ NextAnonValueNumber st' = S (NextAnonValueNumber st)
     /\ AnonValueNumbers st' !! vaddr V = Some (S (NextAnonValueNumber st))) /\
  (forall n, vname V = "" -> isaGlobalValue V = false ->
   AnonValueNumbers st !! vaddr V = Some (S n) ->
   GetValueName Operand st = Some ("llvm_cbe_tmp__" +:+ utostr (S n), st)) /\
  (forall literal elts, elts <> [] ->
   lookupTy (StructTy literal "" elts) (UnnamedStructIDs st) = 0 ->
   exists st',
     getStructName (StructTy literal "" elts) st
     = Some ("struct l_unnamed_" +:+ utostr (S (NextAnonStructNumber st)), st')
     /\ NextAnonStructNumber st' = S (NextAnonStructNumber st)).
Proof.
  intros V. unfold GetValueName. fold V.
  assert (Hne : forall s, s <> "" -> is_empty_string s = false)
    by (intros []; [congruence | reflexivity]).
  repeat split.
  - intros Hn Hg. rewrite (Hne _ Hn). unfold bind, ret.
    rewrite Hg, VarName_spec. reflexivity.
  - intros Hn Hg. rewrite (Hne _ Hn). unfold bind, ret.
    rewrite Hg. reflexivity.
  - intros c Hc. unfold CBEMangle_char. rewrite Hc.
    destruct c as [[] [] [] [] [] [] [] []]; try discriminate Hc; reflexivity.
  - intros Hn Hg Ha. rewrite Hn. cbn [is_empty_string].
    unfold bind, ret, anonValueNumber. rewrite Ha, Hg.
    eexists. split; [|split].
    + change "llvm_cbe_tmp__" with ("llvm_cbe_" +:+ "tmp__").
      rewrite append_assoc', VarName_app, VarName_utostr. reflexivity.
    + reflexivity.
    + cbn. apply lookup_insert_eq.
  - intros n Hn Hg Ha. rewrite Hn. cbn [is_empty_string].
    unfold bind, ret, anonValueNumber. rewrite Ha, Hg.
    change "llvm_cbe_tmp__" with ("llvm_cbe_" +:+ "tmp__").
    rewrite append_assoc', VarName_app, VarName_utostr. reflexivity.
  - intros literal elts He Hl. unfold getStructName.
    destruct elts as [|e elts]; [congruence|].
    cbn [length]. replace (N.of_nat (S (length elts)) =? 0)%N with false
      by (symmetry; apply N.eqb_neq; lia).
    cbn [is_empty_string negb andb]. rewrite andb_false_r.
    unfold bind, ret, unnamedStructID. rewrite Hl.
    eexists. split; reflexivity.
Qed.

Lemma GetValueName_names_witness :
  GetValueName (mkValue 7 KInstruction "x.y" (IntegerTy 32)) initial_state
  = Some ("llvm_cbe_x_2e_y", initial_state).
Proof.
  apply (proj1 (GetValueName_names
                  (mkValue 7 KInstruction "x.y" (IntegerTy 32))
                  initial_state)).
  - discriminate.
  - reflexivity.
Defined.

(** *** Inlining (C1) *)

(** C1, refuted as stated: the comparison [%c] above has two uses and is
    inlined all the same, here into an operand, where it is printed as a
    parenthesised expression and not by its name. *)
Lemma isInlinableInst_shared_compare :
  length (users shared_cmp (ival cmp_c)) = 2 /\
  spec_inlined shared_cmp cmp_c = false /\
  isInlinableInst shared_cmp cmp_c = true /\
  writeOperandInternal shared_cmp (visit_in shared_cmp) no_constant
    (ival cmp_c) ContextNormal initial_state
  = Some ("(((llvm_cbe_a == llvm_cbe_b)&1))", initial_state).
Proof. repeat split; vm_compute; reflexivity. Qed.

(** C1, amended: an instruction is inlined when it is a comparison, however
    many uses it has; any other instruction is inlined if and only if its
    type is not empty, it has exactly one use, it is no terminator, call,
    PHI, load, [va_arg], insert-element or insert-value, and its use is in
    its own basic block.  So an instruction other than a comparison with
    any number of uses but one is not inlined.  An operand that is an
    inlinable instruction, and no direct alloca, is printed as the
    parenthesised computation; an operand that is any other instruction is
    printed by its name. *)
Theorem isInlinableInst_iff (F : Function) (I : Instruction) :
  (isInlinableInst F I = true <->
   isaCmpInst I = true \/
   (isEmptyType (ity I) = false /\ hasOneUse F I = true /\
    isaTerminatorInst I = false /\ isaCallInst I = false /\
    isaPHINode I = false /\ isaLoadInst I = false /\
    isaVAArgInst I = false /\ isaInsertElementInst I = false /\
    isaInsertValueInst I = false /\
    exists U, user_back F I = Some U /\ iparent I = iparent U)) /\
  (isaCmpInst I = false -> length (users F (ival I)) <> 1 ->
   isInlinableInst F I = false) /\
  (forall visit pco Context,
     getInst F (ival I) = Some I ->
     isInlinableInst F I = true -> isDirectAlloca F (ival I) = None ->
     writeOperandInternal F visit pco (ival I) Context
     = (s <- writeInstComputationInline visit I ;; ret ("(" +:+ s +:+ ")"))) /\
  (forall visit pco Context,
     getInst F (ival I) = Some I ->
     isInlinableInst F I = false ->
     writeOperandInternal F visit pco (ival I) Context
     = GetValueName (ival I)).
Proof.
  repeat split.
  - unfold isInlinableInst. destruct (isaCmpInst I); [auto|].
    destruct (isEmptyType (ity I)), (hasOneUse F I), (isaTerminatorInst I),
      (isaCallInst I), (isaPHINode I), (isaLoadInst I), (isaVAArgInst I),
      (isaInsertElementInst I), (isaInsertValueInst I);
      cbn [orb negb]; try discriminate.
    destruct (user_back F I) as [U|]; [|discriminate].
    intros H. right. repeat split. exists U. split; [reflexivity|].
    now apply Nat.eqb_eq.
  - unfold isInlinableInst. intros [->|H]; [reflexivity|].
    destruct H as (-> & -> & -> & -> & -> & -> & -> & -> & -> & U & -> & HU).
    destruct (isaCmpInst I); [reflexivity|]. cbn [orb negb].
    now apply Nat.eqb_eq.
  - intros Hc Hu. unfold isInlinableInst, hasOneUse. rewrite Hc.
    replace (length (users F (ival I)) =? 1)%nat with false
      by (symmetry; now apply Nat.eqb_neq).
    cbn [negb orb]. now rewrite orb_true_r.
  - intros visit pco Context Hg Hi Hd. unfold writeOperandInternal.
    rewrite Hg, Hi, Hd. reflexivity.
  - intros visit pco Context Hg Hi. unfold writeOperandInternal.
    rewrite Hg, Hi. cbn [andb].
    unfold getInst in Hg. destruct (isaInstruction (ival I)) eqn:Hk;
      [|discriminate].
    unfold isaInstruction in Hk. unfold isaConstant.
    destruct (vkind (ival I)); try discriminate Hk. reflexivity.
Qed.

Lemma isInlinableInst_iff_witness :
  isInlinableInst shared_cmp zext_x = false.
Proof.
  apply (proj1 (proj2 (isInlinableInst_iff shared_cmp zext_x))).
  - reflexivity.
  - vm_compute. discriminate.
Defined.

(** *** Masks of odd widths (C2) *)

Lemma N_range_check (P : N -> bool) (lo len : nat) :
  forallb P (map N.of_nat (seq lo len)) = true ->
  forall w, (N.of_nat lo <= w < N.of_nat (lo + len))%N -> P w = true.
Proof.
  intros H w Hw. rewrite forallb_forall in H. apply H.
  apply in_map_iff. exists (N.to_nat w). split; [apply N2Nat.id|].
  apply in_seq. lia.
Qed.

(** Up to 32 bits the mask is the one of the specification. *)
Lemma oddWidthMask_upto_32 (w : N) :
  (1 <= w <= 32)%N -> isPowerOf2ByteWidth w = false ->
  oddWidthMask (IntegerTy w) = Some (spec_mask w) /\ spec_mask w <> 0%Z.
Proof.
  intros Hw Hp.
  assert (H := N_range_check
    (fun w => isPowerOf2ByteWidth w
              || bool_decide (oddWidthMask (IntegerTy w) = Some (spec_mask w))
                 && negb (spec_mask w =? 0)%Z) 1 32 eq_refl w).
  cbv beta in H. rewrite Hp in H. cbn [orb] in H.
  apply andb_prop in H as [H1 H2]; [|lia].
  apply bool_decide_eq_true in H1. apply negb_true_iff, Z.eqb_neq in H2.
  auto.
Qed.

(** From 33 to 63 bits the mask is cut to the 32 bits of [unsigned]. *)
Lemma oddWidthMask_above_32 (w : N) :
  (32 < w < 64)%N ->
  oddWidthMask (IntegerTy w) = Some (2 ^ 32 - 1)%Z
  /\ spec_mask w <> (2 ^ 32 - 1)%Z.
Proof.
  intros Hw.
  assert (H := N_range_check
    (fun w => bool_decide (oddWidthMask (IntegerTy w) = Some (2 ^ 32 - 1)%Z)
              && negb (spec_mask w =? 2 ^ 32 - 1)%Z) 33 31 eq_refl w).
  cbv beta in H.
  apply andb_prop in H as [H1 H2]; [|lia].
  apply bool_decide_eq_true in H1. apply negb_true_iff, Z.eqb_neq in H2.
  auto.
Qed.

(** A power-of-two byte width has no mask. *)
Lemma oddWidthMask_power_of_2 (w : N) :
  isPowerOf2ByteWidth w = true -> oddWidthMask (IntegerTy w) = Some 0%Z.
Proof. intros H. unfold oddWidthMask. now rewrite H. Qed.

(** What a store prints, by its mask. *)
Lemma visitStoreInst_shape F visit pco (I : Instruction) Operand Ptr rest
  st a st1 m s st2 :
  operands I = Operand :: Ptr :: rest ->
  writeMemoryAccess F visit pco Ptr (vty Operand) (isVolatile I) st
  = Some (a, st1) ->
  oddWidthMask (vty Operand) = Some m ->
  writeOperand F visit pco Operand
    (if (m =? 0)%Z then ContextCasted else ContextNormal) st1
  = Some (s, st2) ->
  visitStoreInst F visit pco I st
  = Some (a +:+ " = "
          +:+ (if (m =? 0)%Z then "" else "((") +:+ s
          +:+ (if (m =? 0)%Z then "" else ") & " +:+ pretty m +:+ ")"),
          st2).
Proof.
  intros Ho Ha Hm Hs. unfold visitStoreInst. rewrite Ho.
  unfold bind, lift. rewrite Ha; cbn beta iota.
  rewrite Hm; cbn beta iota. rewrite Hs. reflexivity.
Qed.


(** C2, where the code departs from the claim: the store of a 48-bit
    integer, and the result of a 48-bit addition, are masked with
    4294967295, the low 32 bits of the type's bit mask, and not with
    [(1<<48)-1] = 281474976710655. *)
Theorem visitStoreInst_i48_mask_truncated :
  isPowerOf2ByteWidth 48 = false /\
  spec_mask 48 = 281474976710655%Z /\
  oddWidthMask (IntegerTy 48) = Some 4294967295%Z /\
  visitStoreInst store48_fn (visit_in store48_fn) no_constant store48
                 initial_state
  = Some ("*llvm_cbe_p = ((llvm_cbe_v) & 4294967295)", initial_state) /\
  fst <$> writeInstComputationInline (visit_in store48_fn) add48
            initial_state
  = Some "((llvm_add_u48(llvm_cbe_v, llvm_cbe_v))&4294967295)".
Proof. repeat split; vm_compute; reflexivity. Qed.

(** *** Operand casts (C3) *)








(** The operations whose operands are cast are printed as calls to helper
    functions, whose parameters have the type of the cast. *)
Example visitBinaryOperator_helpers :
  fst <$> emit_all (visit_in int_ops) [sdiv_q; add_m; icmp_slt; icmp_ult]
            initial_state
  = Some ("llvm_sdiv_u32(llvm_cbe_a, llvm_cbe_b)"
          +:+ "llvm_add_u32(llvm_cbe_a, llvm_cbe_b)"
          +:+ "((int32_t)llvm_cbe_a) < ((int32_t)llvm_cbe_b)"
          +:+ "((uint32_t)llvm_cbe_a) < ((uint32_t)llvm_cbe_b)") /\
  fst <$> emit_all printInlineOpDecl [(SDiv, IntegerTy 32); (Add, IntegerTy 32)]
            initial_state
  = Some ("FORCEINLINE uint32_t llvm_sdiv_u32(int32_t a, int32_t b) {" +:+ nl
          +:+ "  return a / b;" +:+ nl +:+ "}" +:+ nl
          +:+ "FORCEINLINE uint32_t llvm_add_u32(uint32_t a, uint32_t b) {"
          +:+ nl +:+ "  return a + b;" +:+ nl +:+ "}" +:+ nl).
Proof. split; vm_compute; reflexivity. Qed.

(** *** The header (C9) *)

(** C9: the text every emitted file begins with includes the four
    standard headers [<stdarg.h>], [<limits.h>], [<stdint.h>] and
    [<math.h>] and no other header of the C standard library (the one
    further include, of [<alloca.h>], which is no standard header, stands
    in the branch of a conditional for the compilers other than Cygwin and
    MinGW); it defines the macros [NORETURN], [FORCEINLINE], [LLVM_NAN],
    [LLVM_NANF], [LLVM_INF] and [LLVM_INFF]; and it declares the union
    [llvmBitCastUnion] of the 32- and 64-bit integers, [float] and
    [double]. *)
Theorem header_prologue_includes :
  included_headers header_prologue
  = ["stdarg.h"; "limits.h"; "stdint.h"; "math.h"; "alloca.h"] /\
  List.filter is_standard_header (included_headers header_prologue)
  = ["stdarg.h"; "limits.h"; "stdint.h"; "math.h"] /\
  is_standard_header "alloca.h" = false /\
  forallb (fun m => existsb (String.eqb m) (defined_macros header_prologue))
          ["NORETURN"; "FORCEINLINE"; "LLVM_NAN"; "LLVM_NANF"; "LLVM_INF";
           "LLVM_INFF"] = true /\
  is_substring_at
    ("typedef union {" +:+ nl +:+ "  uint32_t Int32;" +:+ nl
     +:+ "  uint64_t Int64;" +:+ nl +:+ "  float Float;" +:+ nl
     +:+ "  double Double;" +:+ nl +:+ "} llvmBitCastUnion;" +:+ nl)
    header_prologue = true.
Proof. repeat split; vm_compute; reflexivity. Qed.

(** *** PHI nodes (C4) *)




(** Naming a value leaves the tables of the types alone, and naming it
    again gives the same name and changes nothing. *)
Lemma GetValueName_stable v st n st' :
  GetValueName v st = Some (n, st') ->
  type_tables st' = type_tables st /\ GetValueName v st' = Some (n, st').
Proof.
  unfold GetValueName.
  set (V := match vkind v with KGlobalAlias GA => GA | _ => v end).
  destruct (is_empty_string (vname V)) eqn:He.
  - unfold bind, ret, anonValueNumber.
    destruct (AnonValueNumbers st !! vaddr V) as [[|k]|] eqn:Hl.
    + destruct (isaGlobalValue V); intros [= <- <-]; (split; [reflexivity|]);
        cbn [AnonValueNumbers]; rewrite lookup_insert_eq; reflexivity.
    + destruct (isaGlobalValue V); intros [= <- <-]; (split; [reflexivity|]);
        rewrite Hl; reflexivity.
    + destruct (isaGlobalValue V); intros [= <- <-]; (split; [reflexivity|]);
        cbn [AnonValueNumbers]; rewrite lookup_insert_eq; reflexivity.
  - unfold bind, ret.
    destruct (isaGlobalValue V); intros [= <- <-]; split; reflexivity.
Qed.


Lemma getInst_isaInstruction F v I :
  getInst F v = Some I -> vkind v = KInstruction.
Proof.
  unfold getInst, isaInstruction. destruct (vkind v); congruence.
Qed.










(** *** The builder's invariant *)

Lemma grows_refl fb : grows fb fb.
Proof. intros H. auto. Qed.

Lemma grows_trans fb1 fb2 fb3 : grows fb1 fb2 -> grows fb2 fb3 -> grows fb1 fb3.
Proof.
  intros H12 H23 Hw. destruct (H12 Hw) as (Hw2 & Hl2 & Hc2).
  destruct (H23 Hw2) as (Hw3 & Hl3 & Hc3). split; [exact Hw3|lia].
Qed.

Lemma Grows_ret {A} (a : A) : Grows (ret a).
Proof. intros fb r fb' [= <- <-]. apply grows_refl. Qed.

Lemma Grows_fail {A} : Grows (@fail _ A).
Proof. intros fb r fb' [=]. Qed.

Lemma Grows_lift {A} (o : option A) : Grows (lift o).
Proof. intros fb r fb'. destruct o; intros [= <- <-]. apply grows_refl. Qed.

Lemma Grows_bind {A B} (m : Build A) (k : A -> Build B) :
  Grows m -> (forall a, Grows (k a)) -> Grows (bind m k).
Proof.
  intros Hm Hk fb r fb' H. apply bind_Some in H as (a & fb1 & H1 & H2).
  eapply grows_trans; [eapply Hm | eapply Hk]; eassumption.
Qed.

Lemma lookup_appendTo bb (I : Instruction) (bs : list BasicBlock) i :
  appendTo bb I bs !! i
  = (fun B => if decide (bb = i)
              then {| bval := bval B; binsts := binsts B ++ [I] |}
              else B) <$> bs !! i.
Proof.
  unfold appendTo. rewrite list_lookup_alter.
  destruct (decide (bb = i)) as [->|]; [reflexivity|].
  now destruct (bs !! i).
Qed.

Lemma Grows_Insert bb op T name ops succs :
  Grows (Insert bb op T name ops succs).
Proof.
  intros fb r fb'. unfold Insert. case_bool_decide; [|discriminate].
  intros [= <- <-] [Hc Hi]. unfold wf. cbn [m_blocks m_current_basic_block].
  unfold appendTo at 1 3. rewrite length_alter.
  split; [split; [assumption|]|lia].
  intros i B. rewrite lookup_appendTo.
  destruct (m_blocks fb !! i) as [B0|] eqn:HB; [|discriminate].
  intros [= <-]. specialize (Hi i B0 HB). now destruct (decide (bb = i)).
Qed.

Lemma Grows_InsertCurrent op T name ops : Grows (InsertCurrent op T name ops).
Proof. intros fb r fb' H. eapply Grows_Insert. exact H. Qed.

Lemma Grows_CreateLoad ptr : Grows (CreateLoad ptr).
Proof.
  unfold CreateLoad. destruct (vty ptr);
    first [apply Grows_fail | apply Grows_InsertCurrent].
Qed.

Lemma Grows_CreateStore v ptr : Grows (CreateStore v ptr).
Proof. apply Grows_InsertCurrent. Qed.

Lemma Grows_CreateCall f T args : Grows (CreateCall f T args).
Proof. apply Grows_InsertCurrent. Qed.

Lemma Grows_CreatePHI T name : Grows (CreatePHI T name).
Proof. apply Grows_InsertCurrent. Qed.

Lemma Grows_CreateCondBr bb c t f : Grows (CreateCondBr bb c t f).
Proof. intros fb r fb' H. eapply Grows_Insert. exact H. Qed.

Lemma Grows_CreateBr bb d : Grows (CreateBr bb d).
Proof. intros fb r fb' H. eapply Grows_Insert. exact H. Qed.

Lemma Grows_addIncoming phi V BB : Grows (addIncoming phi V BB).
Proof.
  intros fb r fb' [= <- <-] [Hc Hi]. unfold wf. cbn. rewrite length_map.
  split; [split; [assumption|]|lia].
  intros i B. rewrite list_lookup_fmap.
  destruct (m_blocks fb !! i) as [B0|] eqn:HB; [|discriminate].
  intros [= <-]. exact (Hi i B0 HB).
Qed.

Lemma Grows_NewBasicBlock name : Grows (NewBasicBlock name).
Proof.
  intros fb r fb' [= <- <-] [Hc Hi]. unfold wf. cbn. rewrite length_app. cbn.
  split; [split; [lia|]|lia].
  intros i B HB. apply lookup_app_Some in HB as [HB|[Hl HB]].
  - exact (Hi i B HB).
  - apply list_lookup_singleton_Some in HB as [H0 <-]. cbn. lia.
Qed.

Lemma Grows_GetCurrentBasicBlock : Grows GetCurrentBasicBlock.
Proof. intros fb r fb' [= <- <-]. apply grows_refl. Qed.

Lemma Grows_GetVariable var : Grows (GetVariable var).
Proof. intros fb r fb' [= <- <-]. apply grows_refl. Qed.

Lemma Grows_GetResultValue eb : Grows (GetResultValue eb).
Proof.
  unfold GetResultValue.
  destruct (m_result_value eb), (m_result_ptr eb);
    try apply Grows_ret.
  apply Grows_bind; [apply Grows_CreateLoad | intros; apply Grows_ret].
Qed.

Lemma Grows_finish eb : Grows (finish eb).
Proof.
  unfold finish. destruct (IsValid eb); [apply Grows_ret | apply Grows_fail].
Qed.

Lemma Grows_BuildPeek T idx : Grows (BuildPeek T idx).
Proof. apply Grows_CreateCall. Qed.

Lemma Grows_BuildPop T : Grows (BuildPop T).
Proof. apply Grows_CreateCall. Qed.

Create HintDb grows.
#[local] Hint Resolve Grows_ret Grows_fail Grows_lift Grows_CreateLoad
  Grows_CreateStore Grows_CreateCall Grows_CreatePHI Grows_CreateCondBr
  Grows_CreateBr Grows_addIncoming Grows_NewBasicBlock
  Grows_GetCurrentBasicBlock Grows_GetVariable Grows_GetResultValue
  Grows_finish Grows_BuildPeek Grows_BuildPop : grows.

Ltac grows_step :=
  match goal with
  | |- Grows (bind _ _) => apply Grows_bind; [|intros ?]
  | |- Grows (if ?c then _ else _) => destruct c
  | |- Grows (match ?op with Logical.And => _ | Logical.Or => _ end) =>
      destruct op
  | |- Grows _ => solve [auto with grows]
  end.

Scheme Expression_mut := Induction for Expression Sort Prop
  with NodeList_mut := Induction for NodeList Sort Prop.
Combined Scheme Expression_NodeList_ind from Expression_mut, NodeList_mut.

(** Lowering an expression, or an argument list, keeps the builder
    well-formed and moves the current block forward only. *)
Lemma Visit_Grows Target :
  (forall node, Grows (Visit Target node)) /\
  (forall args, Grows (VisitArgs Target args)).
Proof.
  apply Expression_NodeList_ind; intros; cbn [Visit VisitArgs];
    repeat grows_step.
Qed.

(** *** The comma expression (C10) *)

Lemma Valid_finish eb : Valid (finish eb).
Proof.
  intros fb eb' fb'. unfold finish. destruct (IsValid eb) eqn:H; [|discriminate].
  now intros [= <- <-].
Qed.

Lemma Valid_fail : Valid fail.
Proof. intros fb eb fb' [=]. Qed.

Lemma Valid_bind {A} (m : Build A) (k : A -> Build ExpressionBuilder) :
  (forall a, Valid (k a)) -> Valid (bind m k).
Proof.
  intros Hk fb eb fb' H. apply bind_Some in H as (a & fb1 & _ & H2).
  eapply Hk. exact H2.
Qed.

Ltac valid_step :=
  match goal with
  | |- Valid (bind _ _) => apply Valid_bind; intros ?
  | |- Valid (if ?c then _ else _) => destruct c
  | |- Valid (finish _) => apply Valid_finish
  | |- Valid fail => apply Valid_fail
  end.

(** A lowering that succeeds leaves a valid builder: every [Visit] ends in
    [return IsValid();]. *)
Lemma Visit_Valid Target node : Valid (Visit Target node).
Proof. destruct node; cbn [Visit]; repeat valid_step. Qed.

(** The value of a valid builder: the one it holds, or the load of its
    pointer, appended to the current block. *)
Lemma GetResultValue_spec eb fb r fb' :
  IsValid eb = true -> GetResultValue eb fb = Some (r, fb') ->
  exists v loads,
    snd r = Some v /\ Forall is_load loads /\
    m_blocks fb' = appendList (m_current_basic_block fb) loads (m_blocks fb) /\
    m_current_basic_block fb' = m_current_basic_block fb.
Proof.
  unfold IsValid, GetResultValue.
  destruct (m_result_value eb) as [v|] eqn:Hv.
  - intros _ Hr.
    assert (Hr' : r = (eb, Some v) /\ fb' = fb)
      by (destruct (m_result_ptr eb); injection Hr as <- <-; auto).
    destruct Hr' as [-> ->]. exists v, []. repeat split; [constructor|].
    unfold appendList. symmetry. apply list_alter_id.
    intros [bv bi]. cbn. now rewrite app_nil_r.
  - destruct (m_result_ptr eb) as [ptr|] eqn:Hp.
    + intros _ Hr. apply bind_Some in Hr as (v & fb1 & Hl & [= <- <-]).
      unfold CreateLoad in Hl. destruct (vty ptr); try discriminate Hl.
      unfold InsertCurrent, Insert in Hl.
      case_bool_decide; [|discriminate]. injection Hl as <- <-.
      eexists _, [_]. cbn. repeat split.
      constructor; [|constructor]. split; cbn; eauto.
    + rewrite !bool_decide_eq_false_2 by (intros [? [=]]). discriminate.
Qed.

(** The lowering of a call without arguments, in a builder whose current
    block exists: one call instruction at the end of that block. *)
Lemma Visit_call_no_args Target tf fref fb :
  m_current_basic_block fb < length (m_blocks fb) ->
  Visit Target (CallExpression tf fref NoArgs) fb
  = let c := newInstruction (m_next_value fb) (m_current_basic_block fb) Call
               (GetLLVMType (GetReturnType fref)) ""
               [getOrInsertFunction (GetExecutableSymbolName fref)
                  (GetLLVMType (GetReturnType fref))
                  (map GetLLVMType (GetParameterTypes fref))] [] in
    Some ({| m_result_ptr := None; m_result_value := Some (ival c) |},
          {| m_blocks := appendTo (m_current_basic_block fb) c (m_blocks fb);
             m_current_basic_block := m_current_basic_block fb;
             m_next_value := S (m_next_value fb);
             m_vars := m_vars fb |}).
Proof.
  intros Hc. cbn [Visit VisitArgs].
  unfold CreateCall, InsertCurrent, Insert, bind, ret. cbn [app].
  rewrite bool_decide_eq_true_2 by exact Hc. reflexivity.
Qed.

(** C10: the lowering of a comma expression lowers the left-hand
    expression, then lowers the left-hand expression once more, and takes
    the result of this second lowering for its own (the pointer, if it is
    one, and the value otherwise).  It never lowers the right-hand
    expression: it lowers to the same IR whatever that expression is.
    So when the left-hand expression is a call [f()], whatever the
    function, the right-hand expression and the (well-formed) builder
    are, the lowering succeeds and appends two instructions to the
    current block and none elsewhere: two calls of [f], the second of
    which is the value of the comma expression; and an execution that
    stands at the end of what the block held before calls [f] twice and
    nothing else. *)
Theorem CommaExpression_lowers_lhs_twice Target t lhs rhs fb :
  Visit Target (CommaExpression t lhs rhs) fb
  = match Visit Target lhs fb with
    | Some (eb_lhs, fb1) =>
        match Visit Target lhs fb1 with
        | Some (eb_rhs, fb2) =>
            Some (if IsPointer eb_rhs
                  then {| m_result_ptr := m_result_ptr eb_rhs;
                          m_result_value := None |}
                  else {| m_result_ptr := None;
                          m_result_value := m_result_value eb_rhs |},
                  fb2)
        | None => None
        end
    | None => None
    end
  /\ (forall rhs', Visit Target (CommaExpression t lhs rhs) fb
                   = Visit Target (CommaExpression t lhs rhs') fb)
  /\ (forall tf fref,
        lhs = CallExpression tf fref NoArgs -> wf fb ->
        exists B (c1 c2 : Instruction) fb',
          m_blocks fb !! m_current_basic_block fb = Some B /\
          Visit Target (CommaExpression t lhs rhs) fb
          = Some ({| m_result_ptr := None;
                     m_result_value := Some (ival c2) |}, fb') /\
          m_blocks fb' !! m_current_basic_block fb
          = Some {| bval := bval B;
                    binsts := (binsts B ++ [c1; c2])%list |} /\
          (forall i, i <> m_current_basic_block fb ->
                     m_blocks fb' !! i = m_blocks fb !! i) /\
          length (m_blocks fb') = length (m_blocks fb) /\
          iop c1 = Call /\ iop c2 = Call /\
          map vname (operands c1) = [GetExecutableSymbolName fref] /\
          map vname (operands c2) = [GetExecutableSymbolName fref] /\
          iid c1 = m_next_value fb /\ iid c2 = S (m_next_value fb) /\
          forall extern m,
            cur_bb m = m_current_basic_block fb ->
            pc m = length (binsts B) ->
            exists m',
              run extern 2 (m_blocks fb') m = Some m' /\
              trace m'
              = (trace m ++ [(GetExecutableSymbolName fref, []);
                             (GetExecutableSymbolName fref, [])])%list /\
              cur_bb m' = cur_bb m /\ pc m' = 2 + pc m).
Proof.
  assert (Heq : forall lhs,
    Visit Target (CommaExpression t lhs rhs) fb
    = match Visit Target lhs fb with
      | Some (eb_lhs, fb1) =>
          match Visit Target lhs fb1 with
          | Some (eb_rhs, fb2) =>
              Some (if IsPointer eb_rhs
                    then {| m_result_ptr := m_result_ptr eb_rhs;
                            m_result_value := None |}
                    else {| m_result_ptr := None;
                            m_result_value := m_result_value eb_rhs |},
                    fb2)
          | None => None
          end
      | None => None
      end).
  { clear lhs. intros lhs. cbn [Visit]. unfold bind at 1.
    destruct (Visit Target lhs fb) as [[eb_lhs fb1]|]; [|reflexivity].
    unfold bind at 1.
    destruct (Visit Target lhs fb1) as [[eb_rhs fb2]|] eqn:H2; [|reflexivity].
    assert (Hv := Visit_Valid Target lhs _ _ _ H2).
    unfold IsPointer, IsValid in *.
    destruct (m_result_ptr eb_rhs) as [p|] eqn:Hp.
    + rewrite bool_decide_eq_true_2 by eauto.
      unfold finish, IsValid. cbn. reflexivity.
    + rewrite bool_decide_eq_false_2 in * by (intros [? [=]]).
      cbn [orb] in Hv. apply bool_decide_eq_true in Hv as [v Hv].
      unfold GetResultValue. rewrite Hv. cbn.
      unfold finish, IsValid. cbn. reflexivity. }
  split; [apply Heq|]. split; [reflexivity|].
  intros tf fref -> Hw.
  {
    set (cur := m_current_basic_block fb).
    set (f := getOrInsertFunction (GetExecutableSymbolName fref)
                (GetLLVMType (GetReturnType fref))
                (map GetLLVMType (GetParameterTypes fref))).
    set (c1 := newInstruction (m_next_value fb) cur Call
                 (GetLLVMType (GetReturnType fref)) "" [f] []).
    set (c2 := newInstruction (S (m_next_value fb)) cur Call
                 (GetLLVMType (GetReturnType fref)) "" [f] []).
    destruct Hw as [Hc Hi].
    destruct (lookup_lt_is_Some_2 (m_blocks fb) cur Hc) as [B HB].
    set (fb' := {| m_blocks := appendTo cur c2 (appendTo cur c1 (m_blocks fb));
                   m_current_basic_block := cur;
                   m_next_value := S (S (m_next_value fb));
                   m_vars := m_vars fb |}).
    assert (HV : Visit Target
                   (CommaExpression t (CallExpression tf fref NoArgs) rhs) fb
                 = Some ({| m_result_ptr := None;
                            m_result_value := Some (ival c2) |}, fb')).
    { rewrite Heq.
      rewrite (Visit_call_no_args Target tf fref fb Hc).
      cbv beta iota zeta.
      rewrite Visit_call_no_args
        by (cbn [m_blocks m_current_basic_block]; unfold appendTo;
            rewrite length_alter; exact Hc).
      reflexivity. }
    assert (HB' : m_blocks fb' !! cur
                  = Some {| bval := bval B;
                            binsts := (binsts B ++ [c1; c2])%list |}).
    { cbn [m_blocks fb']. rewrite !lookup_appendTo, HB. cbn.
      destruct (decide (cur = cur)) as [_|n]; [|now destruct n].
      cbn. now rewrite <- app_assoc. }
    exists B, c1, c2, fb'.
    split; [exact HB|]. split; [exact HV|]. split; [exact HB'|].
    split.
    { intros i Hne. cbn [m_blocks fb']. rewrite !lookup_appendTo.
      destruct (m_blocks fb !! i) as [Bi|]; [|reflexivity]. cbn.
      destruct (decide (cur = i)) as [E|_]; [now destruct Hne|reflexivity]. }
    split; [cbn [m_blocks fb']; unfold appendTo; now rewrite !length_alter|].
    do 6 (split; [reflexivity|]).
    intros extern m Hcur Hpc.
    assert (S1 : step extern (m_blocks fb') m
                 = Some (next m (<[vaddr (ival c1) :=
                                     extern (vname f) [] (trace m)]> (env m))
                              (mem m) (trace m ++ [(vname f, [])]))).
    { unfold step. rewrite Hcur, HB'. cbn [mbind option_bind binsts].
      rewrite Hpc, lookup_app_r by lia. rewrite Nat.sub_diag. reflexivity. }
    eexists. cbn [run]. rewrite S1. cbn [mbind option_bind].
    split.
    { unfold step. cbn [cur_bb next pc]. rewrite Hcur, HB'.
      cbn [mbind option_bind binsts].
      rewrite Hpc, lookup_app_r by lia.
      replace (S (length (binsts B)) - length (binsts B)) with 1 by lia.
      reflexivity. }
    cbn [trace next cur_bb pc]. rewrite <- app_assoc.
    split; [reflexivity|]. split; [reflexivity | lia]. }
Qed.

Lemma CommaExpression_lowers_lhs_twice_witness :
  wf fb_entry /\
  exists (c1 c2 : Instruction) fb',
    Visit ExampleTarget f_comma_g fb_entry
    = Some ({| m_result_ptr := None; m_result_value := Some (ival c2) |},
            fb') /\
    map (fun B => map (fun J => (iop J, map vname (operands J))) (binsts B))
        (m_blocks fb')
    = [[(Call, ["f"]); (Call, ["f"])]] /\
    map vname (operands c1) = ["f"] /\ map vname (operands c2) = ["f"].
Proof.
  assert (Hw : wf fb_entry).
  { split; [cbn; lia|].
    intros [|i] B HB; [injection HB as <-; reflexivity | discriminate HB]. }
  split; [exact Hw|].
  destruct (proj2 (proj2 (CommaExpression_lowers_lhs_twice ExampleTarget
                            TBoolean call_f call_g fb_entry))
              TBoolean _ eq_refl Hw)
    as (B & c1 & c2 & fb' & _ & HV & _ & _ & _ & _ & _ & H1 & H2 & _).
  exists c1, c2, fb'. split; [exact HV|]. split; [|split; assumption].
  assert (E : Visit ExampleTarget f_comma_g fb_entry
              = Some ({| m_result_ptr := None;
                         m_result_value := Some (ival c2) |}, fb'))
    by exact HV.
  vm_compute in E. injection E as _ <-. reflexivity.
Defined.

(** The comma expression [(f(), g())] lowers to two calls of [f] and none
    of [g]; executed, [f] is called twice and [g] never. *)
Example CommaExpression_f_comma_g :
  map (fun B => map (fun I => (iop I, map vname (operands I))) (binsts B))
      (lowered f_comma_g)
  = [[(Call, ["f"]); (Call, ["f"])]] /\
  observe f_false 2 f_comma_g = Some ([("f", []); ("f", [])], [0]).
Proof. split; vm_compute; reflexivity. Qed.

(** *** The index of a peek (C7) *)

(** The lowerer by itself makes no such check: [peek(i)], with the loop
    variable [i] of the work block of [Cor1] for index, is lowered when
    the lowerer is given it: to a load of [i] and a call of the target's
    peek on the loaded value. *)
Lemma Visit_peek_of_loop_variable :
  IsConstant (IdentifierExpression TInt decl_i) = false /\
  ~ spec_peek_index_ok 32 (IdentifierExpression TInt decl_i) /\
  (fun r => (m_result_value (fst r),
             map (fun B => map (fun I => (iop I, map vname (operands I)))
                               (binsts B)) (m_blocks (snd r))))
    <$> Visit ExampleTarget peek_i fb_work
  = Some (Some (mkValue 3 KInstruction "" FloatTy),
          [[(Alloca, []); (Load, ["i"]); (Call, [""; "peek"])]]).
Proof.
  split; [reflexivity|]. split; [|vm_compute; reflexivity].
  intros [H _]. discriminate H.
Qed.

(** The lowerer: a [peek] whose index expression lowers and has type
    [int] is lowered, whatever the index expression: to the value of the
    index, loaded if the index is a variable, and the target's peek of
    that value, inserted at the end of the current block.  The lowerer
    asks neither that the index is a constant nor that it is below the
    peek rate, of which it knows nothing: the check is the analyser's. *)
Theorem Visit_PeekExpression_any_index Target t index fb index_eb fb1 :
  wf fb ->
  Visit Target index fb = Some (index_eb, fb1) ->
  IsInt (GetType index) = true ->
  (forall ptr, m_result_value index_eb = None ->
               m_result_ptr index_eb = Some ptr -> isPointerTy (vty ptr) = true) ->
  exists r fb2 idx v fb3,
    GetResultValue index_eb fb1 = Some (r, fb2) /\ snd r = Some idx /\
    BuildPeek Target idx fb2 = Some (v, fb3) /\
    Visit Target (PeekExpression t index) fb
    = Some ({| m_result_ptr := None; m_result_value := Some v |}, fb3).
Proof.
  intros Hw Hv Hi Hptr.
  assert (Hw1 : wf fb1)
    by (exact (proj1 (proj1 (Visit_Grows Target) index _ _ _ Hv Hw))).
  assert (Hval := Visit_Valid Target index _ _ _ Hv).
  assert (HG : exists r fb2, GetResultValue index_eb fb1 = Some (r, fb2)).
  { unfold GetResultValue.
    destruct (m_result_value index_eb) as [x|] eqn:Hx.
    - destruct (m_result_ptr index_eb); eexists _, _; reflexivity.
    - destruct (m_result_ptr index_eb) as [ptr|] eqn:Hp.
      + specialize (Hptr ptr eq_refl eq_refl).
        unfold bind, CreateLoad. destruct (vty ptr); try discriminate Hptr.
        unfold InsertCurrent, Insert.
        rewrite bool_decide_eq_true_2 by apply Hw1.
        eexists _, _; reflexivity.
      + unfold IsValid in Hval. rewrite Hx, Hp in Hval.
        rewrite !bool_decide_eq_false_2 in Hval by (intros [? [=]]).
        discriminate. }
  destruct HG as (r & fb2 & HG).
  destruct (GetResultValue_spec _ _ _ _ Hval HG) as (idx & loads & Hr & _ & _ & Hc).
  assert (Hw2 : wf fb2) by (exact (proj1 (Grows_GetResultValue _ _ _ _ HG Hw1))).
  assert (HB : exists v fb3, BuildPeek Target idx fb2 = Some (v, fb3)).
  { unfold BuildPeek, CreateCall, InsertCurrent, Insert.
    rewrite bool_decide_eq_true_2 by apply Hw2. eexists _, _; reflexivity. }
  destruct HB as (v & fb3 & HB).
  exists r, fb2, idx, v, fb3. repeat split; try assumption.
  cbn [Visit]. unfold bind at 1. rewrite Hv, Hi. cbn [negb].
  unfold bind at 1. rewrite HG. unfold bind at 1, lift. rewrite Hr.
  unfold bind. rewrite HB. reflexivity.
Qed.

Lemma Visit_PeekExpression_any_index_witness :
  exists r fb2 idx v fb3,
    GetResultValue
      {| m_result_ptr := Some (ival slot_i); m_result_value := None |} fb_work
    = Some (r, fb2) /\ snd r = Some idx /\
    BuildPeek ExampleTarget idx fb2 = Some (v, fb3) /\
    Visit ExampleTarget peek_i fb_work
    = Some ({| m_result_ptr := None; m_result_value := Some v |}, fb3).
Proof.
  apply (Visit_PeekExpression_any_index ExampleTarget TFloat
           (IdentifierExpression TInt decl_i) fb_work
           {| m_result_ptr := Some (ival slot_i); m_result_value := None |}
           fb_work).
  - split; [cbn; lia|].
    intros [|i] B H; [injection H as <-; reflexivity | discriminate H].
  - reflexivity.
  - reflexivity.
  - intros ptr _ [= <-]. reflexivity.
Defined.



(** *** Logical expressions *)

(** The blocks after instructions are appended to one of them. *)
Lemma lookup_appendList bb l (bs : list BasicBlock) i :
  appendList bb l bs !! i
  = (fun B => if decide (bb = i)
              then {| bval := bval B; binsts := binsts B ++ l |}
              else B) <$> bs !! i.
Proof.
  unfold appendList. rewrite list_lookup_alter.
  destruct (decide (bb = i)) as [->|]; [reflexivity|].
  now destruct (bs !! i).
Qed.

(** What an insertion that succeeds has done. *)
Lemma Insert_inv bb op T name ops succs fb v fb' :
  Insert bb op T name ops succs fb = Some (v, fb') ->
  bb < length (m_blocks fb) /\
  v = ival (newInstruction (m_next_value fb) bb op T name ops succs) /\
  m_blocks fb'
  = appendList bb [newInstruction (m_next_value fb) bb op T name ops succs]
               (m_blocks fb) /\
  m_current_basic_block fb' = m_current_basic_block fb.
Proof.
  unfold Insert. case_bool_decide; [|discriminate].
  intros [= <- <-]. auto.
Qed.

(** [addIncoming] changes PHI nodes only. *)
Lemma addIncomingTo_other phi V BB (I : Instruction) :
  isaPHINode I = false -> addIncomingTo phi V BB I = I.
Proof. intros H. unfold addIncomingTo. now rewrite H, andb_false_r. Qed.

Lemma is_load_not_PHI I : is_load I -> isaPHINode I = false.
Proof. intros [H _]. unfold isaPHINode. now rewrite H. Qed.

Lemma map_addIncomingTo_loads phi V BB loads :
  Forall is_load loads -> map (addIncomingTo phi V BB) loads = loads.
Proof.
  induction 1 as [|I l HI _ IH]; [reflexivity|]. cbn.
  now rewrite IH, (addIncomingTo_other _ _ _ _ (is_load_not_PHI _ HI)).
Qed.

(** Executions. *)
Section Run.
Variable extern : string -> list Z -> list Event -> Z.

(** An execution of [n + k] instructions is one of [n], then one of
    [k]. *)
Lemma run_add n k bs m :
  run extern (n + k) bs m = m' ← run extern n bs m; run extern k bs m'.
Proof.
  revert m. induction n as [|n IH]; intros m; cbn [run Nat.add].
  - reflexivity.
  - destruct (step extern bs m) as [m1|]; cbn; [apply IH | reflexivity].
Qed.

(** Executing loads changes only the values of the loads. *)
Lemma run_loads bs loads : forall m B pre post,
  bs !! cur_bb m = Some B -> binsts B = (pre ++ loads ++ post)%list ->
  pc m = length pre -> Forall is_load loads ->
  exists m', run extern (length loads) bs m = Some m' /\
    pc m' = length pre + length loads /\ cur_bb m' = cur_bb m /\
    prev_bb m' = prev_bb m /\ trace m' = trace m /\
    visited m' = visited m /\ mem m' = mem m.
Proof.
  induction loads as [|I loads IH]; intros m B pre post HB Hi Hpc Hl.
  - exists m. cbn. repeat split; lia.
  - inversion Hl as [|? ? [Hop [ptr Hops]] Hl']; subst.
    assert (Hstep : step extern bs m
      = Some (next m (<[vaddr (ival I) := default 0%Z (mem m !! vaddr ptr)]>
                        (env m)) (mem m) (trace m))).
    { unfold step. rewrite HB. cbn. rewrite Hi, Hpc.
      rewrite lookup_app_r by lia. rewrite Nat.sub_diag. cbn.
      rewrite Hop, Hops. reflexivity. }
    destruct (IH (next m (<[vaddr (ival I) := default 0%Z (mem m !! vaddr ptr)]>
                        (env m)) (mem m) (trace m)) B (pre ++ [I])%list post)
      as (m' & Hrun & Hpc' & Hc & Hp & Ht & Hv & Hm).
    + exact HB.
    + rewrite Hi. now rewrite <- app_assoc.
    + cbn. rewrite length_app. cbn. lia.
    + exact Hl'.
    + exists m'. cbn [run length]. rewrite Hstep. cbn.
      rewrite Hrun. rewrite length_app in Hpc'. cbn in *.
      repeat split; try assumption; lia.
Qed.

End Run.

(** What the other steps of the lowering have done. *)
Lemma NewBasicBlock_inv name fb b fb' :
  NewBasicBlock name fb = Some (b, fb') ->
  b = m_current_basic_block fb /\
  m_blocks fb'
  = (m_blocks fb ++ [{| bval := blockValue (length (m_blocks fb)) name;
                        binsts := [] |}])%list /\
  m_current_basic_block fb' = length (m_blocks fb).
Proof. intros [= <- <-]. auto. Qed.

Lemma addIncoming_inv phi V BB fb u fb' :
  addIncoming phi V BB fb = Some (u, fb') ->
  m_blocks fb' = map (addIncomingIn phi V BB) (m_blocks fb) /\
  m_current_basic_block fb' = m_current_basic_block fb.
Proof. intros [= <- <-]. auto. Qed.

(** In a well-formed builder a block is named by its position. *)
Lemma blockOf_vid fb b : wf fb -> vid (blockOf fb b) = b.
Proof.
  intros [_ Hi]. unfold blockOf.
  destruct (m_blocks fb !! b) as [B|] eqn:HB; [|reflexivity].
  exact (Hi b B HB).
Qed.

(** The instructions of a block after each step. *)
Lemma binsts_appendList bb l (bs : list BasicBlock) i :
  binsts <$> appendList bb l bs !! i
  = (fun insts => if decide (bb = i) then (insts ++ l)%list else insts)
      <$> (binsts <$> bs !! i).
Proof.
  rewrite lookup_appendList. destruct (bs !! i) as [B|]; [|reflexivity].
  cbn. now destruct (decide (bb = i)).
Qed.

Lemma binsts_addIncomingIn phi V BB (bs : list BasicBlock) i :
  binsts <$> map (addIncomingIn phi V BB) bs !! i
  = map (addIncomingTo phi V BB) <$> (binsts <$> bs !! i).
Proof.
  change (map (addIncomingIn phi V BB) bs) with (addIncomingIn phi V BB <$> bs).
  rewrite list_lookup_fmap. now destruct (bs !! i).
Qed.

(** The value of a valid builder, by its two cases: the value it holds,
    with nothing inserted, or one load of its pointer, appended to the
    current block. *)
Lemma GetResultValue_cases eb fb r fb' :
  IsValid eb = true -> GetResultValue eb fb = Some (r, fb') ->
  exists v loads,
    snd r = Some v /\ Forall is_load loads /\
    m_blocks fb' = appendList (m_current_basic_block fb) loads (m_blocks fb) /\
    m_current_basic_block fb' = m_current_basic_block fb /\
    ((m_result_value eb = Some v /\ loads = [])
     \/ (m_result_value eb = None /\
         exists ptr (ld : Instruction),
           m_result_ptr eb = Some ptr /\ loads = [ld] /\ v = ival ld /\
           iop ld = Load /\ operands ld = [ptr])).
Proof.
  unfold IsValid, GetResultValue.
  destruct (m_result_value eb) as [v|] eqn:Hv.
  - intros _ Hr.
    assert (Hr' : r = (eb, Some v) /\ fb' = fb)
      by (destruct (m_result_ptr eb); injection Hr as <- <-; auto).
    destruct Hr' as [-> ->]. exists v, [].
    split; [reflexivity|]. split; [constructor|]. split.
    + unfold appendList. symmetry. apply list_alter_id.
      intros [bv bi]. cbn. now rewrite app_nil_r.
    + split; [reflexivity|]. left. auto.
  - destruct (m_result_ptr eb) as [ptr|] eqn:Hp.
    + intros _ Hr. apply bind_Some in Hr as (v & fb1 & Hl & [= <- <-]).
      unfold CreateLoad in Hl. destruct (vty ptr); try discriminate Hl.
      unfold InsertCurrent, Insert in Hl.
      case_bool_decide; [|discriminate]. injection Hl as <- <-.
      eexists _, [_]. cbn.
      split; [reflexivity|].
      split; [|split; [reflexivity|split; [reflexivity|right;
        split; [reflexivity|eexists _, _; split; [reflexivity|split;
          [reflexivity|auto]]]]]].
      constructor; [|constructor]. split; cbn; eauto.
    + rewrite !bool_decide_eq_false_2 by (intros [? [=]]). discriminate.
Qed.

Lemma map_ival_addIncomingTo phi V BB (l : list Instruction) :
  map ival (map (addIncomingTo phi V BB) l) = map ival l.
Proof.
  induction l as [|J l IH]; [reflexivity|]. cbn. rewrite IH. f_equal.
  unfold addIncomingTo. now destruct (_ && _).
Qed.

(** X14: the diamond of a logical expression.  A lowering of
    [lhs op rhs] that succeeds has lowered [lhs] in the given builder,
    opened a new block [rhs_begin], and lowered [rhs] from there.  With
    [lhs_end] and [rhs_end] the blocks that were current when the
    lowerings of [lhs] and of [rhs] ended, and [merge] the second new
    block, it ends [lhs_end], after the instructions that block held,
    with a conditional branch on the value of [lhs]: to [rhs_end] and
    [merge] for AND, to [merge] and [rhs_end] for OR; it ends [rhs_end]
    with a branch to [merge]; and [merge] holds a PHI node, the result,
    with the constant false (AND) or true (OR) incoming from [lhs_end]
    and the value of [rhs] incoming from [rhs_end].  The branch goes to
    the block in which the lowering of [rhs] ended: this is [rhs_begin]
    when that lowering opens no block, and a later block otherwise.  The
    value of an operand is the one its builder holds or, when the builder
    holds a pointer, one load of it, which stands in [merge], before the
    PHI node for [lhs] and after it for [rhs].  When the builder of
    [lhs] holds a value, an execution that is at the conditional branch
    and has false (AND) or true (OR) for that value reaches the PHI node
    through [merge] alone: it enters no other block, makes no call, and
    the PHI node yields that value. *)
Theorem LogicalExpression_short_circuit Target t lhs op rhs fb eb fb' :
  wf fb ->
  Visit Target (LogicalExpression t lhs op rhs) fb = Some (eb, fb') ->
  exists eb_l fb1 fb2 eb_r fb3 (BL BR : BasicBlock)
         lhs_end rhs_begin rhs_end merge (TermL TermR Phi : Instruction)
         pre_lhs pre_rhs before after cond rv,
    Visit Target lhs fb = Some (eb_l, fb1) /\
    NewBasicBlock "" fb1 = Some (lhs_end, fb2) /\
    Visit Target rhs fb2 = Some (eb_r, fb3) /\
    lhs_end = m_current_basic_block fb1 /\
    rhs_begin = length (m_blocks fb1) /\
    rhs_end = m_current_basic_block fb3 /\
    merge = length (m_blocks fb3) /\
    rhs_begin <= rhs_end /\
    (length (m_blocks fb3) = S (length (m_blocks fb1)) ->
     rhs_end = rhs_begin) /\
    length (m_blocks fb') = S (length (m_blocks fb3)) /\
    m_blocks fb3 !! lhs_end = Some BL /\
    m_blocks fb3 !! rhs_end = Some BR /\
    map ival pre_lhs = map ival (binsts BL) /\
    map ival pre_rhs = map ival (binsts BR) /\
    ((m_result_value eb_l = Some cond /\ before = [])
     \/ (m_result_value eb_l = None /\
         exists ptr (ld : Instruction),
           m_result_ptr eb_l = Some ptr /\ before = [ld] /\ cond = ival ld /\
           iop ld = Load /\ operands ld = [ptr])) /\
    ((m_result_value eb_r = Some rv /\ after = [])
     \/ (m_result_value eb_r = None /\
         exists ptr (ld : Instruction),
           m_result_ptr eb_r = Some ptr /\ after = [ld] /\ rv = ival ld /\
           iop ld = Load /\ operands ld = [ptr])) /\
    lhs_end < rhs_end /\ rhs_end < merge /\
    binsts <$> m_blocks fb' !! lhs_end = Some (pre_lhs ++ [TermL])%list /\
    iop TermL = Br /\ operands TermL = [cond] /\
    map vid (successors TermL)
    = match op with
      | Logical.And => [rhs_end; merge]
      | Logical.Or => [merge; rhs_end]
      end /\
    binsts <$> m_blocks fb' !! rhs_end = Some (pre_rhs ++ [TermR])%list /\
    iop TermR = Br /\ operands TermR = [] /\
    map vid (successors TermR) = [merge] /\
    binsts <$> m_blocks fb' !! merge = Some (before ++ [Phi] ++ after)%list /\
    Forall is_load before /\ Forall is_load after /\
    iop Phi = PHI /\
    operands Phi
    = [getInt1 (match op with Logical.And => false | Logical.Or => true end);
       rv] /\
    incoming_blocks Phi = [lhs_end; rhs_end] /\
    m_result_value eb = Some (ival Phi) /\
    forall extern m,
      m_result_value eb_l = Some cond ->
      cur_bb m = lhs_end -> pc m = length pre_lhs ->
      eval m cond = Some (short_circuit_value op) ->
      exists m',
        run extern 2 (m_blocks fb') m = Some m' /\
        cur_bb m' = merge /\ pc m' = 1 /\
        env m' !! vaddr (ival Phi) = Some (short_circuit_value op) /\
        trace m' = trace m /\ visited m' = (visited m ++ [merge])%list.
Proof.
  intros Hw H. cbn [Visit] in H.
  apply bind_Some in H as (eb_l & fb1 & Hl & H).
  destruct (negb _); [discriminate|].
  apply bind_Some in H as (L & fb2 & HN1 & H).
  apply bind_Some in H as (eb_r & fb3 & Hr & H).
  apply bind_Some in H as (R & fb4 & HN2 & H).
  apply bind_Some in H as (M & fb4' & HM & H).
  injection HM as <- <-.
  apply bind_Some in H as (l & fb5 & HGl & H).
  apply bind_Some in H as (cond & fb5' & Hc & H).
  apply lift_Some in Hc as (cond' & Hc & [= <- <-]).
  apply bind_Some in H as (u1 & fb6 & HCB & H).
  apply bind_Some in H as (u2 & fb7 & HBr & H).
  apply bind_Some in H as (phi & fb8 & HPhi & H).
  apply bind_Some in H as (u3 & fb9 & HA1 & H).
  apply bind_Some in H as (r & fb10 & HGr & H).
  apply bind_Some in H as (rv & fb10' & Hrv & H).
  apply lift_Some in Hrv as (rv' & Hrv & [= <- <-]).
  apply bind_Some in H as (u4 & fb11 & HA2 & H).
  unfold finish in H. cbn in H. injection H as <- <-.
  (* the invariant along the way *)
  assert (G1 := proj1 (Visit_Grows Target) lhs _ _ _ Hl Hw).
  destruct G1 as (Hw1 & Hlen1 & Hcur1).
  assert (G2 := Grows_NewBasicBlock _ _ _ _ HN1 Hw1).
  destruct G2 as (Hw2 & Hlen2 & Hcur2).
  assert (G3 := proj1 (Visit_Grows Target) rhs _ _ _ Hr Hw2).
  destruct G3 as (Hw3 & Hlen3 & Hcur3).
  assert (G4 := Grows_NewBasicBlock _ _ _ _ HN2 Hw3).
  destruct G4 as (Hw4 & Hlen4 & Hcur4).
  assert (G5 := Grows_GetResultValue _ _ _ _ HGl Hw4).
  destruct G5 as (Hw5 & Hlen5 & Hcur5).
  assert (HN1' := HN1).
  apply NewBasicBlock_inv in HN1 as (-> & Hb2 & Hc2).
  apply NewBasicBlock_inv in HN2 as (-> & Hb4 & Hc4).
  destruct (GetResultValue_cases _ _ _ _ (Visit_Valid _ _ _ _ _ Hl) HGl)
    as (cond0 & before & Hcond & Hbefore & Hb5 & Hc5 & Hcase_l).
  rewrite Hc in Hcond. injection Hcond as <-.
  set (L := m_current_basic_block fb1) in *.
  set (R := m_current_basic_block fb3) in *.
  set (M := m_current_basic_block fb4) in *.
  assert (HLR : L < R) by (destruct Hw1 as [? _]; lia).
  assert (HRM : R < M) by (destruct Hw3 as [? _]; lia).
  assert (HCB' : exists IfTrue IfFalse,
    Insert L Br VoidTy "" [cond] [IfTrue; IfFalse] fb5' = Some (u1, fb6) /\
    map vid [IfTrue; IfFalse]
    = match op with
      | Logical.And => [R; M]
      | Logical.Or => [M; R]
      end).
  { destruct op; unfold CreateCondBr in HCB; eexists _, _;
      (split; [exact HCB|]); cbn; now rewrite !(blockOf_vid _ _ Hw5). }
  destruct HCB' as (IfTrue & IfFalse & HCB' & Hsucc). clear HCB.
  destruct (Grows_Insert _ _ _ _ _ _ _ _ _ HCB' Hw5) as (Hw6 & _ & _).
  apply Insert_inv in HCB' as (HL5 & _ & Hb6 & Hc6).
  unfold CreateBr in HBr.
  apply Insert_inv in HBr as (HR6 & _ & Hb7 & Hc7).
  unfold CreatePHI, InsertCurrent in HPhi.
  apply Insert_inv in HPhi as (HM7 & Hphi & Hb8 & Hc8).
  apply addIncoming_inv in HA1 as (Hb9 & Hc9).
  assert (HcM : m_current_basic_block fb9 = M) by congruence.
  assert (HVr : IsValid eb_r = true) by exact (Visit_Valid _ _ _ _ _ Hr).
  destruct (GetResultValue_cases _ _ _ _ HVr HGr)
    as (rv0 & after & Hrv0 & Hafter & Hb10 & Hc10 & Hcase_r).
  rewrite Hrv in Hrv0. injection Hrv0 as <-.
  apply addIncoming_inv in HA2 as (Hb11 & Hc11).
  rewrite HcM in Hb10. rewrite Hc7, Hc6, Hc5 in Hb8, Hphi.
  (* the instructions of a block of the result *)
  assert (Hblocks : forall i,
    binsts <$> m_blocks fb11 !! i
    = map (addIncomingTo phi rv R) <$>
      ((fun insts => if decide (M = i) then (insts ++ after)%list else insts) <$>
      (map (addIncomingTo phi (getInt1 match op with
                                       | Logical.And => false
                                       | Logical.Or => true
                                       end) L) <$>
      ((fun insts => if decide (M = i)
         then (insts ++ [newInstruction (m_next_value fb7) M PHI
                           (GetLLVMType t) "" [] []])%list else insts) <$>
      ((fun insts => if decide (R = i)
         then (insts ++ [newInstruction (m_next_value fb6) R Br VoidTy ""
                           [] [blockOf fb6 M]])%list else insts) <$>
      ((fun insts => if decide (L = i)
         then (insts ++ [newInstruction (m_next_value fb5') L Br VoidTy ""
                           [cond] [IfTrue; IfFalse]])%list else insts) <$>
      ((fun insts => if decide (M = i) then (insts ++ before)%list else insts) <$>
      (binsts <$> (m_blocks fb3 ++
         [{| bval := blockValue (length (m_blocks fb3)) "";
             binsts := [] |}])%list !! i)))))))).
  { intros i. rewrite Hb11, binsts_addIncomingIn, Hb10, binsts_appendList,
      Hb9, binsts_addIncomingIn, Hb8, binsts_appendList, Hb7,
      binsts_appendList, Hb6, binsts_appendList, Hb5, binsts_appendList, Hb4.
    reflexivity. }
  assert (Hlen' : length (m_blocks fb11) = S (length (m_blocks fb3))).
  { rewrite Hb11, length_map, Hb10. unfold appendList.
    rewrite length_alter, Hb9, length_map, Hb8. unfold appendList.
    rewrite length_alter, Hb7. unfold appendList.
    rewrite length_alter, Hb6. unfold appendList.
    rewrite length_alter, Hb5. unfold appendList.
    rewrite length_alter, Hb4, length_app. cbn. lia. }
  destruct (lookup_lt_is_Some_2 (m_blocks fb3) L) as [BL HBL]; [lia|].
  destruct (lookup_lt_is_Some_2 (m_blocks fb3) R) as [BR HBR]; [lia|].
  set (c := getInt1 match op with
                    | Logical.And => false
                    | Logical.Or => true
                    end) in *.
  set (TermL := newInstruction (m_next_value fb5') L Br VoidTy ""
                  [cond] [IfTrue; IfFalse]) in *.
  set (TermR := newInstruction (m_next_value fb6) R Br VoidTy ""
                  [] [blockOf fb6 M]) in *.
  set (Phi0 := newInstruction (m_next_value fb7) M PHI (GetLLVMType t) ""
                 [] []) in *.
  set (f := addIncomingTo phi c L) in *.
  set (g := addIncomingTo phi rv R) in *.
  assert (HL : binsts <$> m_blocks fb11 !! L
               = Some (map g (map f (binsts BL)) ++ [TermL])%list).
  { rewrite Hblocks, lookup_app_l, HBL by lia. cbn.
    repeat (destruct (decide _); try lia). rewrite !map_app. cbn [map].
    replace (f TermL) with TermL
      by (symmetry; apply addIncomingTo_other; reflexivity).
    replace (g TermL) with TermL
      by (symmetry; apply addIncomingTo_other; reflexivity).
    reflexivity. }
  assert (HR : binsts <$> m_blocks fb11 !! R
               = Some (map g (map f (binsts BR)) ++ [TermR])%list).
  { rewrite Hblocks, lookup_app_l, HBR by lia. cbn.
    repeat (destruct (decide _); try lia). rewrite !map_app. cbn [map].
    replace (f TermR) with TermR
      by (symmetry; apply addIncomingTo_other; reflexivity).
    replace (g TermR) with TermR
      by (symmetry; apply addIncomingTo_other; reflexivity).
    reflexivity. }
  assert (HM : binsts <$> m_blocks fb11 !! M
               = Some (before ++ [g (f Phi0)] ++ after)%list).
  { rewrite Hblocks, lookup_app_r by lia.
    replace (M - length (m_blocks fb3)) with 0 by lia. cbn.
    repeat (destruct (decide _); try lia).
    rewrite !map_app, <- app_assoc. cbn.
    unfold f, g.
    now rewrite (map_addIncomingTo_loads phi c L before Hbefore),
      (map_addIncomingTo_loads phi rv R before Hbefore),
      (map_addIncomingTo_loads phi rv R after Hafter). }
  assert (HPhi : operands (g (f Phi0)) = [c; rv]
                 /\ incoming_blocks (g (f Phi0)) = [L; R]
                 /\ iop (g (f Phi0)) = PHI /\ ival (g (f Phi0)) = phi).
  { unfold g, f, addIncomingTo. rewrite Hphi. cbn.
    rewrite Nat.eqb_refl. cbn. rewrite Nat.eqb_refl. cbn. auto. }
  destruct HPhi as (Hops & Hinc & HopP & HivP).
  exists eb_l, fb1, fb2, eb_r, fb3, BL, BR, L, (length (m_blocks fb1)), R, M,
    TermL, TermR, (g (f Phi0)),
    (map g (map f (binsts BL))), (map g (map f (binsts BR))),
    before, after, cond, rv.
  split; [exact Hl|]. split; [exact HN1'|]. split; [exact Hr|].
  split; [reflexivity|]. split; [reflexivity|]. split; [reflexivity|].
  split; [subst M; lia|]. split; [subst R; lia|].
  split; [intros Hno; destruct Hw3 as [Hw3 _]; subst R; lia|].
  split; [exact Hlen'|]. split; [exact HBL|]. split; [exact HBR|].
  split; [unfold g, f; now rewrite !map_ival_addIncomingTo|].
  split; [unfold g, f; now rewrite !map_ival_addIncomingTo|].
  split; [exact Hcase_l|]. split; [exact Hcase_r|].
  repeat match goal with |- _ /\ _ => split end;
    try assumption; try reflexivity.
  - cbn. now rewrite (blockOf_vid _ _ Hw6).
  - cbn. now rewrite HivP.
  - intros extern m Hval Hcur Hpc Hev.
    assert (Hnil : before = [])
      by (destruct Hcase_l as [[_ E]|[E _]]; [exact E | congruence]).
    apply fmap_Some in HL as (BL' & HBL' & HiL).
    apply fmap_Some in HM as (BM' & HBM' & HiM).
    assert (Hdest : vid (if (short_circuit_value op =? 0)%Z
                         then IfFalse else IfTrue) = M)
      by (destruct op; cbn in Hsucc |- *; congruence).
    set (dest := if (short_circuit_value op =? 0)%Z
                 then IfFalse else IfTrue) in *.
    assert (Hstep1 : step extern (m_blocks fb11) m = Some (jump m dest)).
    { unfold step. rewrite Hcur, HBL'. cbn. rewrite <- HiL, Hpc.
      rewrite lookup_app_r by lia. rewrite Nat.sub_diag. cbn.
      rewrite Hev. reflexivity. }
    destruct (run_loads extern (m_blocks fb11) before (jump m dest) BM'
                [] ([g (f Phi0)] ++ after)%list)
      as (m2 & Hrun2 & Hpc2 & Hcur2' & Hprev2 & Htr2 & Hvis2 & _).
    { cbn. now rewrite Hdest. }
    { now rewrite <- HiM. }
    { reflexivity. }
    { exact Hbefore. }
    cbn in Hpc2, Hcur2', Hprev2, Htr2, Hvis2.
    assert (Hstep3 : step extern (m_blocks fb11) m2
      = Some (next m2 (<[vaddr phi := short_circuit_value op]> (env m2))
                (mem m2) (trace m2))).
    { unfold step. rewrite Hcur2', Hdest, HBM'. cbn. rewrite <- HiM, Hpc2.
      rewrite lookup_app_r by lia. rewrite Nat.sub_diag. cbn.
      rewrite HopP. unfold getIncomingValueForBlock.
      rewrite Hinc, Hops, Hprev2, Hcur. cbn. rewrite Nat.eqb_refl. cbn.
      rewrite HivP. now destruct op. }
    eexists. split; [|split; [|split; [|split; [|split]]]].
    + replace 2 with (1 + (length before + 1))
        by (rewrite Hnil; reflexivity).
      rewrite run_add. cbn [run]. rewrite Hstep1. cbn.
      rewrite run_add, Hrun2. cbn. rewrite Hstep3. reflexivity.
    + cbn. congruence.
    + cbn. rewrite Hpc2, Hnil. reflexivity.
    + cbn. rewrite HivP. apply lookup_insert_eq.
    + cbn. exact Htr2.
    + cbn. now rewrite Hvis2, Hdest.
Qed.

(** C5: for [a && b] on two boolean variables the lowering does not give
    the short-circuit diamond.  The load that reads [a] is created only
    when the conditional branch is, after the merge block has become the
    current block: the entry block ends with a branch on a value that the
    first instruction of the merge block computes, the merge block is the
    load of [a], the PHI node and the load of [b], and an execution that
    has reached the branch with [a] false has no value to branch on: it
    does not reach the PHI node. *)
Theorem LogicalExpression_variable_operands :
  exists eb fb' (TermL load_a Phi load_b : Instruction),
    Visit ExampleTarget a_and_b fb_ab = Some (eb, fb') /\
    binsts <$> m_blocks fb' !! 0 = Some [slot_a; slot_b; TermL] /\
    iop TermL = Br /\ operands TermL = [ival load_a] /\
    map vid (successors TermL) = [1; 2] /\
    binsts <$> m_blocks fb' !! 2 = Some [load_a; Phi; load_b] /\
    iop load_a = Load /\ operands load_a = [ival slot_a] /\
    iop Phi = PHI /\ operands Phi = [getInt1 false; ival load_b] /\
    incoming_blocks Phi = [0; 1] /\
    iop load_b = Load /\ operands load_b = [ival slot_b] /\
    m_result_value eb = Some (ival Phi) /\
    forall extern n,
      run extern (S n) (m_blocks fb') at_branch = None.
Proof.
  do 6 eexists.
  split; [vm_compute; reflexivity|].
  repeat match goal with |- _ /\ _ => split end.
  all: try reflexivity.
  all: reflexivity.
Qed.

(** The executions of [f() && g()] and [f() || g()]: the calls made and
    the blocks entered up to the PHI node. *)
Example f_and_g_runs :
  observe f_false 3 f_and_g = Some ([("f", [])], [0; 2]) /\
  observe all_true 4 f_and_g = Some ([("f", []); ("g", [])], [0; 1; 2]) /\
  observe all_true 3 f_or_g = Some ([("f", [])], [0; 2]) /\
  observe f_false 4 f_or_g = Some ([("f", []); ("g", [])], [0; 1; 2]).
Proof. repeat split; vm_compute; reflexivity. Qed.

(** ** Further properties of the code *)
Import ConstantString Invariants LocalExamples.

(** *** Names are identifiers *)


Lemma CBEMangle_fixed (s : string) :
  string_forall is_c_identifier_char s = true -> CBEMangle s = s.
Proof.
  induction s as [|c s IH]; [reflexivity|]. cbn [string_forall CBEMangle].
  intros [Hc Hs]%andb_true_iff. rewrite (IH Hs).
  unfold CBEMangle_char. unfold is_c_identifier_char in Hc. now rewrite Hc.
Qed.

Lemma VarName_fixed (s : string) :
  string_forall is_c_identifier_char s = true -> VarName s = s.
Proof.
  induction s as [|c s IH]; [reflexivity|]. cbn [string_forall VarName].
  intros [Hc Hs]%andb_true_iff. rewrite (IH Hs).
  destruct c as [[] [] [] [] [] [] [] []];
    first [ discriminate Hc | reflexivity ].
Qed.

(** X1: the name the emitter gives a value holds letters, digits and
    underscores only, and the name of a value that is no global value
    begins with [llvm_cbe_].  The name of a global value is escaped and
    nothing more: when it is not empty and holds such characters only, it
    is emitted as it is, also when it begins with a digit or is a word
    of C, so the name of a global value need not be a C identifier. *)
Theorem GetValueName_identifier (Operand : Value) (st : EState) s st' :
  GetValueName Operand st = Some (s, st') ->
  string_forall is_c_identifier_char s = true
  /\ (isaGlobalValue
        (match vkind Operand with KGlobalAlias GA => GA | _ => Operand end)
      = false ->
      exists t, s = "llvm_cbe_" +:+ t)
  /\ (isaGlobalValue
        (match vkind Operand with KGlobalAlias GA => GA | _ => Operand end)
      = true ->
      vname (match vkind Operand with KGlobalAlias GA => GA | _ => Operand end)
      <> "" ->
      string_forall is_c_identifier_char
        (vname (match vkind Operand with
                | KGlobalAlias GA => GA
                | _ => Operand
                end)) = true ->
      s = vname (match vkind Operand with
                 | KGlobalAlias GA => GA
                 | _ => Operand
                 end)
      /\ st' = st).
Proof.
  unfold GetValueName.
  set (V := match vkind Operand with KGlobalAlias GA => GA | _ => Operand end).
  intros H. apply bind_Some in H as (Name & st1 & HN & H).
  destruct (isaGlobalValue V); injection H as <- <-;
    (split; [|split]).
  - apply CBEMangle_identifier.
  - discriminate.
  - intros _ Hne Hid.
    destruct (vname V) as [|c n] eqn:E; [now destruct Hne|].
    cbn [is_empty_string] in HN. injection HN as <- <-.
    split; [now apply CBEMangle_fixed | reflexivity].
  - change "llvm_cbe_" with (VarName "llvm_cbe_"). rewrite <- VarName_app.
    apply VarName_identifier.
  - eauto.
  - discriminate.
Qed.

Lemma GetValueName_identifier_witness :
  (string_forall is_c_identifier_char "llvm_cbe_x_2e_y" = true
   /\ exists t, "llvm_cbe_x_2e_y" = "llvm_cbe_" +:+ t)
  /\ GetValueName (mkValue 1 KFunction "9lives" VoidTy) initial_state
     = Some ("9lives", initial_state).
Proof.
  split.
  - destruct (GetValueName_identifier
                (mkValue 7 KInstruction "x.y" (IntegerTy 32)) initial_state
                "llvm_cbe_x_2e_y" initial_state eq_refl) as (H1 & H2 & _).
    split; [exact H1 | exact (H2 eq_refl)].
  - destruct (GetValueName
                (mkValue 1 KFunction "9lives" VoidTy) initial_state)
      as [[s st']|] eqn:H; [|discriminate H].
    destruct (GetValueName_identifier _ _ _ _ H) as (_ & _ & H3).
    destruct H3 as [-> ->]; [reflexivity | discriminate | reflexivity |].
    reflexivity.
Defined.

(** X2: both escapes are projections: a name that needs no escape is left
    as it is, and escaping an escaped name changes nothing.  So a name
    with a character to escape and its escaped form are two names with one
    emitted name: two global values so named are given the same C name. *)
Theorem CBEMangle_idempotent (s : string) :
  CBEMangle (CBEMangle s) = CBEMangle s
  /\ VarName (VarName s) = VarName s
  /\ (CBEMangle s = s <-> string_forall is_c_identifier_char s = true)
  /\ (VarName s = s <-> string_forall is_c_identifier_char s = true)
  /\ (forall V1 V2 st,
        isaGlobalValue V1 = true -> isaGlobalValue V2 = true ->
        (forall GA, vkind V1 <> KGlobalAlias GA) ->
        (forall GA, vkind V2 <> KGlobalAlias GA) ->
        vname V1 = s -> s <> "" -> vname V2 = CBEMangle s ->
        GetValueName V2 st = GetValueName V1 st).
Proof.
  split; [|split; [|split; [|split]]].
  - apply CBEMangle_fixed, CBEMangle_identifier.
  - apply VarName_fixed, VarName_identifier.
  - split; [|apply CBEMangle_fixed].
    intros H. rewrite <- H. apply CBEMangle_identifier.
  - split; [|apply VarName_fixed].
    intros H. rewrite <- H. apply VarName_identifier.
  - intros V1 V2 st H1 H2 A1 A2 N1 Hs N2. unfold GetValueName.
    assert (R1 : match vkind V1 with KGlobalAlias GA => GA | _ => V1 end = V1)
      by (destruct (vkind V1) eqn:E; try reflexivity; now destruct (A1 aliasee)).
    assert (R2 : match vkind V2 with KGlobalAlias GA => GA | _ => V2 end = V2)
      by (destruct (vkind V2) eqn:E; try reflexivity; now destruct (A2 aliasee)).
    rewrite R1, R2, H1, H2, N1, N2.
    assert (E1 : is_empty_string s = false) by (destruct s; [congruence | reflexivity]).
    assert (E2 : is_empty_string (CBEMangle s) = false).
    { destruct s as [|c s']; [congruence|]. cbn [CBEMangle].
      unfold CBEMangle_char. destruct (isalnum c || is_underscore c); reflexivity. }
    rewrite E1, E2. unfold bind, ret.
    now rewrite (CBEMangle_fixed _ (CBEMangle_identifier s)).
Qed.

Lemma CBEMangle_idempotent_witness :
  GetValueName (mkValue 1 KFunction "f_OC_g" VoidTy) initial_state
  = GetValueName (mkValue 2 KFunction "f.g" VoidTy) initial_state.
Proof.
  refine (proj2 (proj2 (proj2 (proj2 (CBEMangle_idempotent "f.g"))))
            (mkValue 2 KFunction "f.g" VoidTy)
            (mkValue 1 KFunction "f_OC_g" VoidTy) initial_state
            eq_refl eq_refl _ _ eq_refl _ eq_refl);
    try (intros GA; discriminate); discriminate.
Defined.

Lemma anonValueNumber_ok V st No st' :
  anon_ok st -> anonValueNumber V st = Some (No, st') ->
  anon_ok st' /\ AnonValueNumbers st' !! vaddr V = Some No /\ 0 < No
  /\ NextAnonValueNumber st <= NextAnonValueNumber st'
  /\ (forall a n, AnonValueNumbers st !! a = Some (S n) ->
                  AnonValueNumbers st' !! a = Some (S n)).
Proof.
  intros [Hle Hinj].
  assert (Hnew : (forall n, AnonValueNumbers st !! vaddr V <> Some (S n)) ->
    let m := <[vaddr V := S (NextAnonValueNumber st)]> (AnonValueNumbers st) in
    ((forall a n, m !! a = Some n -> n <= S (NextAnonValueNumber st))
     /\ (forall a b n, m !! a = Some (S n) -> m !! b = Some (S n) -> a = b))
    /\ m !! vaddr V = Some (S (NextAnonValueNumber st))
    /\ 0 < S (NextAnonValueNumber st)
    /\ NextAnonValueNumber st <= S (NextAnonValueNumber st)
    /\ (forall a n, AnonValueNumbers st !! a = Some (S n) ->
                    m !! a = Some (S n))).
  { intros Hno m. subst m. split; [split|split; [|split; [|split]]].
    - intros a n. destruct (decide (a = vaddr V)) as [->|Ha].
      + rewrite lookup_insert_eq. intros [= <-]. lia.
      + rewrite lookup_insert_ne by congruence. intros H.
        specialize (Hle _ _ H). lia.
    - intros a b n.
      destruct (decide (a = vaddr V)) as [->|Ha],
               (decide (b = vaddr V)) as [->|Hb];
        rewrite ?lookup_insert_eq, ?lookup_insert_ne by congruence;
        try reflexivity.
      + intros [= <-] H. specialize (Hle _ _ H). lia.
      + intros H [= <-]. specialize (Hle _ _ H). lia.
      + apply Hinj.
    - apply lookup_insert_eq.
    - lia.
    - lia.
    - intros a n H. destruct (decide (a = vaddr V)) as [->|Ha].
      + now destruct (Hno n).
      + now rewrite lookup_insert_ne by congruence. }
  unfold anonValueNumber.
  destruct (AnonValueNumbers st !! vaddr V) as [[|n]|] eqn:E;
    intros [= <- <-]; cbn [AnonValueNumbers NextAnonValueNumber].
  - apply Hnew. intros n. discriminate.
  - split; [split; assumption|]. split; [exact E|].
    split; [lia|]. split; [lia|]. auto.
  - apply Hnew. intros n. discriminate.
Qed.

Lemma append_inj_l (p a b : string) : p +:+ a = p +:+ b -> a = b.
Proof.
  induction p as [|c p IH]; [auto|]. rewrite !append_String.
  intros [= H]. auto.
Qed.

(** X3: the numbers of the values without a name.  From the initial state
    on, the emitter's table holds no number above its counter and no
    number twice, whatever is named; a value keeps the name it was given;
    and two values without a name, neither of them a global value, are
    never given the same name. *)
Theorem GetValueName_anonymous_distinct :
  anon_ok initial_state
  /\ (forall V st s st',
        anon_ok st -> GetValueName V st = Some (s, st') ->
        anon_ok st' /\ GetValueName V st' = Some (s, st'))
  /\ (forall V1 V2 st s1 st1 s2 st2,
        anon_ok st ->
        vname V1 = "" -> vname V2 = "" ->
        isaGlobalValue V1 = false -> isaGlobalValue V2 = false ->
        vaddr V1 <> vaddr V2 ->
        GetValueName V1 st = Some (s1, st1) ->
        GetValueName V2 st1 = Some (s2, st2) ->
        s1 <> s2 /\ GetValueName V1 st2 = Some (s1, st2)).
Proof.
  split; [|split].
  - split; cbn; intros a; intros;
      match goal with
      | H : _ !! _ = Some _ |- _ => rewrite lookup_empty in H; discriminate H
      end.
  - intros V st s st' Hok H. split.
    + unfold GetValueName in H.
      set (W := match vkind V with KGlobalAlias GA => GA | _ => V end) in *.
      apply bind_Some in H as (Name & st1 & HN & H).
      assert (st' = st1) by (destruct (isaGlobalValue W); now injection H).
      subst st1. destruct (is_empty_string (vname W)).
      * apply bind_Some in HN as (No & st1 & HNo & [= _ <-]).
        exact (proj1 (anonValueNumber_ok _ _ _ _ Hok HNo)).
      * injection HN as _ <-. exact Hok.
    + exact (proj2 (GetValueName_stable _ _ _ _ H)).
  - intros V1 V2 st s1 st1 s2 st2 Hok N1 N2 G1 G2 Hne H1 H2.
    assert (K1 : match vkind V1 with KGlobalAlias GA => GA | _ => V1 end = V1)
      by (unfold isaGlobalValue in G1; destruct (vkind V1); congruence).
    assert (K2 : match vkind V2 with KGlobalAlias GA => GA | _ => V2 end = V2)
      by (unfold isaGlobalValue in G2; destruct (vkind V2); congruence).
    assert (Hname : forall V st s st', vname V = "" ->
              isaGlobalValue V = false ->
              match vkind V with KGlobalAlias GA => GA | _ => V end = V ->
              GetValueName V st = Some (s, st') ->
              exists No, anonValueNumber V st = Some (No, st')
                         /\ s = "llvm_cbe_tmp__" +:+ utostr No).
    { intros V st0 s st0' HN HG HK H. unfold GetValueName in H.
      rewrite HK, HN, HG in H. cbn [is_empty_string] in H.
      apply bind_Some in H as (Name & st3 & HNo & [= <- <-]).
      apply bind_Some in HNo as (No & st4 & HNo & [= <- <-]).
      exists No. split; [exact HNo|].
      change "llvm_cbe_tmp__" with ("llvm_cbe_" +:+ "tmp__").
      now rewrite append_assoc', VarName_app, VarName_utostr. }
    destruct (Hname _ _ _ _ N1 G1 K1 H1) as (No1 & A1 & ->).
    destruct (Hname _ _ _ _ N2 G2 K2 H2) as (No2 & A2 & ->).
    destruct (anonValueNumber_ok _ _ _ _ Hok A1)
      as (Hok1 & L1 & P1 & _ & _).
    destruct (anonValueNumber_ok _ _ _ _ Hok1 A2)
      as (Hok2 & L2 & P2 & _ & Keep).
    destruct No1 as [|n1]; [lia|]. destruct No2 as [|n2]; [lia|].
    split.
    + intros E. apply append_inj_l in E. unfold utostr in E.
      apply (inj pretty) in E. injection E as ->.
      apply Hne. exact (proj2 Hok2 _ _ _ (Keep _ _ L1) L2).
    + unfold GetValueName. rewrite K1, N1, G1. cbn [is_empty_string].
      unfold bind, ret, anonValueNumber. rewrite (Keep _ _ L1).
      change "llvm_cbe_tmp__" with ("llvm_cbe_" +:+ "tmp__").
      now rewrite append_assoc', VarName_app, VarName_utostr.
Qed.

Lemma GetValueName_anonymous_distinct_witness :
  exists s1 st1 s2 st2,
    GetValueName (mkValue 1 KInstruction "" (IntegerTy 32)) initial_state
    = Some (s1, st1)
    /\ GetValueName (mkValue 2 KInstruction "" (IntegerTy 32)) st1
       = Some (s2, st2)
    /\ s1 <> s2.
Proof.
  eexists _, _, _, _. split; [reflexivity|]. split; [reflexivity|].
  destruct GetValueName_anonymous_distinct as (Hok & _ & H).
  refine (proj1 (H (mkValue 1 KInstruction "" (IntegerTy 32))
                   (mkValue 2 KInstruction "" (IntegerTy 32))
                   initial_state _ _ _ _ Hok eq_refl eq_refl eq_refl eq_refl
                   _ eq_refl eq_refl)).
  discriminate.
Defined.

(** *** Stores, local variables, returns and labels *)


(** X4: the widths up to 64 bits that are stored without a mask are 8,
    16, 32 and 64; a store of a value of one of these widths is printed as
    [ptr = value], and a store of a value of any other width up to 32 bits
    as [ptr = ((value) & m)] with [m = 2^width - 1]. *)
Theorem visitStoreInst_mask_upto_32 F visit pco (I : Instruction)
  Operand Ptr rest (w : N) st a st1 :
  operands I = Operand :: Ptr :: rest -> vty Operand = IntegerTy w ->
  (1 <= w <= 64)%N ->
  writeMemoryAccess F visit pco Ptr (vty Operand) (isVolatile I) st
  = Some (a, st1) ->
  (isPowerOf2ByteWidth w = true <-> In w [8; 16; 32; 64]%N) /\
  (In w [8; 16; 32; 64]%N -> forall s st2,
     writeOperand F visit pco Operand ContextCasted st1 = Some (s, st2) ->
     visitStoreInst F visit pco I st = Some (a +:+ " = " +:+ s, st2)) /\
  (~ In w [8; 16; 32; 64]%N -> (w <= 32)%N -> forall s st2,
     writeOperand F visit pco Operand ContextNormal st1 = Some (s, st2) ->
     visitStoreInst F visit pco I st
     = Some (a +:+ " = " +:+ "((" +:+ s +:+ ") & "
             +:+ pretty (2 ^ Z.of_N w - 1)%Z +:+ ")", st2)).
Proof.
  intros Ho HT Hw Ha.
  assert (Hp : isPowerOf2ByteWidth w = true <-> In w [8; 16; 32; 64]%N).
  { assert (H := N_range_check
      (fun w => Bool.eqb (isPowerOf2ByteWidth w)
                  (existsb (N.eqb w) [8; 16; 32; 64]%N)) 1 64 eq_refl w).
    cbv beta in H. apply Bool.eqb_prop in H; [|lia]. rewrite H.
    rewrite existsb_exists. split.
    - intros (x & Hx & ->%N.eqb_eq). exact Hx.
    - intros Hx. exists w. split; [exact Hx | apply N.eqb_refl]. }
  split; [exact Hp|]. split.
  - intros Hin s st2 Hs.
    rewrite (visitStoreInst_shape F visit pco I Operand Ptr rest st a st1
               0%Z s st2 Ho Ha);
      [now rewrite append_empty_r | | exact Hs].
    rewrite HT. apply oddWidthMask_power_of_2. now apply Hp.
  - intros Hin H32 s st2 Hs.
    assert (Hnp : isPowerOf2ByteWidth w = false).
    { destruct (isPowerOf2ByteWidth w) eqn:E; [|reflexivity].
      now destruct Hin; apply Hp. }
    destruct (oddWidthMask_upto_32 w ltac:(lia) Hnp) as [Hm Hnz].
    apply Z.eqb_neq in Hnz.
    rewrite (visitStoreInst_shape F visit pco I Operand Ptr rest st a st1
               (spec_mask w) s st2 Ho Ha);
      [ | now rewrite HT | now rewrite Hnz ].
    rewrite Hnz. unfold spec_mask. rewrite Z.shiftl_1_l. reflexivity.
Qed.

Lemma visitStoreInst_mask_upto_32_witness :
  visitStoreInst locals_fn (visit_in locals_fn) no_constant store3
                 initial_state
  = Some ("*llvm_cbe_q = ((llvm_cbe_t) & 7)", initial_state).
Proof.
  refine (proj2 (proj2 (visitStoreInst_mask_upto_32 locals_fn
            (visit_in locals_fn) no_constant store3 arg_t arg_q [] 3
            initial_state "*llvm_cbe_q" initial_state
            eq_refl eq_refl _ eq_refl)) _ _ "llvm_cbe_t" initial_state
            eq_refl).
  - lia.
  - cbn. intros H. repeat (destruct H as [H|H]; [discriminate H|]). exact H.
  - lia.
Defined.

Lemma isDirectAlloca_inst F V AI :
  isDirectAlloca F V = Some AI -> getInst F V = Some AI.
Proof.
  unfold isDirectAlloca. destruct (getInst F V) as [A|]; [|discriminate].
  destruct (negb (isaAllocaInst A)); [discriminate|].
  destruct (isArrayAllocation A); [discriminate|].
  destruct (negb _); [discriminate|]. congruence.
Qed.

(** X5: an alloca of one element in the entry block is a C variable.  As
    an operand it is written as the address of the variable; a load or a
    store through it reads or writes the variable itself, and is not
    marked volatile even when the instruction is; no statement is printed
    for the alloca, and its declaration has the allocated type. *)
Theorem isDirectAlloca_variable F visit pco (AI : Instruction) st n st' :
  isDirectAlloca F (ival AI) = Some AI ->
  GetValueName (ival AI) st = Some (n, st') ->
  (forall Context,
     writeOperand F visit pco (ival AI) Context st
     = Some ("(&" +:+ n +:+ ")", st')) /\
  (forall OperandType IsVolatile,
     writeMemoryAccess F visit pco (ival AI) OperandType IsVolatile st
     = Some (n, st')) /\
  (forall (L : Instruction) rest,
     operands L = ival AI :: rest ->
     visitLoadInst F visit pco L st = Some (n, st')) /\
  (forall (S : Instruction) Operand rest v st'',
     operands S = Operand :: ival AI :: rest ->
     oddWidthMask (vty Operand) = Some 0%Z ->
     writeOperand F visit pco Operand ContextCasted st' = Some (v, st'') ->
     visitStoreInst F visit pco S st = Some (n +:+ " = " +:+ v, st'')) /\
  printInstruction F visit AI st = Some ("", st) /\
  (isFPIntBitCast AI = false ->
   forall T st1 n1 st2,
     printTypeName (allocatedType AI) false st = Some (T, st1) ->
     GetValueName (ival AI) st1 = Some (n1, st2) ->
     printLocal F AI st
     = Some ("  " +:+ T +:+ " " +:+ n1
             +:+ ";    /* Address-exposed local */" +:+ nl, st2)).
Proof.
  intros Hd Hn.
  assert (Hg := isDirectAlloca_inst _ _ _ Hd).
  assert (Hk := getInst_isaInstruction _ _ _ Hg).
  assert (Hexp : isAddressExposed F (ival AI) st = Some (true, st)).
  { unfold isAddressExposed, isaArgument. rewrite Hk, Hd.
    now rewrite orb_true_r. }
  assert (Hint : forall Context,
             writeOperandInternal F visit pco (ival AI) Context st
             = Some (n, st')).
  { intros Context. unfold writeOperandInternal. rewrite Hg, Hd.
    rewrite andb_false_r.
    unfold isaConstant, isaGlobalValue. rewrite Hk. exact Hn. }
  assert (Hmem : forall OperandType IsVolatile,
             writeMemoryAccess F visit pco (ival AI) OperandType IsVolatile st
             = Some (n, st')).
  { intros T vol. unfold writeMemoryAccess, bind. rewrite Hexp. apply Hint. }
  split; [|split; [|split; [|split; [|split]]]].
  - intros Context. unfold writeOperand, bind, ret.
    rewrite Hexp, Hint. reflexivity.
  - exact Hmem.
  - intros L rest HL. unfold visitLoadInst. rewrite HL. apply Hmem.
  - intros S Operand rest v st'' HS Hm Hv.
    rewrite (visitStoreInst_shape F visit pco S Operand (ival AI) rest st n st'
               0%Z v st'' HS (Hmem _ _) Hm Hv).
    now rewrite append_empty_r.
  - unfold printInstruction. rewrite Hd. now rewrite andb_false_r.
  - intros Hb T st1 n1 st2 HT Hn1. unfold printLocal. rewrite Hd, Hb.
    unfold bind, ret. rewrite HT, Hn1. now rewrite append_empty_r.
Qed.

Lemma isDirectAlloca_variable_witness :
  visitLoadInst locals_fn (visit_in locals_fn) no_constant load_x
                initial_state
  = Some ("llvm_cbe_x", initial_state)
  /\ visitStoreInst locals_fn (visit_in locals_fn) no_constant store_x
                    initial_state
     = Some ("llvm_cbe_x = llvm_cbe_a", initial_state).
Proof.
  assert (H := isDirectAlloca_variable locals_fn (visit_in locals_fn)
                 no_constant alloca_x initial_state "llvm_cbe_x"
                 initial_state eq_refl eq_refl).
  split.
  - exact (proj1 (proj2 (proj2 H)) load_x [] eq_refl).
  - exact (proj1 (proj2 (proj2 (proj2 H))) store_x arg_a [] "llvm_cbe_a"
             initial_state eq_refl eq_refl eq_refl).
Defined.

(** X6: what is printed for an instruction that is no direct alloca is
    decided once, by [isInlinableInst]: an instruction that is inlined
    into its uses has no declaration and no statement of its own; an
    instruction that is not inlined has a statement, and a declaration of
    its variable exactly when its type is not empty, in which case the
    statement begins with the assignment to that variable. *)
Theorem printInstruction_printLocal F visit (I : Instruction) st :
  isDirectAlloca F (ival I) = None -> isFPIntBitCast I = false ->
  (isInlinableInst F I = true ->
   printLocal F I st = Some ("", st)
   /\ printInstruction F visit I st = Some ("", st)) /\
  (isInlinableInst F I = false -> isEmptyType (ity I) = true ->
   printLocal F I st = Some ("", st)
   /\ forall s st1,
       writeInstComputationInline visit I st = Some (s, st1) ->
       printInstruction F visit I st
       = Some ("  " +:+ s +:+ ";" +:+ nl, st1)) /\
  (isInlinableInst F I = false -> isEmptyType (ity I) = false ->
   (isaPHINode I = false ->
    forall T st1 n st2,
      printTypeName (ity I) false st = Some (T, st1) ->
      GetValueName (ival I) st1 = Some (n, st2) ->
      printLocal F I st
      = Some ("  " +:+ T +:+ " " +:+ n +:+ ";" +:+ nl, st2))
   /\ forall l st1 s st2,
       outputLValue I st = Some (l, st1) ->
       writeInstComputationInline visit I st1 = Some (s, st2) ->
       printInstruction F visit I st = Some (l +:+ s +:+ ";" +:+ nl, st2)).
Proof.
  intros Hd Hb. unfold printLocal, printInstruction. rewrite Hd, Hb.
  split; [|split].
  - intros ->. rewrite andb_false_r. cbn [negb andb]. split; reflexivity.
  - intros -> ->. cbn [negb andb].
    rewrite bool_decide_eq_false_2 by (intros [? [=]]). cbn [negb andb].
    split; [reflexivity|]. intros s st1 Hs. unfold bind, ret. now rewrite Hs.
  - intros -> ->. cbn [negb andb].
    rewrite bool_decide_eq_false_2 by (intros [? [=]]). cbn [negb andb].
    split.
    + intros -> T st1 n st2 HT Hn. unfold bind, ret. rewrite HT, Hn.
      now rewrite !append_empty_r.
    + intros l st1 s st2 Hl Hs. unfold bind, ret. now rewrite Hl, Hs.
Qed.

Lemma printInstruction_printLocal_witness :
  printLocal shared_cmp cmp_c initial_state = Some ("", initial_state)
  /\ printInstruction shared_cmp (visit_in shared_cmp) cmp_c initial_state
     = Some ("", initial_state).
Proof.
  exact (proj1 (printInstruction_printLocal shared_cmp (visit_in shared_cmp)
                  cmp_c initial_state eq_refl eq_refl) eq_refl).
Defined.

(** X7: a return prints nothing exactly when the function does not return
    a structure through its first parameter, the return has no operand, its
    block is the last of the function and the return is not the first
    instruction of that block.  In a function that returns a structure
    every return prints [return StructReturn;], whatever its operand. *)
Theorem visitReturnInst_empty F visit pco (I : Instruction) st s st' :
  visitReturnInst F visit pco I st = Some (s, st') ->
  (s = "" <->
   hasStructRetAttr F = false /\ operands I = []
   /\ bid <$> last (fblocks F) = Some (iparent I)
   /\ exists B, getBlock F (iparent I) = Some B
                /\ iid <$> head (binsts B) <> Some (iid I))
  /\ (hasStructRetAttr F = true ->
      s = "  return StructReturn;" +:+ nl /\ st' = st).
Proof.
  unfold visitReturnInst.
  destruct (hasStructRetAttr F).
  { intros [= <- <-]. split; [|auto]. split; [discriminate|].
    intros [H _]. discriminate H. }
  set (isLast := bool_decide (bid <$> last (fblocks F) = Some (iparent I))).
  set (isFirst := match getBlock F (iparent I) with
                  | Some B => bool_decide (iid <$> head (binsts B) = Some (iid I))
                  | None => false
                  end).
  assert (Hiff : (length (operands I) =? 0)%nat && isLast && negb isFirst = true
                 <-> operands I = []
                     /\ bid <$> last (fblocks F) = Some (iparent I)
                     /\ exists B, getBlock F (iparent I) = Some B
                          /\ iid <$> head (binsts B) <> Some (iid I)).
  { rewrite !andb_true_iff, Nat.eqb_eq, negb_true_iff. subst isLast isFirst.
    rewrite bool_decide_eq_true. split.
    - intros [[H0 HL] HF]. split; [now destruct (operands I)|].
      split; [exact HL|].
      destruct (getBlock F (iparent I)) as [B|] eqn:HB.
      + exists B. split; [reflexivity|]. now apply bool_decide_eq_false in HF.
      + exfalso. unfold getBlock in HB.
        destruct (last (fblocks F)) as [B0|] eqn:HB0; [|discriminate HL].
        injection HL as HL.
        assert (Hin : In B0 (fblocks F))
          by (now apply last_Some_elem_of, list_elem_of_In in HB0).
        assert (Hf := find_none _ _ HB B0 Hin). cbv beta in Hf.
        apply Nat.eqb_neq in Hf. contradiction.
    - intros (H0 & HL & B & HB & HF). rewrite H0, HB.
      repeat split; [exact HL|]. now apply bool_decide_eq_false. }
  destruct ((length (operands I) =? 0)%nat && isLast && negb isFirst) eqn:E.
  - intros [= <- <-]. split; [|discriminate].
    split; [intros _; split; [reflexivity | now apply Hiff] | reflexivity].
  - intros H. apply bind_Some in H as (v & st1 & _ & [= <- <-]).
    split; [|discriminate]. split; [discriminate|].
    intros [_ H]. apply Hiff in H. discriminate H.
Qed.

Lemma visitReturnInst_empty_witness :
  hasStructRetAttr shared_cmp = false
  /\ operands (inst 4 "" VoidTy Ret ICMP_EQ [] 0) = []
  /\ bid <$> last (fblocks shared_cmp)
     = Some (iparent (inst 4 "" VoidTy Ret ICMP_EQ [] 0))
  /\ exists B,
       getBlock shared_cmp (iparent (inst 4 "" VoidTy Ret ICMP_EQ [] 0))
       = Some B
       /\ iid <$> head (binsts B)
          <> Some (iid (inst 4 "" VoidTy Ret ICMP_EQ [] 0)).
Proof.
  exact (proj1 (proj1 (visitReturnInst_empty shared_cmp (visit_in shared_cmp)
                  no_constant (inst 4 "" VoidTy Ret ICMP_EQ [] 0)
                  initial_state "" initial_state eq_refl)) eq_refl).
Defined.

(** X8: every [goto] has its label.  A block that is a successor of the
    terminator of a block of the function is printed with its label in
    front, the name of the block followed by a colon, and a branch to it
    is printed as a [goto] to that name. *)
Theorem printBasicBlock_label F visit pco (P BB : BasicBlock)
  (T : Instruction) :
  In P (fblocks F) -> getTerminator P = Some T ->
  In (bval BB) (successors T) -> vkind (bval BB) = KBasicBlock ->
  (forall st n st1 body st2 TB t st3,
     GetValueName (bval BB) st = Some (n, st1) ->
     emit_all (printInstruction F visit) (nonTerminators BB) st1
     = Some (body, st2) ->
     getTerminator BB = Some TB -> visit TB st2 = Some (t, st3) ->
     printBasicBlock F visit BB st
     = Some (n +:+ ":" +:+ nl +:+ body +:+ t, st3)) /\
  (forall CurBB Indent st n st1,
     GetValueName (bval BB) st = Some (n, st1) ->
     printBranchToBlock F visit pco CurBB (bval BB) Indent st
     = Some (spaces Indent +:+ "  goto " +:+ n +:+ ";" +:+ nl, st1)).
Proof.
  intros HP HT HS Hk. split.
  - intros st n st1 body st2 TB t st3 Hn Hb HTB Ht.
    unfold printBasicBlock.
    assert (HL : existsb (fun P => isGotoCodeNecessary (bid P) (bid BB))
                   (predecessors F (bid BB)) = true).
    { apply existsb_exists. exists P. split; [|reflexivity].
      unfold predecessors. apply filter_In. split; [exact HP|].
      rewrite HT. apply existsb_exists. exists (bval BB).
      split; [exact HS | apply Nat.eqb_refl]. }
    rewrite HL. unfold bind, ret, lift. rewrite Hn, Hb, HTB, Ht.
    now rewrite !append_assoc'.
  - intros CurBB Indent st n st1 Hn.
    unfold printBranchToBlock, isGotoCodeNecessary, writeOperand,
      isAddressExposed, writeOperandInternal, isDirectAlloca, getInst,
      isaArgument, isaInstruction, isaGlobalVariable, isaConstant,
      isaGlobalValue.
    rewrite Hk. cbn. unfold bind, ret. rewrite Hn. cbn.
    now rewrite append_empty_r.
Qed.

Lemma printBasicBlock_label_witness :
  printBranchToBlock phi_undef (visit_in phi_undef) no_constant 1
    (bb 3 "merge") 0 initial_state
  = Some ("  goto llvm_cbe_merge;" +:+ nl, initial_state).
Proof.
  exact (proj2 (printBasicBlock_label phi_undef (visit_in phi_undef)
                  no_constant (block 1 "P" [br_P])
                  (block 3 "merge"
                     [phi_x; inst 5 "" VoidTy Ret ICMP_EQ [ival phi_x] 3])
                  br_P (or_intror (or_introl eq_refl)) eq_refl
                  (or_introl eq_refl) eq_refl)
           1 0 initial_state "llvm_cbe_merge" initial_state eq_refl).
Defined.

(** *** Constant strings *)

Lemma literal_bytes_prefix (t rest : string) : forall st,
  literal_bytes st (t +:+ rest)
  = p ← literal_prefix st t; bytes ← literal_bytes (snd p) rest;
    Some (fst p +:+ bytes).
Proof.
  induction t as [|c t IH]; intros st.
  - change ("" +:+ rest) with rest. cbn.
    destruct (literal_bytes st rest); reflexivity.
  - rewrite append_String. cbn [literal_bytes literal_prefix].
    destruct (lex st c) as [[o st1]|]; [|reflexivity]. cbn [mbind option_bind snd fst].
    rewrite IH. destruct (literal_prefix st1 t) as [[o2 st2]|]; [|reflexivity].
    cbn. destruct (literal_bytes st2 rest) as [b|]; [|reflexivity].
    cbn. now rewrite append_assoc'.
Qed.

Lemma byte_read_back_all (flag : bool) (C : ascii) :
  byte_read_back flag (N_of_ascii C) = true.
Proof.
  assert (H : forall flag, forallb (byte_read_back flag)
                             (map N.of_nat (seq 0 256)) = true)
    by (intros []; vm_compute; reflexivity).
  apply (N_range_check _ 0 256 (H flag)).
  assert (Hb := N_ascii_bounded C). lia.
Qed.

(** What is written for one byte is read back as this byte. *)
Lemma printConstantString_byte_read (flag : bool) (C : ascii) (rest : string) :
  literal_bytes Plain (fst (printConstantString_byte flag C) +:+ rest)
  = (if snd (printConstantString_byte flag C)
     then literal_bytes (Hex (N_of_ascii C)) rest
     else String C <$> literal_bytes Plain rest)
  /\ (flag = true ->
      exists c0 t0, fst (printConstantString_byte flag C) = String c0 t0
                    /\ isxdigit c0 = false).
Proof.
  assert (H := byte_read_back_all flag C). unfold byte_read_back in H.
  rewrite ascii_N_embedding in H.
  apply andb_true_iff in H as [H1 H2]. apply bool_decide_eq_true in H1.
  split.
  - rewrite literal_bytes_prefix, H1.
    destruct (snd (printConstantString_byte flag C)); cbn.
    + now destruct (literal_bytes _ rest).
    + now destruct (literal_bytes _ rest).
  - intros ->. cbn [negb orb] in H2.
    destruct (fst (printConstantString_byte true C)) as [|c0 t0];
      [discriminate|].
    exists c0, t0. split; [reflexivity|]. now apply negb_true_iff.
Qed.

Lemma literal_bytes_Hex_end v (c : ascii) (s : string) :
  isxdigit c = false -> (v <? 256)%N = true ->
  literal_bytes (Hex v) (String c s)
  = String (ascii_of_N v) <$> literal_bytes Plain (String c s).
Proof.
  intros Hc Hv. cbn [literal_bytes lex]. rewrite Hc, Hv.
  destruct (lex_plain c) as [[o st1]|]; [|reflexivity]. cbn.
  now destruct (literal_bytes st1 s).
Qed.

Lemma printConstantString_loop_bytes (Bytes : string) :
  literal_bytes Plain (printConstantString_loop false Bytes) = Some Bytes
  /\ forall D : ascii,
       literal_bytes (Hex (N_of_ascii D)) (printConstantString_loop true Bytes)
       = Some (String D Bytes).
Proof.
  induction Bytes as [|C Bytes [IH0 IH1]].
  - split; [reflexivity|]. intros D. cbn.
    assert (H := N_ascii_bounded D). apply N.ltb_lt in H. rewrite H.
    now rewrite ascii_N_embedding.
  - assert (Hstep : forall flag,
      literal_bytes Plain (printConstantString_loop flag (String C Bytes))
      = Some (String C Bytes)).
    { intros flag. cbn [printConstantString_loop].
      destruct (printConstantString_byte flag C) as [text f] eqn:E.
      assert (H := proj1 (printConstantString_byte_read flag C
                            (printConstantString_loop f Bytes))).
      rewrite E in H. cbn [fst snd] in H. rewrite H.
      destruct f; [apply IH1 | now rewrite IH0]. }
    split; [apply Hstep|]. intros D.
    assert (HD := N_ascii_bounded D). apply N.ltb_lt in HD.
    destruct (proj2 (printConstantString_byte_read true C "") eq_refl)
      as (c0 & t0 & Ht & Hx).
    assert (Hs := Hstep true). cbn [printConstantString_loop] in Hs |- *.
    destruct (printConstantString_byte true C) as [text f].
    cbn [fst] in Ht. subst text. rewrite append_String in Hs |- *.
    rewrite (literal_bytes_Hex_end _ _ _ Hx HD), Hs. cbn.
    now rewrite ascii_N_embedding.
Qed.

Lemma substring_init (s : string) (c : ascii) :
  substring 0 (String.length (s +:+ String c "") - 1) (s +:+ String c "") = s.
Proof.
  assert (H : forall s, String.length (s +:+ String c "") = S (String.length s)).
  { clear s. induction s as [|x s IH]; [reflexivity|].
    rewrite append_String. cbn [String.length]. now rewrite IH. }
  rewrite H. cbn [Nat.sub]. rewrite Nat.sub_0_r.
  induction s as [|x s IH]; [reflexivity|].
  rewrite append_String. cbn [String.length substring]. now rewrite IH.
Qed.

(** X9: a constant string is written only when it is a C string and
    only as a static initialiser, and what is written then is a C string
    literal between braces that a C compiler reads back as the bytes of
    the string without its final null: every byte is written as itself or
    as an escape, a quote and a backslash never bare, and a hexadecimal
    digit that follows a hexadecimal escape is written as an escape too,
    so that it is not taken into that escape. *)
Theorem printConstantString_read_back (s : string) :
  exists body,
    literal_bytes Plain body = Some s /\
    forall isCString Context,
      printConstantString isCString (s +:+ String "000" "") Context
      = if isCString && bool_decide (Context = ContextStatic)
        then Some ("{ " +:+ dquote +:+ body +:+ dquote +:+ " }")
        else None.
Proof.
  exists (printConstantString_loop false s).
  split; [apply printConstantString_loop_bytes|].
  intros isCString Context. unfold printConstantString.
  destruct isCString; [|reflexivity]. cbn [negb andb].
  destruct (bool_decide (Context = ContextStatic)); [|reflexivity].
  cbn [negb]. now rewrite substring_init.
Qed.

Example printConstantString_hex_digit_after_escape :
  printConstantString true
    (String "001" (String "A" (String "g" (String "034" (String "000" "")))))
    ContextStatic
  = Some ("{ " +:+ dquote +:+ "\x01\x41g\" +:+ dquote +:+ dquote +:+ " }").
Proof. vm_compute. reflexivity. Qed.

(** *** Integer constants and the type strings of the helpers *)

Lemma getSExtValue_mod (w : N) (val : Z) :
  (getSExtValue w val mod 2 ^ Z.of_N w = val mod 2 ^ Z.of_N w)%Z.
Proof.
  unfold getSExtValue. cbv zeta.
  assert (Hp : (0 < 2 ^ Z.of_N w)%Z) by (apply Z.pow_pos_nonneg; lia).
  destruct (_ <=? _)%Z.
  - rewrite <- (Z.mod_add _ 1) by lia.
    replace (val mod 2 ^ Z.of_N w - 2 ^ Z.of_N w + 1 * 2 ^ Z.of_N w)%Z
      with (val mod 2 ^ Z.of_N w)%Z by lia.
    apply Z.mod_mod. lia.
  - apply Z.mod_mod. lia.
Qed.

Lemma getZExtValue_mod (w : N) (val : Z) :
  (getZExtValue w val mod 2 ^ Z.of_N w = val mod 2 ^ Z.of_N w)%Z.
Proof.
  unfold getZExtValue. apply Z.mod_mod.
  assert (Hp : (0 < 2 ^ Z.of_N w)%Z) by (apply Z.pow_pos_nonneg; lia). lia.
Qed.

(** X19: the text of an integer constant denotes its value.  For a
    width from 2 to 64 bits, and in every context, the text is a decimal
    number [n] in one of six forms: [n], [INT64_C(n)] or [((T)n)] with
    [n] the signed reading of the constant, or [nu], [UINT64_C(n)] or
    [((T)nu)] with [n] its unsigned reading, where [T] is the unsigned C
    type of the width; in each [n] is the constant modulo two to the
    width.  A constant of one bit is [0] or [1]; and for a constant wider
    than 64 bits nothing is written. *)
Theorem printConstantInt_denotes (w : N) (val : Z) (Context : OperandContext) :
  ((1 < w <= 64)%N ->
   exists n,
     (n mod 2 ^ Z.of_N w = val mod 2 ^ Z.of_N w)%Z /\
     ((n = getSExtValue w val /\
       (printConstantInt w val Context = Some (pretty n)
        \/ printConstantInt w val Context
           = Some ("INT64_C(" +:+ pretty n +:+ ")")
        \/ exists T,
             printSimpleType (IntegerTy w) false = Some T /\
             printConstantInt w val Context
             = Some ("((" +:+ T +:+ ")" +:+ pretty n +:+ ")")))
      \/ (n = getZExtValue w val /\
          (printConstantInt w val Context = Some (pretty n +:+ "u")
           \/ printConstantInt w val Context
              = Some ("UINT64_C(" +:+ pretty n +:+ ")")
           \/ exists T,
                printSimpleType (IntegerTy w) false = Some T /\
                printConstantInt w val Context
                = Some ("((" +:+ T +:+ ")" +:+ pretty n +:+ "u" +:+ ")")))))
  /\ (w = 1%N ->
      printConstantInt w val Context
      = Some (if (val mod 2 =? 0)%Z then "0" else "1"))
  /\ ((64 < w)%N -> printConstantInt w val Context = Some "").
Proof.
  split; [|split].
  - intros Hw. unfold printConstantInt. cbv zeta.
    assert (Hz := getZExtValue_mod w val).
    assert (Hs := getSExtValue_mod w val).
    rewrite (proj2 (N.eqb_neq w 1)) by lia.
    destruct (negb _ && _ && _ && _).
    { exists (getSExtValue w val). split; [exact Hs|]. left.
      split; [reflexivity|].
      destruct (32 <=? _)%Z; [right; left; reflexivity|].
      left. now rewrite append_empty_r. }
    destruct ((Z.of_N w <? 32)%Z && _) eqn:E.
    { apply andb_true_iff in E as [E _]. apply Z.ltb_lt in E.
      assert (HT : exists T, printSimpleType (IntegerTy w) false = Some T).
      { unfold printSimpleType. cbn.
        rewrite (proj2 (N.eqb_neq w 1)) by lia.
        repeat match goal with
               | |- context [(?a <=? ?b)%N] => destruct (N.leb_spec a b)
               end; try (eexists; reflexivity); lia. }
      destruct HT as [T HT]. rewrite HT. cbn [mbind option_bind].
      destruct (isMinSignedValue w val).
      - exists (getZExtValue w val). split; [exact Hz|]. right.
        split; [reflexivity|]. right. right. exists T.
        split; [reflexivity|]. now rewrite !append_assoc'.
      - exists (getSExtValue w val). split; [exact Hs|]. left.
        split; [reflexivity|]. right. right. exists T.
        split; reflexivity. }
    exists (getZExtValue w val). split; [exact Hz|]. right.
    split; [reflexivity|].
    destruct (Z.of_N w <=? 32)%Z; [left; reflexivity|].
    rewrite (proj2 (Z.leb_le (Z.of_N w) 64)) by lia.
    right. left. reflexivity.
  - intros ->. unfold printConstantInt. cbn [N.eqb Pos.eqb].
    unfold getZExtValue. reflexivity.
  - intros Hw. unfold printConstantInt. cbv zeta.
    rewrite (proj2 (N.eqb_neq w 1)) by lia.
    rewrite (proj2 (Z.ltb_ge (Z.of_N w) 64)) by lia.
    rewrite (proj2 (Z.ltb_ge (Z.of_N w) 32)) by lia.
    rewrite (proj2 (Z.leb_gt (Z.of_N w) 32)) by lia.
    rewrite (proj2 (Z.leb_gt (Z.of_N w) 64)) by lia.
    now rewrite !andb_false_r.
Qed.

Lemma printConstantInt_denotes_witness :
  printConstantInt 32 (-1) ContextCasted = Some "-1" /\
  printConstantInt 8 5 ContextNormal = Some "((uint8_t)5)" /\
  exists n,
    (n mod 2 ^ 32 = (-1) mod 2 ^ 32)%Z /\
    (n = getSExtValue 32 (-1) \/ n = getZExtValue 32 (-1)).
Proof.
  split; [reflexivity|]. split; [reflexivity|].
  destruct (proj1 (printConstantInt_denotes 32 (-1) ContextCasted))
    as (n & H1 & H2); [lia|].
  exists n. split; [exact H1|].
  destruct H2 as [[H2 _]|[H2 _]]; [left | right]; exact H2.
Defined.

(** X20: the type strings that name the helper functions tell the
    integer types apart: two integer types with the same string have the
    same width, and the same signedness unless they are the type of one
    bit; and every width up to 128 bits has a string. *)
Theorem printTypeString_integer_injective (w1 w2 : N) (s1 s2 : bool)
  (st st' : EState) n st1 st2 :
  printTypeString (IntegerTy w1) s1 st = Some (n, st1) ->
  printTypeString (IntegerTy w2) s2 st' = Some (n, st2) ->
  w1 = w2 /\ (w1 <> 1%N -> s1 = s2) /\ (w1 <= 128)%N.
Proof.
  cbn [printTypeString]. intros H1 H2.
  destruct (N.eqb_spec w1 1) as [->|N1], (N.eqb_spec w2 1) as [->|N2].
  - split; [reflexivity|]. split; [congruence | lia].
  - injection H1 as <- <-. destruct (w2 <=? 128)%N; [|discriminate H2].
    destruct s2; discriminate H2.
  - injection H2 as <- <-. destruct (w1 <=? 128)%N; [|discriminate H1].
    destruct s1; discriminate H1.
  - destruct (N.leb_spec w1 128); [|discriminate H1].
    destruct (w2 <=? 128)%N; [|discriminate H2].
    injection H1 as <- <-. injection H2 as H2 _.
    destruct s1, s2; rewrite ?append_String in H2;
      first [ discriminate H2 | injection H2 as H2 ];
      change ("" +:+ pretty w2) with (pretty w2) in H2;
      change ("" +:+ pretty w1) with (pretty w1) in H2;
      apply (inj pretty) in H2; auto.
Qed.

Lemma printTypeString_integer_injective_witness :
  printTypeString (IntegerTy 32) false initial_state
  = Some ("u32", initial_state) /\ (32 <= 128)%N.
Proof.
  split; [reflexivity|].
  exact (proj2 (proj2 (printTypeString_integer_injective 32 32 false false
                         initial_state initial_state "u32" initial_state
                         initial_state eq_refl eq_refl))).
Defined.

(** *** The lowering only appends *)

Lemma keeps_refl n bs : keeps n bs bs.
Proof. intros i B HB. exists B. repeat split; [exact HB|]. eauto. Qed.

Lemma keeps_trans n bs1 bs2 bs3 :
  keeps n bs1 bs2 -> keeps n bs2 bs3 -> keeps n bs1 bs3.
Proof.
  intros H12 H23 i B HB.
  destruct (H12 i B HB) as (B2 & HB2 & Hv2 & Hk2).
  destruct (H23 i B2 HB2) as (B3 & HB3 & Hv3 & Hk3).
  exists B3. split; [exact HB3|]. split; [congruence|].
  intros k I HI. destruct (Hk2 k I HI) as (I2 & HI2 & Hid2 & He2).
  destruct (Hk3 k I2 HI2) as (I3 & HI3 & Hid3 & He3).
  exists I3. split; [exact HI3|]. split; [congruence|].
  intros Hn. rewrite <- (He2 Hn). apply He3. rewrite Hid2. exact Hn.
Qed.

Lemma KeepsFrom_ret {A} n (a : A) : KeepsFrom n (ret a).
Proof.
  intros fb r fb' Hf Hn [= <- <-].
  split; [exact Hf|]. split; [apply keeps_refl|]. split; [reflexivity | lia].
Qed.

Lemma KeepsFrom_fail {A} n : KeepsFrom n (@fail _ A).
Proof. intros fb r fb' _ _ [=]. Qed.

Lemma KeepsFrom_lift {A} n (o : option A) : KeepsFrom n (lift o).
Proof.
  intros fb r fb' Hf Hn. destruct o; intros [= <- <-].
  split; [exact Hf|]. split; [apply keeps_refl|]. split; [reflexivity | lia].
Qed.

Lemma KeepsFrom_bind {A B} n (m : Build A) (k : A -> Build B) :
  KeepsFrom n m -> (forall a, KeepsFrom n (k a)) -> KeepsFrom n (bind m k).
Proof.
  intros Hm Hk fb r fb' Hf Hn H. apply bind_Some in H as (a & fb1 & H1 & H2).
  destruct (Hm _ _ _ Hf Hn H1) as (Hf1 & K1 & V1 & N1).
  destruct (Hk a _ _ _ Hf1 ltac:(lia) H2) as (Hf2 & K2 & V2 & N2).
  split; [exact Hf2|]. split; [eapply keeps_trans; eassumption|].
  split; [congruence | lia].
Qed.

(** An insertion, and what follows it, which knows that the instruction
    inserted is new. *)
Lemma KeepsFrom_Insert_bind {B} n bb op T name ops succs
  (k : Value -> Build B) :
  (forall v, n <= vid v -> KeepsFrom n (k v)) ->
  KeepsFrom n (bind (Insert bb op T name ops succs) k).
Proof.
  intros Hk fb r fb' Hf Hn H. apply bind_Some in H as (v & fb1 & H1 & H2).
  assert (Hw1 := proj1 (Grows_Insert _ _ _ _ _ _ _ _ _ H1 (proj1 Hf))).
  unfold Insert in H1. case_bool_decide; [|discriminate].
  injection H1 as <- <-.
  set (Inst := newInstruction (m_next_value fb) bb op T name ops succs) in *.
  set (fb1 := {| m_blocks := appendTo bb Inst (m_blocks fb);
                 m_current_basic_block := m_current_basic_block fb;
                 m_next_value := S (m_next_value fb);
                 m_vars := m_vars fb |}) in *.
  assert (Hf1 : fresh fb1).
  { split; [exact Hw1|]. intros i B0 k0 I0. cbn [m_blocks fb1 m_next_value].
    rewrite lookup_appendTo.
    destruct (m_blocks fb !! i) as [B1|] eqn:HB1; [|discriminate].
    cbn. intros [= <-]. destruct (decide (bb = i)) as [->|].
    - cbn. intros HI. apply lookup_app_Some in HI as [HI|[_ HI]].
      + specialize (proj2 Hf _ _ _ _ HB1 HI). lia.
      + apply list_lookup_singleton_Some in HI as [_ <-]. cbn. lia.
    - intros HI. specialize (proj2 Hf _ _ _ _ HB1 HI). lia. }
  assert (K1 : keeps n (m_blocks fb) (m_blocks fb1)).
  { intros i B0 HB0. cbn [m_blocks fb1]. rewrite lookup_appendTo, HB0. cbn.
    eexists. split; [reflexivity|].
    destruct (decide (bb = i)); cbn; (split; [reflexivity|]);
      intros k0 I0 HI0; exists I0; (split; [|auto]);
      [now apply lookup_app_l_Some | exact HI0]. }
  destruct (Hk (ival Inst) ltac:(cbn; lia) _ _ _ Hf1 ltac:(cbn; lia) H2)
    as (Hf2 & K2 & V2 & N2).
  split; [exact Hf2|]. split; [eapply keeps_trans; eassumption|].
  split; [exact V2 | cbn in N2; lia].
Qed.

Lemma KeepsFrom_Insert n bb op T name ops succs :
  KeepsFrom n (Insert bb op T name ops succs).
Proof.
  intros fb r fb' Hf Hn H.
  apply (KeepsFrom_Insert_bind n bb op T name ops succs ret
           (fun v _ => KeepsFrom_ret n v) fb r fb' Hf Hn).
  unfold bind. rewrite H. reflexivity.
Qed.

Lemma KeepsFrom_NewBasicBlock n name : KeepsFrom n (NewBasicBlock name).
Proof.
  intros fb r fb' Hf Hn H.
  assert (Hw1 := proj1 (Grows_NewBasicBlock _ _ _ _ H (proj1 Hf))).
  injection H as <- <-. cbn [m_blocks m_next_value m_vars] in *.
  split; [split; [exact Hw1|]|].
  - intros i B k I. cbn [m_blocks m_next_value]. intros HB HI.
    apply lookup_app_Some in HB as [HB|[_ HB]].
    + exact (proj2 Hf _ _ _ _ HB HI).
    + apply list_lookup_singleton_Some in HB as [_ <-]. discriminate HI.
  - split; [|split; [reflexivity | lia]].
    intros i B HB. exists B. split; [now apply lookup_app_l_Some|].
    split; [reflexivity|]. eauto.
Qed.

Lemma KeepsFrom_addIncoming n phi V BB :
  n <= vid phi -> KeepsFrom n (addIncoming phi V BB).
Proof.
  intros Hphi fb r fb' Hf Hn H.
  assert (Hw1 := proj1 (Grows_addIncoming _ _ _ _ _ _ H (proj1 Hf))).
  injection H as <- <-. cbn [m_blocks m_next_value m_vars] in *.
  assert (Hid : forall I, iid (addIncomingTo phi V BB I) = iid I).
  { intros I. unfold addIncomingTo. now destruct (_ && _). }
  split; [split; [exact Hw1|]|].
  - intros i B k I. cbn [m_blocks m_next_value].
    change (map (addIncomingIn phi V BB) (m_blocks fb))
      with (addIncomingIn phi V BB <$> m_blocks fb).
    rewrite list_lookup_fmap.
    destruct (m_blocks fb !! i) as [B0|] eqn:HB0; [|discriminate].
    cbn. intros [= <-]. cbn.
    change (map (addIncomingTo phi V BB) (binsts B0))
      with (addIncomingTo phi V BB <$> binsts B0).
    rewrite list_lookup_fmap.
    destruct (binsts B0 !! k) as [I0|] eqn:HI0; [|discriminate].
    cbn. intros [= <-]. rewrite Hid. exact (proj2 Hf _ _ _ _ HB0 HI0).
  - split; [|split; [reflexivity | lia]].
    intros i B HB.
    change (map (addIncomingIn phi V BB) (m_blocks fb))
      with (addIncomingIn phi V BB <$> m_blocks fb).
    rewrite list_lookup_fmap, HB. cbn. eexists. split; [reflexivity|].
    split; [reflexivity|]. intros k I HI. cbn.
    change (map (addIncomingTo phi V BB) (binsts B))
      with (addIncomingTo phi V BB <$> binsts B).
    rewrite list_lookup_fmap, HI. cbn. eexists. split; [reflexivity|].
    split; [apply Hid|]. intros Hlt. unfold addIncomingTo.
    replace (iid I =? vid phi)%nat with false
      by (symmetry; apply Nat.eqb_neq; lia).
    reflexivity.
Qed.

Lemma KeepsFrom_InsertCurrent_bind {B} n op T name ops (k : Value -> Build B) :
  (forall v, n <= vid v -> KeepsFrom n (k v)) ->
  KeepsFrom n (bind (InsertCurrent op T name ops) k).
Proof.
  intros Hk fb r fb' Hf Hn H.
  exact (KeepsFrom_Insert_bind n (m_current_basic_block fb) op T name ops [] k
           Hk fb r fb' Hf Hn H).
Qed.

Lemma KeepsFrom_InsertCurrent n op T name ops :
  KeepsFrom n (InsertCurrent op T name ops).
Proof. intros fb r fb' Hf Hn H. eapply KeepsFrom_Insert; eassumption. Qed.

Lemma KeepsFrom_CreateLoad n ptr : KeepsFrom n (CreateLoad ptr).
Proof.
  unfold CreateLoad. destruct (vty ptr);
    first [apply KeepsFrom_fail | apply KeepsFrom_InsertCurrent].
Qed.

Lemma KeepsFrom_CreateCondBr n bb c t f : KeepsFrom n (CreateCondBr bb c t f).
Proof. intros fb r fb' Hf Hn H. eapply KeepsFrom_Insert; eassumption. Qed.

Lemma KeepsFrom_CreateBr n bb d : KeepsFrom n (CreateBr bb d).
Proof. intros fb r fb' Hf Hn H. eapply KeepsFrom_Insert; eassumption. Qed.

Lemma KeepsFrom_same {A} n (m : Build A) :
  (forall fb r fb', m fb = Some (r, fb') -> fb' = fb) -> KeepsFrom n m.
Proof.
  intros Hm fb r fb' Hf Hn H. rewrite (Hm _ _ _ H).
  split; [exact Hf|]. split; [apply keeps_refl|]. split; [reflexivity | lia].
Qed.

Lemma KeepsFrom_GetResultValue n eb : KeepsFrom n (GetResultValue eb).
Proof.
  unfold GetResultValue.
  destruct (m_result_value eb), (m_result_ptr eb);
    try apply KeepsFrom_ret.
  apply KeepsFrom_bind; [apply KeepsFrom_CreateLoad | intros; apply KeepsFrom_ret].
Qed.

Lemma KeepsFrom_finish n eb : KeepsFrom n (finish eb).
Proof.
  unfold finish. destruct (IsValid eb);
    [apply KeepsFrom_ret | apply KeepsFrom_fail].
Qed.

Ltac keeps_step :=
  match goal with
  | |- KeepsFrom _ (bind (CreatePHI _ _) _) =>
      apply KeepsFrom_InsertCurrent_bind; intros ? ?
  | |- KeepsFrom _ (bind _ _) => apply KeepsFrom_bind; [|intros ?]
  | |- KeepsFrom _ (if ?c then _ else _) => destruct c
  | |- KeepsFrom _ (match ?op with Logical.And => _ | Logical.Or => _ end) =>
      destruct op
  | |- KeepsFrom _ (addIncoming _ _ _) =>
      apply KeepsFrom_addIncoming; assumption
  | |- KeepsFrom _ _ =>
      first [ apply KeepsFrom_ret | apply KeepsFrom_fail | apply KeepsFrom_lift
            | apply KeepsFrom_CreateLoad | apply KeepsFrom_InsertCurrent
            | apply KeepsFrom_CreateCondBr | apply KeepsFrom_CreateBr
            | apply KeepsFrom_NewBasicBlock | apply KeepsFrom_GetResultValue
            | apply KeepsFrom_finish
            | apply KeepsFrom_same; intros ? ? ? [= _ <-]; reflexivity
            | solve [auto] ]
  end.

Lemma Visit_KeepsFrom Target :
  (forall node n, KeepsFrom n (Visit Target node)) /\
  (forall args n, KeepsFrom n (VisitArgs Target args)).
Proof.
  apply Expression_NodeList_ind; intros; cbn [Visit VisitArgs];
    unfold BuildPeek, BuildPop, CreateCall, CreateStore;
    repeat keeps_step.
Qed.

Lemma prefix_of_lookups {A} (l l' : list A) :
  (forall k x, l !! k = Some x -> l' !! k = Some x) ->
  exists suffix, l' = (l ++ suffix)%list.
Proof.
  revert l'. induction l as [|x l IH]; intros l' H.
  - exists l'. reflexivity.
  - destruct l' as [|y l']; [discriminate (H 0 x eq_refl)|].
    assert (y = x) by (specialize (H 0 x eq_refl); now injection H).
    subst y. destruct (IH l') as [suffix ->].
    + intros k z Hz. exact (H (S k) z Hz).
    + exists suffix. reflexivity.
Qed.

(** X10: lowering an expression only appends.  In a builder whose next
    identity is fresh, every block that was there is still there, at its
    place, and its instructions are the instructions it had, unchanged
    and in their order, followed by those that were added; the variable
    table is the same; and the next identity is fresh again. *)
Theorem Visit_only_appends Target node fb eb fb' :
  fresh fb -> Visit Target node fb = Some (eb, fb') ->
  fresh fb' /\ m_vars fb' = m_vars fb /\
  forall i B, m_blocks fb !! i = Some B ->
    exists B' suffix,
      m_blocks fb' !! i = Some B' /\ bval B' = bval B
      /\ binsts B' = (binsts B ++ suffix)%list.
Proof.
  intros Hf H.
  destruct (proj1 (Visit_KeepsFrom Target) node (m_next_value fb) fb eb fb'
              Hf (le_n _) H) as (Hf' & K & V & _).
  split; [exact Hf'|]. split; [exact V|].
  intros i B HB. destruct (K i B HB) as (B' & HB' & Hv & Hk).
  destruct (prefix_of_lookups (binsts B) (binsts B')) as [suffix Hs].
  - intros k I HI. destruct (Hk k I HI) as (I' & HI' & _ & He).
    rewrite HI'. f_equal. apply He. exact (proj2 Hf _ _ _ _ HB HI).
  - exists B', suffix. auto.
Qed.

Lemma Visit_only_appends_witness :
  exists eb fb', Visit ExampleTarget f_and_g fb_entry = Some (eb, fb')
  /\ fresh fb' /\ m_vars fb' = m_vars fb_entry.
Proof.
  destruct (Visit ExampleTarget f_and_g fb_entry) as [[eb fb']|] eqn:H;
    [|discriminate H].
  exists eb, fb'. split; [reflexivity|].
  assert (Hf : fresh fb_entry).
  { split; [split; [cbn; lia|]|].
    - intros [|i] B HB; [injection HB as <-; reflexivity | discriminate HB].
    - intros [|i] B k I HB HI; [injection HB as <-|discriminate HB].
      destruct k; discriminate HI. }
  destruct (Visit_only_appends ExampleTarget f_and_g fb_entry eb fb' Hf H)
    as (H1 & H2 & _).
  split; assumption.
Defined.


Lemma finish_Some eb r (fb fb' : FunctionBuilder) :
  finish eb fb = Some (r, fb') -> r = eb /\ fb' = fb /\ IsValid eb = true.
Proof.
  unfold finish. destruct (IsValid eb); [|discriminate].
  intros [= <- <-]. auto.
Qed.

Lemma IsValid_value v :
  IsValid {| m_result_ptr := None; m_result_value := v |} = true -> is_Some v.
Proof.
  destruct v as [v|]; [eexists; reflexivity|].
  intros H. vm_compute in H. discriminate H.
Qed.

Lemma IsValid_pointer v :
  IsValid {| m_result_ptr := v; m_result_value := None |} = true ->
  IsPointer {| m_result_ptr := v; m_result_value := None |} = true.
Proof.
  destruct v as [v|]; [reflexivity|].
  intros H. vm_compute in H. discriminate H.
Qed.

(** A shortcut for the cases of [Visit]: the remaining binds of a
    successful lowering, down to its [finish]. *)
Ltac to_finish H :=
  repeat (apply bind_Some in H as (? & ? & _ & H));
  apply finish_Some in H as (-> & _ & ?).

(** The result of a lowered expression is a pointer exactly when the
    expression is one of those that give an address. *)
Lemma Visit_IsPointer Target node : forall fb eb fb',
  Visit Target node fb = Some (eb, fb') -> IsPointer eb = is_lvalue node.
Proof.
  induction node using Expression_mut
    with (P0 := fun _ : NodeList => True%type);
    try exact Logic.I; intros fb eb fb' H; cbn [Visit] in H; cbn [is_lvalue].
  - to_finish H. reflexivity.
  - to_finish H. reflexivity.
  - apply bind_Some in H as (v & fb1 & _ & H).
    destruct (decl_constant m_declaration); cbn [negb]; to_finish H;
      [reflexivity | now apply IsValid_pointer].
  - apply bind_Some in H as (eb_lhs & fb1 & _ & H).
    apply bind_Some in H as (eb_rhs & fb2 & H2 & H).
    rewrite <- (IHnode1 _ _ _ H2).
    destruct (IsPointer eb_rhs) eqn:Hp; to_finish H; [exact Hp | reflexivity].
  - apply bind_Some in H as (eb_i & fb1 & _ & H).
    apply bind_Some in H as (lb & fb2 & _ & H).
    destruct (IsPointer lb) eqn:Hlb; [|discriminate H]. cbn [negb] in H.
    to_finish H. exact Hlb.
  - apply bind_Some in H as (eb_l & fb1 & _ & H).
    destruct (negb _); [discriminate|]. to_finish H. reflexivity.
  - apply bind_Some in H as (eb_l & fb1 & _ & H).
    destruct (negb _); [discriminate|]. to_finish H. reflexivity.
  - to_finish H. reflexivity.
  - to_finish H. reflexivity.
Qed.

(** X11: for the expressions of the nine modelled classes (integer and
    boolean literals, identifiers, comma, assignment, logical, peek, pop
    and call expressions, built of such expressions), a lowering that
    succeeds gives a pointer or a value, never both, and which one is
    read off the expression: a pointer and no value for an identifier
    that is not declared constant, for an assignment, and for a comma
    expression whose left operand gives a pointer; a value and no pointer
    for a literal, an identifier declared constant, a logical, a peek, a
    pop and a call expression, and for a comma expression whose left
    operand gives a value.  (The index, unary, binary, relational and
    cast expressions and the float literal are not among them; of these
    the index expression gives a pointer.) *)
Theorem Visit_pointer_or_value Target node fb eb fb' :
  Visit Target node fb = Some (eb, fb') ->
  IsPointer eb = is_lvalue node /\
  if is_lvalue node then m_result_value eb = None
  else m_result_ptr eb = None /\ is_Some (m_result_value eb).
Proof.
  intros H. split; [exact (Visit_IsPointer _ _ _ _ _ H)|].
  assert (Hval : forall v,
            IsValid {| m_result_ptr := None; m_result_value := v |} = true ->
            @None Value = None /\ is_Some v)
    by (intros v Hv; split; [reflexivity | now apply IsValid_value]).
  destruct node; cbn [Visit] in H; cbn [is_lvalue].
  - to_finish H. now apply Hval.
  - to_finish H. now apply Hval.
  - apply bind_Some in H as (v & fb1 & _ & H).
    destruct (decl_constant m_declaration); cbn [negb]; to_finish H;
      [now apply Hval | reflexivity].
  - apply bind_Some in H as (eb_lhs & fb1 & _ & H).
    apply bind_Some in H as (eb_rhs & fb2 & H2 & H).
    rewrite <- (Visit_IsPointer _ _ _ _ _ H2).
    destruct (IsPointer eb_rhs); to_finish H; [reflexivity | now apply Hval].
  - apply bind_Some in H as (eb_i & fb1 & _ & H).
    apply bind_Some in H as (lb & fb2 & _ & H).
    destruct (negb (IsPointer lb)); [discriminate H|].
    to_finish H. reflexivity.
  - apply bind_Some in H as (eb_l & fb1 & _ & H).
    destruct (negb _); [discriminate|]. to_finish H. now apply Hval.
  - apply bind_Some in H as (eb_l & fb1 & _ & H).
    destruct (negb _); [discriminate|]. to_finish H. now apply Hval.
  - to_finish H. now apply Hval.
  - to_finish H. now apply Hval.
Qed.

Lemma Visit_pointer_or_value_witness :
  exists eb fb', Visit ExampleTarget a_and_b fb_ab = Some (eb, fb') /\
                 IsPointer eb = false /\ is_Some (m_result_value eb).
Proof.
  destruct (Visit ExampleTarget a_and_b fb_ab) as [[eb fb']|] eqn:H;
    [|discriminate H].
  exists eb, fb'. split; [reflexivity|].
  destruct (Visit_pointer_or_value ExampleTarget a_and_b fb_ab eb fb' H)
    as [H1 [_ H2]].
  split; assumption.
Defined.

(** X12: an assignment is lowered only when its left-hand side gives an
    address.  With a literal, an identifier declared constant, a logical
    expression, a peek, a pop or a call on the left, or a comma
    expression that begins with one of them, the lowering fails, whatever
    the right-hand side and the builder are. *)
Theorem AssignmentExpression_needs_lvalue Target t lvalue inner fb :
  is_lvalue lvalue = false ->
  Visit Target (AssignmentExpression t lvalue inner) fb = None.
Proof.
  intros Hl. cbn [Visit]. unfold bind at 1.
  destruct (Visit Target inner fb) as [[eb fb1]|]; [|reflexivity].
  unfold bind at 1.
  destruct (Visit Target lvalue fb1) as [[lb fb2]|] eqn:H; [|reflexivity].
  rewrite (Visit_IsPointer _ _ _ _ _ H), Hl. reflexivity.
Qed.

Lemma AssignmentExpression_needs_lvalue_witness :
  Visit ExampleTarget
    (AssignmentExpression TBoolean call_f (IdentifierExpression TBoolean decl_a))
    fb_ab = None.
Proof.
  apply (AssignmentExpression_needs_lvalue ExampleTarget TBoolean call_f).
  reflexivity.
Defined.

(** X13: the value of a builder is loaded once.  [GetResultValue] inserts
    at most one instruction, a load of the result pointer at the end of
    the current block, and only when the builder has a pointer and no
    value yet; it keeps the pointer; and asked again, the builder it
    leaves gives the same value and changes nothing. *)
Theorem GetResultValue_loads_once eb fb eb' v fb' :
  GetResultValue eb fb = Some ((eb', v), fb') ->
  GetResultValue eb' fb' = Some ((eb', v), fb') /\
  m_result_ptr eb' = m_result_ptr eb /\ m_result_value eb' = v /\
  (is_Some (m_result_value eb) \/ m_result_ptr eb = None ->
   fb' = fb /\ eb' = eb) /\
  (m_result_value eb = None -> forall ptr, m_result_ptr eb = Some ptr ->
   exists T,
     vty ptr = PointerTy T /\
     v = Some (mkValue (m_next_value fb) KInstruction "" T) /\
     m_blocks fb'
     = appendTo (m_current_basic_block fb)
         (newInstruction (m_next_value fb) (m_current_basic_block fb) Load T ""
            [ptr] [])
         (m_blocks fb) /\
     m_next_value fb' = S (m_next_value fb) /\
     m_current_basic_block fb' = m_current_basic_block fb).
Proof.
  unfold GetResultValue.
  destruct (m_result_value eb) as [rv|] eqn:Hv.
  - intros H.
    assert (H' : eb' = eb /\ v = Some rv /\ fb' = fb)
      by (destruct (m_result_ptr eb); injection H as <- <- <-; auto).
    destruct H' as (-> & -> & ->). rewrite Hv.
    split; [now destruct (m_result_ptr eb)|].
    split; [reflexivity|]. split; [reflexivity|].
    split; [auto | discriminate].
  - destruct (m_result_ptr eb) as [ptr|] eqn:Hp.
    + intros H. apply bind_Some in H as (w & fb1 & HL & H).
      injection H as <- <- <-. cbn.
      split; [reflexivity|]. split; [reflexivity|]. split; [reflexivity|].
      split; [intros [[x Hx]|Hx]; discriminate Hx|].
      intros _ ptr' [= <-]. unfold CreateLoad in HL.
      destruct (vty ptr) as [| | | | | | | |T|] eqn:HT; try discriminate HL.
      unfold InsertCurrent, Insert in HL.
      case_bool_decide; [|discriminate HL]. injection HL as <- <-.
      exists T. cbn. auto.
    + intros [= <- <- <-]. rewrite Hv, Hp.
      split; [reflexivity|]. split; [reflexivity|]. split; [reflexivity|].
      split; [auto | discriminate].
Qed.

Lemma GetResultValue_loads_once_witness :
  exists eb' v fb',
    GetResultValue {| m_result_ptr := Some (ival slot_a);
                      m_result_value := None |} fb_ab
    = Some ((eb', v), fb') /\
    GetResultValue eb' fb' = Some ((eb', v), fb') /\
    m_next_value fb' = 4.
Proof.
  set (eb := {| m_result_ptr := Some (ival slot_a); m_result_value := None |}).
  destruct (GetResultValue eb fb_ab) as [[[eb' v] fb']|] eqn:H;
    [|discriminate H].
  exists eb', v, fb'. split; [reflexivity|].
  destruct (GetResultValue_loads_once eb fb_ab eb' v fb' H)
    as (H1 & _ & _ & _ & H2).
  split; [exact H1|].
  destruct (H2 eq_refl (ival slot_a) eq_refl) as (T & _ & _ & _ & Hn & _).
  exact Hn.
Defined.

Lemma LogicalExpression_short_circuit_witness :
  wf fb_entry /\
  exists eb fb' eb_l fb1 lhs_end rhs_end merge (Phi : Instruction),
    Visit ExampleTarget f_and_g fb_entry = Some (eb, fb') /\
    Visit ExampleTarget call_f fb_entry = Some (eb_l, fb1) /\
    lhs_end = m_current_basic_block fb1 /\
    lhs_end < rhs_end /\ rhs_end < merge /\
    incoming_blocks Phi = [lhs_end; rhs_end] /\
    m_result_value eb = Some (ival Phi).
Proof.
  assert (Hw : wf fb_entry).
  { split; [cbn; lia|].
    intros [|i] B HB; [injection HB as <-; reflexivity | discriminate HB]. }
  split; [exact Hw|].
  destruct (Visit ExampleTarget f_and_g fb_entry) as [[eb fb']|] eqn:H;
    [|discriminate H].
  destruct (LogicalExpression_short_circuit ExampleTarget TBoolean call_f
              Logical.And call_g fb_entry eb fb' Hw H)
    as (eb_l & fb1 & fb2 & eb_r & fb3 & BL & BR & lhs_end & rhs_begin
        & rhs_end & merge & TermL & TermR & Phi & pre_lhs & pre_rhs
        & before & after & cond & rv & Hl & _ & _ & HL & _ & _ & _ & _ & _
        & _ & _ & _ & _ & _ & _ & _ & H1 & H2 & _ & _ & _ & _ & _ & _ & _
        & _ & _ & _ & _ & _ & _ & H3 & H4 & _).
  exists eb, fb', eb_l, fb1, lhs_end, rhs_end, merge, Phi. auto 10.
Defined.

(** The right operand of [f() || (g() && h())] is lowered into the blocks
    1 (where it begins), 2 and 3 (where it ends).  The branch of block 0
    goes to block 4, the merge block, when [f] gives true, and to block 3
    otherwise: block 1, with the call of [g], has no predecessor. *)
Example nested_logical_expression_blocks :
  map (fun B => map (fun J => (iop J, map vname (operands J),
                               map vid (successors J), incoming_blocks J))
                    (binsts B))
      (lowered f_or_g_and_h)
  = [[(Call, ["f"], [], []); (Br, [""], [4; 3], [])];
     [(Call, ["g"], [], []); (Br, [""], [2; 3], [])];
     [(Call, ["h"], [], []); (Br, [], [3], [])];
     [(PHI, [""; ""], [], [1; 2]); (Br, [], [4], [])];
     [(PHI, [""; ""], [], [0; 3])]].
Proof. vm_compute. reflexivity. Qed.

(** *** Lists of nodes, type names and declarations *)
Import AST.

Section NodeFacts.
Context {A : Type}.

(** Induction on a node, with the property for the children of a list. *)
Lemma Node_nested_ind (P : Node A -> Prop) :
  (forall a, P (Other a)) ->
  (forall l, Forall P l -> P (NodeList l)) ->
  forall n, P n.
Proof.
  intros HO HL. fix IH 1. intros [a|l]; [apply HO | apply HL].
  revert l. fix IHl 1. intros [|x xs]; constructor; [apply IH | apply IHl].
Qed.

Lemma AddNode_nonnull_leaves (li : Node A) :
  forall m_nodes, AddNode_nonnull m_nodes li = (m_nodes ++ leaves li)%list.
Proof.
  induction li as [a | nodes IH] using Node_nested_ind; intros m_nodes.
  - reflexivity.
  - cbn [AddNode_nonnull leaves]. revert m_nodes.
    induction IH as [|x l Hx _ IHl]; intros m_nodes; cbn.
    + now rewrite app_nil_r.
    + rewrite Hx, IHl. now rewrite <- app_assoc.
Qed.

Lemma AddNode_leaves (m_nodes : list (Node A)) (li : option (Node A)) :
  AddNode m_nodes li = (m_nodes ++ leaves_of li)%list.
Proof.
  destruct li as [n|]; cbn; [apply AddNode_nonnull_leaves|].
  now rewrite app_nil_r.
Qed.

Lemma leaves_not_list (n : Node A) : no_list (leaves n).
Proof.
  unfold no_list.
  induction n as [a | nodes IH] using Node_nested_ind; cbn.
  - repeat constructor.
  - induction IH as [|x l Hx _ IHl]; cbn; [constructor|].
    apply Forall_app. split; assumption.
Qed.

End NodeFacts.

(** X15: [AddNode] flattens.  It appends, in their order, the nodes of
    the tree it is given that are no lists, however deep they lie, and
    nothing for a null pointer; what it appends holds no [NodeList], so
    a list built by [AddNode] alone holds none, and its length grows by
    the number of these nodes. *)
Theorem AddNode_flattens {A} (m_nodes : list (Node A)) (li : option (Node A)) :
  AddNode m_nodes li = (m_nodes ++ leaves_of li)%list
  /\ no_list (leaves_of li)
  /\ no_list (AddNode [] li)
  /\ length (AddNode m_nodes li) = length m_nodes + length (leaves_of li).
Proof.
  assert (Hl : no_list (leaves_of li))
    by (destruct li as [n|]; [apply leaves_not_list | constructor]).
  split; [apply AddNode_leaves|]. split; [exact Hl|].
  rewrite !AddNode_leaves. split; [exact Hl | apply length_app].
Qed.

(** X16: adding a node at the end of a list and prepending one at its
    front commute, whatever the two nodes are: lists, other nodes or
    null pointers. *)
Theorem AddNode_PrependNode_commute {A} (m_nodes : list (Node A))
  (a b : option (Node A)) :
  AddNode (PrependNode m_nodes a) b = PrependNode (AddNode m_nodes b) a.
Proof.
  rewrite !AddNode_leaves.
  destruct a as [[x|[|n nodes]]|]; cbn; rewrite <- ?app_assoc; reflexivity.
Qed.

(** X17: merging type names is associative and the empty type name is
    neutral on both sides; the array sizes are concatenated and the
    first base type name that is not empty is kept.  Adding an array size
    is merging with the type name that has only this size. *)
Theorem Merge_monoid (a b c : TypeName) :
  Merge (Merge a b) c = Merge a (Merge b c)
  /\ Merge a empty_TypeName = a /\ Merge empty_TypeName a = a
  /\ m_array_sizes (Merge a b) = (m_array_sizes a ++ m_array_sizes b)%list
  /\ m_base_type_name (Merge a b)
     = (if String.eqb (m_base_type_name a) "" then m_base_type_name b
        else m_base_type_name a)
  /\ (forall size,
        AddArraySize a size
        = Merge a {| m_base_type_name := ""; m_array_sizes := [size] |}).
Proof.
  assert (Hs : forall x y : list Z,
             match y with [] => x | _ => (x ++ y)%list end = (x ++ y)%list)
    by (intros x [|z y]; [now rewrite app_nil_r | reflexivity]).
  assert (He : forall n n' (s s' : list Z), n = n' -> s = s' ->
             {| m_base_type_name := n; m_array_sizes := s |}
             = {| m_base_type_name := n'; m_array_sizes := s' |})
    by (intros; subst; reflexivity).
  destruct a as [na sa], b as [nb sb], c as [nc sc].
  unfold Merge, AddArraySize, empty_TypeName; cbn [m_base_type_name m_array_sizes].
  rewrite !Hs.
  split; [|split; [|split; [|split; [|split]]]].
  - apply He; [|now rewrite app_assoc].
    destruct (String.eqb_spec na ""), (String.eqb_spec nb ""),
      (String.eqb_spec nc ""); subst; cbn;
      rewrite ?String.eqb_refl; cbn; try reflexivity;
      repeat match goal with
             | H : ?x <> "" |- context [String.eqb ?x ""] =>
                 rewrite (proj2 (String.eqb_neq x "") H)
             end; reflexivity.
  - apply He; [now rewrite andb_false_r | now rewrite ?app_nil_r].
  - apply He; [|reflexivity].
    destruct (String.eqb_spec na ""); subst; reflexivity.
  - reflexivity.
  - destruct (String.eqb_spec na ""), (String.eqb_spec nb "");
      subst; reflexivity.
  - intros size. apply He; [now rewrite andb_false_r | reflexivity].
Qed.

(** X18: the declarations of a declarator list, added to a list of
    nodes, are one variable declaration for each declarator, in their
    order, each with the type specifier and the location, name and
    initializer of its declarator; this holds also for a list of one
    declarator, for which [CreateDeclarations] returns the declaration
    itself and no list, and for the empty list. *)
Theorem AddNode_CreateDeclarations {L E}
  (m_nodes : list (Node (VariableDeclaration L E)))
  (type_specifier : TypeName) (declarator_list : list (InitDeclarator L E)) :
  AddNode m_nodes (Some (CreateDeclarations type_specifier declarator_list))
  = (m_nodes ++ map (declare type_specifier) declarator_list)%list.
Proof.
  rewrite AddNode_leaves. f_equal. cbn [leaves_of].
  assert (Hf : forall (l : list (InitDeclarator L E)) acc,
             fold_left (fun decl_list decl =>
                          AddNode decl_list
                                  (Some (declare type_specifier decl))) l acc
             = (acc ++ map (declare type_specifier) l)%list).
  { induction l as [|d l IH]; intros acc; cbn [fold_left map].
    - now rewrite app_nil_r.
    - rewrite IH. cbn. now rewrite <- app_assoc. }
  assert (Hl : forall l : list (InitDeclarator L E),
             flat_map leaves (map (declare type_specifier) l)
             = map (declare type_specifier) l)
    by (induction l as [|d l IH]; cbn; [reflexivity | now rewrite IH]).
  unfold CreateDeclarations.
  destruct declarator_list as [|d [|d' l]].
  - reflexivity.
  - reflexivity.
  - cbn [leaves]. rewrite Hf. cbn [app]. apply Hl.
Qed.
